(** * Price Scanner: the price ledger (app.js) and the asset cache
      (service worker), embedded in Rocq.

    The development follows the two source files.

    - [Module JS] models the part of the JavaScript platform that app.js
      calls: strings as sequences of UTF-16 code units, numbers,
      [parseFloat], [Number.prototype.toString], [Number.prototype.toFixed],
      [JSON.parse], [JSON.stringify], property assignment and [Object.keys].
    - [Module App] is app.js: the page state, [loadPrices], [startScanner],
      [onDetected] and the click handler of the save button.
    - [Module ServiceWorker] is the service worker: the install, activate
      and fetch listeners over a model of [CacheStorage].

    Numbers.  A JavaScript number is a binary64 value, and so it is here:
    a decimal literal is rounded to the nearest binary64 value (ties to
    even, overflow to an infinity, underflow to the subnormals and to zero),
    Number::toString writes the shortest decimal that rounds to the value,
    and [toFixed] rounds the binary value itself.  A finite number is kept
    as that shortest decimal, which determines the value.

    Other conventions.  app.js is taken to run as a classic script in
    non-strict mode, as its source reads; [localStorage.setItem] is taken to
    have room, so that it does not throw; promises are followed to their
    settlement, one listener at a time. *)

From Stdlib Require Import ZArith NArith List String Ascii Lia Bool DecimalN.
From stdpp Require Import gmap list strings.

Set Warnings "-register-all".

Abbreviation jsstring := (list N) (only parsing).

(** A string literal of the source, as code units. *)
Definition str (s : string) : jsstring :=
  List.map N_of_ascii (list_ascii_of_string s).

Definition chr (a : ascii) : N := Eval cbv in N_of_ascii a.
Arguments chr : simpl never.

Module JS.

(** ** Decimal digits *)

Definition is_digit (c : N) : bool := (48 <=? c)%N && (c <=? 57)%N.
Definition digit_val (c : N) : N := (c - 48)%N.
Definition digit_char (d : N) : N := (48 + d)%N.

Definition digits_str (ds : list N) : jsstring := List.map digit_char ds.

(** The longest run of decimal digits at the head of [s], as digit values,
    and what follows it. *)
Fixpoint span_digits (s : jsstring) : list N * jsstring :=
  match s with
  | c :: r =>
      if is_digit c
      then let (ds, r') := span_digits r in (digit_val c :: ds, r')
      else ([], s)
  | [] => ([], [])
  end.

Fixpoint uint_digits (u : Decimal.uint) : list N :=
  match u with
  | Decimal.Nil => []
  | Decimal.D0 u => 0%N :: uint_digits u
  | Decimal.D1 u => 1%N :: uint_digits u
  | Decimal.D2 u => 2%N :: uint_digits u
  | Decimal.D3 u => 3%N :: uint_digits u
  | Decimal.D4 u => 4%N :: uint_digits u
  | Decimal.D5 u => 5%N :: uint_digits u
  | Decimal.D6 u => 6%N :: uint_digits u
  | Decimal.D7 u => 7%N :: uint_digits u
  | Decimal.D8 u => 8%N :: uint_digits u
  | Decimal.D9 u => 9%N :: uint_digits u
  end.

Fixpoint digits_uint (ds : list N) : Decimal.uint :=
  match ds with
  | [] => Decimal.Nil
  | d :: r =>
      let u := digits_uint r in
      match d with
      | 0%N => Decimal.D0 u
      | 1%N => Decimal.D1 u
      | 2%N => Decimal.D2 u
      | 3%N => Decimal.D3 u
      | 4%N => Decimal.D4 u
      | 5%N => Decimal.D5 u
      | 6%N => Decimal.D6 u
      | 7%N => Decimal.D7 u
      | 8%N => Decimal.D8 u
      | _ => Decimal.D9 u
      end
  end.

(** The decimal digits of a natural number, most significant first
    ([0] is the single digit 0), and the number a digit sequence writes. *)
Definition N_digits (n : N) : list N := uint_digits (N.to_uint n).
Definition digits_value (ds : list N) : N := N.of_uint (digits_uint ds).

Fixpoint drop_zeros (ds : list N) : list N :=
  match ds with
  | 0%N :: r => drop_zeros r
  | _ => ds
  end.

Definition strip_trailing_zeros (ds : list N) : list N :=
  rev (drop_zeros (rev ds)).

(** ** Numbers *)

(** A number is a binary64 value.  [Fin neg ds n] is the finite value other
    than zero whose shortest decimal is [(-1)^neg * 0.d1 d2 ... dk * 10^n]:
    the digits [ds] with the decimal point [n] places after the first digit's
    left edge, which is how Number::toString describes a finite number.
    The first and the last digit are not 0, and the binary64 value itself
    is [round_decimal ds n], defined below. *)
Inductive number :=
| NaN
| Inf (neg : bool)
| Zero (neg : bool)
| Fin (neg : bool) (ds : list N) (n : Z).

Definition isNaN (x : number) : bool :=
  match x with NaN => true | _ => false end.

Definition isFinite (x : number) : bool :=
  match x with NaN | Inf _ => false | _ => true end.


(** ** binary64: rounding a decimal, and the shortest decimal of a value *)

(** A positive binary64 value: zero (the value underflowed), infinity (it
    overflowed), or [m * 2^e] with [2^52 <= m < 2^53] and
    [-1074 <= e <= 971] (normal) or [0 < m < 2^52] and [e = -1074]
    (subnormal). *)
Inductive binary64 :=
| BZero
| BInf
| BFin (m e : Z).

Definition binary64_eqb (x y : binary64) : bool :=
  match x, y with
  | BZero, BZero | BInf, BInf => true
  | BFin m e, BFin m' e' => ((m =? m') && (e =? e'))%Z
  | _, _ => false
  end.

(** [floor (log2 (a / b))] for positive [a] and [b]: with [b < 2^k], the
    quotient of [a * 2^k] by [b] is at least 1 and has the same integer
    logarithm as [a * 2^k / b]. *)
Definition log2_ratio (a b : Z) : Z :=
  let k := (Z.log2 b + 1)%Z in
  (Z.log2 (a * 2 ^ k / b) - k)%Z.

(** The integer nearest to [num / den], the even one of two. *)
Definition round_half_even (num den : Z) : Z :=
  let q := (num / den)%Z in
  match (2 * (num mod den) ?= den)%Z with
  | Lt => q
  | Gt => (q + 1)%Z
  | Eq => if Z.even q then q else (q + 1)%Z
  end.

(** The binary64 value nearest to [a / b], for positive [a] and [b]: round
    to nearest, ties to even.  The exponent [e] is the one that leaves 53
    bits before the binary point, and not less than that of the subnormals;
    [a / b] is [m * 2^e] before rounding. *)
Definition round_ratio (a b : Z) : binary64 :=
  if (a =? 0)%Z then BZero
  else
    let e := Z.max (log2_ratio a b - 52) (-1074) in
    let m := round_half_even (a * 2 ^ Z.max 0 (- e)) (b * 2 ^ Z.max 0 e) in
    if (m =? 2 ^ 53)%Z then (if (971 <? e + 1)%Z then BInf else BFin (2 ^ 52) (e + 1))
    else if (971 <? e)%Z then BInf
    else if (m =? 0)%Z then BZero
    else BFin m e.

(** The binary64 value of [0.ds * 10^n], for [ds] without a leading zero. *)
Definition round_decimal (ds : list N) (n : Z) : binary64 :=
  if (309 <? n)%Z then BInf
  else if (n <? -323)%Z then BZero
  else
    let k := Z.of_nat (length ds) in
    let d := Z.of_N (digits_value ds) in
    if (k <=? n)%Z then round_ratio (d * 10 ^ (n - k)) 1
    else round_ratio d (10 ^ (k - n)).

(** The digits [ip] before the decimal point and [fp] after it, times
    [10^e], as [0.ds * 10^n] with no zero at either end of [ds]. *)
Definition canonical_decimal (ip fp : list N) (e : Z) : list N * Z :=
  let all := ip ++ fp in
  let lead := drop_zeros all in
  let z := Z.of_nat (length all - length lead) in
  (strip_trailing_zeros lead, (Z.of_nat (length ip) - z + e)%Z).

(** The decimal expansion of [m * 2^e], which is finite: all its digits
    [ds], and [n] with [m * 2^e = 0.ds * 10^n]. *)
Definition exact_decimal (m e : Z) : list N * Z :=
  if (0 <=? e)%Z
  then let ds := N_digits (Z.to_N (m * 2 ^ e)) in (ds, Z.of_nat (length ds))
  else let ds := N_digits (Z.to_N (m * 5 ^ (- e))) in
       (ds, (Z.of_nat (length ds) + e)%Z).

(** The decimal of [k] digits that Number::toString would choose for the
    value [y = 0.ds * 10^n], if one of the two next to [y] rounds to [y]:
    the nearer of the two when both do, the even one when they are equally
    near. *)
Definition pick_decimal (y : binary64) (ds : list N) (n : Z) (k : nat)
  : option (list N * Z) :=
  let p := firstn k ds in
  let r := skipn k ds in
  let scale := (n - Z.of_nat (length p))%Z in
  let lo := canonical_decimal p [] scale in
  let hi := canonical_decimal (N_digits (digits_value p + 1)) [] scale in
  let ok_lo := binary64_eqb (round_decimal (fst lo) (snd lo)) y in
  let ok_hi := binary64_eqb (round_decimal (fst hi) (snd hi)) y in
  match ok_lo, ok_hi with
  | true, false => Some lo
  | false, true => Some hi
  | false, false => None
  | true, true =>
      match (2 * digits_value r ?= 10 ^ N.of_nat (length r))%N with
      | Lt => Some lo
      | Gt => Some hi
      | Eq => if N.even (digits_value p) then Some lo else Some hi
      end
  end.

(** The search for the least number of digits: [k], [k + 1], ... *)
Fixpoint shortest_from (fuel k : nat) (y : binary64) (ds : list N) (n : Z)
  : option (list N * Z) :=
  match fuel with
  | O => None
  | S fuel' =>
      match pick_decimal y ds n k with
      | Some c => Some c
      | None => shortest_from fuel' (S k) y ds n
      end
  end.

(** The shortest decimal that rounds to [m * 2^e], as Number::toString
    defines the digits of a number: the least [k] for which a decimal of [k]
    digits rounds to the value.  The last candidate is the whole expansion of
    the value. *)
Definition shortest_decimal (m e : Z) : option (list N * Z) :=
  let (ds, n) := exact_decimal m e in
  shortest_from (length ds) 1 (BFin m e) ds n.

(** The number written by the digits [ip] before the decimal point, the
    digits [fp] after it and the decimal exponent [e]: the binary64 value
    nearest to it, kept as its shortest decimal.  The search of
    [shortest_decimal] does not fail ([shortest_decimal_total] below), so a
    literal is never read as NaN. *)
Definition make_number (neg : bool) (ip fp : list N) (e : Z) : number :=
  let (ds, n) := canonical_decimal ip fp e in
  match ds with
  | [] => Zero neg
  | _ =>
      match round_decimal ds n with
      | BInf => Inf neg
      | BZero => Zero neg
      | BFin m e' =>
          match shortest_decimal m e' with
          | Some (ds', n') => Fin neg ds' n'
          | None => NaN
          end
      end
  end.

(** ** parseFloat *)

(** StrWhiteSpaceChar: WhiteSpace and LineTerminator code units. *)
Definition is_str_whitespace (c : N) : bool :=
  ((9 <=? c) && (c <=? 13) || (c =? 32) || (c =? 160) || (c =? 5760)
   || (8192 <=? c) && (c <=? 8202) || (c =? 8232) || (c =? 8233)
   || (c =? 8239) || (c =? 8287) || (c =? 12288) || (c =? 65279))%N.

Fixpoint trim_start (s : jsstring) : jsstring :=
  match s with
  | c :: r => if is_str_whitespace c then trim_start r else s
  | [] => []
  end.

(** [strip_prefix p s] is what follows [p] in [s], when [s] starts with [p]. *)
Fixpoint strip_prefix (p s : jsstring) : option jsstring :=
  match p, s with
  | [], _ => Some s
  | a :: p', b :: s' => if (a =? b)%N then strip_prefix p' s' else None
  | _ :: _, [] => None
  end.

(** An optional sign: whether it is a minus, and what follows. *)
Definition parse_sign (s : jsstring) : bool * jsstring :=
  match s with
  | c :: r =>
      if (c =? chr "+")%N then (false, r)
      else if (c =? chr "-")%N then (true, r)
      else (false, s)
  | [] => (false, s)
  end.

(** ExponentPart: [e] or [E], an optional sign and at least one digit. *)
Definition parse_exponent (s : jsstring) : option (Z * jsstring) :=
  match s with
  | c :: r =>
      if ((c =? chr "e") || (c =? chr "E"))%N then
        let (neg, r1) := parse_sign r in
        let (ds, r2) := span_digits r1 in
        match ds with
        | [] => None
        | _ =>
            let v := Z.of_N (digits_value ds) in
            Some (if neg then (- v)%Z else v, r2)
        end
      else None
  | [] => None
  end.

(** The longest prefix of [s] that is a StrUnsignedDecimalLiteral other
    than Infinity: its integer digits, fraction digits and exponent, and the
    rest of [s]. *)
Definition parse_decimal_prefix (s : jsstring)
  : option (list N * list N * Z * jsstring) :=
  let (ip, r1) := span_digits s in
  let (fp, r2) :=
    match r1 with
    | c :: r => if (c =? chr ".")%N then span_digits r else ([], r1)
    | [] => ([], r1)
    end in
  match ip, fp with
  | [], [] => None
  | _, _ =>
      match parse_exponent r2 with
      | Some (e, r3) => Some (ip, fp, e, r3)
      | None => Some (ip, fp, 0%Z, r2)
      end
  end.

Definition parseFloat (s : jsstring) : number :=
  let (neg, r) := parse_sign (trim_start s) in
  match strip_prefix (str "Infinity") r with
  | Some _ => Inf neg
  | None =>
      match parse_decimal_prefix r with
      | Some (ip, fp, e, _) => make_number neg ip fp e
      | None => NaN
      end
  end.

(** ** Number::toString and Number.prototype.toFixed *)

Definition sign_str (neg : bool) : jsstring :=
  if neg then str "-" else [].

Definition zeros (n : nat) : list N := repeat 0%N n.

Definition Number_toString (x : number) : jsstring :=
  match x with
  | NaN => str "NaN"
  | Inf neg => sign_str neg ++ str "Infinity"
  | Zero _ => str "0"
  | Fin neg ds n =>
      let k := Z.of_nat (length ds) in
      sign_str neg ++
      if ((k <=? n) && (n <=? 21))%Z then
        digits_str (ds ++ zeros (Z.to_nat (n - k)))
      else if ((0 <? n) && (n <=? 21))%Z then
        digits_str (firstn (Z.to_nat n) ds) ++ str "."
          ++ digits_str (skipn (Z.to_nat n) ds)
      else if ((-6 <? n) && (n <=? 0))%Z then
        str "0." ++ digits_str (zeros (Z.to_nat (- n)) ++ ds)
      else
        let e := (n - 1)%Z in
        let es := (if (e <? 0)%Z then str "-" else str "+")
                    ++ digits_str (N_digits (Z.abs_N e)) in
        match ds with
        | [] => []
        | [d] => digits_str [d] ++ str "e" ++ es
        | d :: rest => digits_str [d] ++ str "." ++ digits_str rest ++ str "e" ++ es
        end
  end.

(** [x.toFixed(2)].  The integer [q] is the one for which [q / 100 - |x|]
    is closest to zero, the larger of two candidates, [|x| = m * 2^e] being
    the binary64 value. *)
Definition toFixed2 (x : number) : jsstring :=
  match x with
  | NaN | Inf _ => Number_toString x
  | Zero _ => str "0.00"
  | Fin neg ds n =>
      if (21 <? n)%Z then Number_toString x
      else
        let q := match round_decimal ds n with
                 | BFin m e =>
                     if (0 <=? e)%Z then (100 * m * 2 ^ e)%Z
                     else ((200 * m + 2 ^ (- e)) / (2 * 2 ^ (- e)))%Z
                 | _ => 0%Z
                 end in
        let qs := N_digits (Z.to_N q) in
        let qs := zeros (3 - length qs) ++ qs in
        let cut := (length qs - 2)%nat in
        sign_str neg ++ digits_str (firstn cut qs) ++ str "."
          ++ digits_str (skipn cut qs)
  end.

(** ** Property keys and ordinary objects *)

Inductive exn := SyntaxError | TypeError | RangeError.

(** The array index a property key writes, if it is one: the key is the
    canonical decimal string of an integer below [2^32 - 1]. *)
Definition array_index (k : jsstring) : option N :=
  let (ds, r) := span_digits k in
  match r with
  | [] =>
      let i := digits_value ds in
      if bool_decide (digits_str (N_digits i) = k) && (i <? 4294967295)%N
      then Some i else None
  | _ :: _ => None
  end.

(** [precedes k1 k2]: a property [k1] that exists stays before a property
    [k2] created after it.  OrdinaryOwnPropertyKeys lists the array indices
    in ascending order and then the other keys in order of creation. *)
Definition precedes (k1 k2 : jsstring) : bool :=
  match array_index k1, array_index k2 with
  | Some i, Some j => (i <? j)%N
  | Some _, None => true
  | None, Some _ => false
  | None, None => true
  end.

Section Properties.
Context {V : Type}.

(** The own properties of an ordinary object, kept in the order of
    OrdinaryOwnPropertyKeys. *)
Fixpoint obj_lookup (k : jsstring) (o : list (jsstring * V)) : option V :=
  match o with
  | [] => None
  | (k', v) :: r => if bool_decide (k' = k) then Some v else obj_lookup k r
  end.

Fixpoint obj_replace (k : jsstring) (v : V) (o : list (jsstring * V))
  : list (jsstring * V) :=
  match o with
  | [] => []
  | (k', v') :: r =>
      if bool_decide (k' = k) then (k', v) :: r
      else (k', v') :: obj_replace k v r
  end.

Fixpoint obj_insert (k : jsstring) (v : V) (o : list (jsstring * V))
  : list (jsstring * V) :=
  match o with
  | [] => [(k, v)]
  | (k', v') :: r =>
      if precedes k' k then (k', v') :: obj_insert k v r
      else (k, v) :: o
  end.

(** CreateDataProperty: the value of an existing own property is replaced
    where it is, a new property takes its place in the key order. *)
Definition obj_define (k : jsstring) (v : V) (o : list (jsstring * V))
  : list (jsstring * V) :=
  match obj_lookup k o with
  | Some _ => obj_replace k v o
  | None => obj_insert k v o
  end.
End Properties.

(** ** Values *)

(** The values [JSON.parse] returns.  In [VObj o] the list [o] holds the own
    properties in key order. *)
Inductive value :=
| VNull
| VBool (b : bool)
| VNum (x : number)
| VStr (s : jsstring)
| VArr (a : list value)
| VObj (o : list (jsstring * value)).

Definition index_keys (n : nat) : list jsstring :=
  List.map (fun i => digits_str (N_digits (N.of_nat i))) (seq 0 n).

(** [Object.keys(v)]: the own enumerable string keys; [null] has none to
    give and throws. *)
Definition Object_keys (v : value) : exn + list jsstring :=
  match v with
  | VNull => inl TypeError
  | VBool _ | VNum _ => inr []
  | VStr s => inr (index_keys (length s))
  | VArr a => inr (index_keys (length a))
  | VObj o => inr (List.map fst o)
  end.

(** [v[k]] for an own key [k] of [v]; [None] is [undefined]. *)
Definition get_own (v : value) (k : jsstring) : option value :=
  match v with
  | VObj o => obj_lookup k o
  | VArr a => i ← array_index k; a !! N.to_nat i
  | VStr s => i ← array_index k; c ← s !! N.to_nat i; Some (VStr [c])
  | _ => None
  end.

(** [v.toFixed(2)] for [v] the result of a property read: only a number
    has the method. *)
Definition call_toFixed2 (v : option value) : exn + jsstring :=
  match v with
  | Some (VNum x) => inr (toFixed2 x)
  | _ => inl TypeError
  end.

(** The length a number sets an array to, when it is a valid array length:
    an integer from 0 to [2^32 - 1]. *)
Definition array_length_of (x : number) : option nat :=
  match x with
  | Zero _ => Some 0%nat
  | Fin false ds n =>
      let k := Z.of_nat (length ds) in
      if ((k <=? n) && (n <=? 10))%Z then
        let m := (Z.of_N (digits_value ds) * 10 ^ (n - k))%Z in
        if (m <=? 4294967295)%Z then Some (Z.to_nat m) else None
      else None
  | _ => None
  end.

(** [a[k] = x] on an array, as far as [JSON.stringify] can tell afterwards.
    A write past the end leaves holes, which are serialised as [null] and
    are written [VNull] here; a key that is neither an index nor [length]
    makes a property that is not serialised. *)
Definition array_assign (a : list value) (k : jsstring) (x : number)
  : exn + list value :=
  match array_index k with
  | Some i =>
      let i := N.to_nat i in
      if (i <? length a)%nat then inr (<[i := VNum x]> a)
      else inr (a ++ repeat VNull (i - length a) ++ [VNum x])
  | None =>
      if bool_decide (k = str "length") then
        match array_length_of x with
        | Some n => inr (take n a ++ repeat VNull (n - length a))
        | None => inl RangeError
        end
      else inr a
  end.

(** [o[k] = x] on an ordinary object.  An own property is written or
    created, except for the key [__proto__] when the object has no own
    property of that name: the assignment then reaches the setter of
    [Object.prototype.__proto__], which ignores a number. *)
Definition obj_assign (o : list (jsstring * value)) (k : jsstring) (x : number)
  : list (jsstring * value) :=
  match obj_lookup k o with
  | None =>
      if bool_decide (k = str "__proto__") then o
      else obj_insert k (VNum x) o
  | Some _ => obj_replace k (VNum x) o
  end.

(** [data[k] = x] in non-strict code: [null] throws, an assignment to a
    property of a primitive is dropped. *)
Definition assign (data : value) (k : jsstring) (x : number) : exn + value :=
  match data with
  | VNull => inl TypeError
  | VBool _ | VNum _ | VStr _ => inr data
  | VArr a =>
      match array_assign a k x with
      | inr a' => inr (VArr a')
      | inl e => inl e
      end
  | VObj o => inr (VObj (obj_assign o k x))
  end.

(** ** JSON.stringify *)

Definition hex_char (n : N) : N :=
  if (n <? 10)%N then (48 + n)%N else (87 + n)%N.

Definition hex_val (c : N) : option N :=
  if is_digit c then Some (c - 48)%N
  else if ((97 <=? c) && (c <=? 102))%N then Some (c - 87)%N
  else if ((65 <=? c) && (c <=? 70))%N then Some (c - 55)%N
  else None.

Definition ch_quote : N := 34%N.
Definition ch_backslash : N := 92%N.

Definition unicode_escape (c : N) : jsstring :=
  [ch_backslash; chr "u"; hex_char ((c / 4096) mod 16); hex_char ((c / 256) mod 16);
   hex_char ((c / 16) mod 16); hex_char (c mod 16)]%N.

Definition is_high_surrogate (c : N) : bool := ((55296 <=? c) && (c <=? 56319))%N.
Definition is_low_surrogate (c : N) : bool := ((56320 <=? c) && (c <=? 57343))%N.

(** QuoteJSONString on one code unit that is not half of a surrogate pair. *)
Definition quote_unit (c : N) : jsstring :=
  if (c =? 8)%N then [ch_backslash; chr "b"]
  else if (c =? 9)%N then [ch_backslash; chr "t"]
  else if (c =? 10)%N then [ch_backslash; chr "n"]
  else if (c =? 12)%N then [ch_backslash; chr "f"]
  else if (c =? 13)%N then [ch_backslash; chr "r"]
  else if (c =? ch_quote)%N then [ch_backslash; ch_quote]
  else if (c =? ch_backslash)%N then [ch_backslash; ch_backslash]
  else if (c <? 32)%N || is_high_surrogate c || is_low_surrogate c
       then unicode_escape c
  else [c].

Fixpoint quote_body (s : jsstring) : jsstring :=
  match s with
  | [] => []
  | c :: r =>
      match r with
      | c2 :: r2 =>
          if is_high_surrogate c && is_low_surrogate c2
          then c :: c2 :: quote_body r2
          else quote_unit c ++ quote_body r
      | [] => quote_unit c
      end
  end.

Definition quote (s : jsstring) : jsstring :=
  ch_quote :: quote_body s ++ [ch_quote].

Fixpoint join_comma (parts : list jsstring) : jsstring :=
  match parts with
  | [] => []
  | [p] => p
  | p :: rest => p ++ chr "," :: join_comma rest
  end.

(** [JSON.stringify(v)] without indentation.  A number that is not finite
    is written [null]. *)
Fixpoint JSON_stringify (v : value) : jsstring :=
  match v with
  | VNull => str "null"
  | VBool true => str "true"
  | VBool false => str "false"
  | VNum x => if isFinite x then Number_toString x else str "null"
  | VStr s => quote s
  | VArr a => chr "[" :: join_comma (List.map JSON_stringify a) ++ [chr "]"]
  | VObj o =>
      chr "{" :: join_comma
        (List.map (fun kv => quote (fst kv) ++ chr ":" :: JSON_stringify (snd kv)) o)
        ++ [chr "}"]
  end.

(** ** JSON.parse *)

Definition is_json_whitespace (c : N) : bool :=
  ((c =? 32) || (c =? 9) || (c =? 10) || (c =? 13))%N.

Fixpoint skip_ws (s : jsstring) : jsstring :=
  match s with
  | c :: r => if is_json_whitespace c then skip_ws r else s
  | [] => []
  end.

Definition simple_escape (e : N) : option N :=
  if (e =? ch_quote)%N then Some ch_quote
  else if (e =? ch_backslash)%N then Some ch_backslash
  else if (e =? chr "/")%N then Some (chr "/")
  else if (e =? chr "b")%N then Some 8%N
  else if (e =? chr "f")%N then Some 12%N
  else if (e =? chr "n")%N then Some 10%N
  else if (e =? chr "r")%N then Some 13%N
  else if (e =? chr "t")%N then Some 9%N
  else None.

Definition hex4 (a b c d : N) : option N :=
  a ← hex_val a; b ← hex_val b; c ← hex_val c; d ← hex_val d;
  Some (a * 4096 + b * 256 + c * 16 + d)%N.

(** The characters of a JSON string after its opening quote, up to the
    closing quote, and what follows it. *)
Fixpoint parse_string_body (s : jsstring) : option (jsstring * jsstring) :=
  match s with
  | [] => None
  | c :: r =>
      if (c =? ch_quote)%N then Some ([], r)
      else if (c =? ch_backslash)%N then
        match r with
        | e :: r' =>
            if (e =? chr "u")%N then
              match r' with
              | h1 :: h2 :: h3 :: h4 :: r'' =>
                  match hex4 h1 h2 h3 h4 with
                  | Some u =>
                      match parse_string_body r'' with
                      | Some (t, rest) => Some (u :: t, rest)
                      | None => None
                      end
                  | None => None
                  end
              | _ => None
              end
            else
              match simple_escape e with
              | Some u =>
                  match parse_string_body r' with
                  | Some (t, rest) => Some (u :: t, rest)
                  | None => None
                  end
              | None => None
              end
        | [] => None
        end
      else if (c <? 32)%N then None
      else
        match parse_string_body r with
        | Some (t, rest) => Some (c :: t, rest)
        | None => None
        end
  end.

(** The fraction of a JSON number, if there is one: a point and at least
    one digit. *)
Definition parse_fraction (s : jsstring) : option (list N * jsstring) :=
  match s with
  | c :: r =>
      if (c =? chr ".")%N then
        let (fp, r2) := span_digits r in
        match fp with [] => None | _ => Some (fp, r2) end
      else Some ([], s)
  | [] => Some ([], s)
  end.

(** The exponent of a JSON number, if there is one; 0 otherwise. *)
Definition parse_json_exponent (s : jsstring) : option (Z * jsstring) :=
  match s with
  | c :: _ =>
      if ((c =? chr "e") || (c =? chr "E"))%N then parse_exponent s
      else Some (0%Z, s)
  | [] => Some (0%Z, s)
  end.

(** A JSON number after its sign: an integer part without a superfluous
    leading zero ([valid_int_part]), an optional fraction and an optional
    exponent, each with at least one digit. *)
Definition valid_int_part (ip : list N) : bool :=
  match ip with
  | [] => false
  | 0%N :: _ :: _ => false
  | _ => true
  end.

Definition parse_json_unsigned (neg : bool) (s : jsstring)
  : option (number * jsstring) :=
  let (ip, r1) := span_digits s in
  if valid_int_part ip then
    match parse_fraction r1 with
    | None => None
    | Some (fp, r2) =>
        match parse_json_exponent r2 with
        | Some (e, r3) => Some (make_number neg ip fp e, r3)
        | None => None
        end
    end
  else None.

(** A JSON number at the head of [s], with its optional minus. *)
Definition parse_json_number (s : jsstring) : option (number * jsstring) :=
  match s with
  | c :: r =>
      if (c =? chr "-")%N then parse_json_unsigned true r
      else parse_json_unsigned false s
  | [] => None
  end.

(** The parser proper.  [fuel] bounds the depth of the calls.  A call reads
    at least one character of what is left, or is followed at once by a
    call that does, so twice the length of the text is always enough
    ([parse_value_fuel]). *)
Fixpoint parse_value (fuel : nat) (s : jsstring) : option (value * jsstring) :=
  match fuel with
  | O => None
  | S fuel' =>
      match skip_ws s with
      | [] => None
      | c :: r =>
          if (c =? chr "{")%N then
            match skip_ws r with
            | c2 :: r2 =>
                if (c2 =? chr "}")%N then Some (VObj [], r2)
                else parse_members fuel' [] r
            | [] => None
            end
          else if (c =? chr "[")%N then
            match skip_ws r with
            | c2 :: r2 =>
                if (c2 =? chr "]")%N then Some (VArr [], r2)
                else parse_elements fuel' [] r
            | [] => None
            end
          else if (c =? ch_quote)%N then
            match parse_string_body r with
            | Some (t, rest) => Some (VStr t, rest)
            | None => None
            end
          else if (c =? chr "t")%N then
            match strip_prefix (str "rue") r with
            | Some rest => Some (VBool true, rest)
            | None => None
            end
          else if (c =? chr "f")%N then
            match strip_prefix (str "alse") r with
            | Some rest => Some (VBool false, rest)
            | None => None
            end
          else if (c =? chr "n")%N then
            match strip_prefix (str "ull") r with
            | Some rest => Some (VNull, rest)
            | None => None
            end
          else
            match parse_json_number (c :: r) with
            | Some (x, rest) => Some (VNum x, rest)
            | None => None
            end
      end
  end

(** The members of an object from the start of a member on; [acc] holds
    the properties defined so far.  A repeated key overwrites. *)
with parse_members (fuel : nat) (acc : list (jsstring * value)) (s : jsstring)
  : option (value * jsstring) :=
  match fuel with
  | O => None
  | S fuel' =>
      match skip_ws s with
      | c :: r =>
          if (c =? ch_quote)%N then
            match parse_string_body r with
            | Some (k, r1) =>
                match skip_ws r1 with
                | c1 :: r2 =>
                    if (c1 =? chr ":")%N then
                      match parse_value fuel' r2 with
                      | Some (v, r3) =>
                          match skip_ws r3 with
                          | c3 :: r4 =>
                              if (c3 =? chr ",")%N
                              then parse_members fuel' (obj_define k v acc) r4
                              else if (c3 =? chr "}")%N
                              then Some (VObj (obj_define k v acc), r4)
                              else None
                          | [] => None
                          end
                      | None => None
                      end
                    else None
                | [] => None
                end
            | None => None
            end
          else None
      | [] => None
      end
  end

(** The elements of an array from the start of an element on; [acc] holds
    the elements read so far, last first. *)
with parse_elements (fuel : nat) (acc : list value) (s : jsstring)
  : option (value * jsstring) :=
  match fuel with
  | O => None
  | S fuel' =>
      match parse_value fuel' s with
      | Some (v, r1) =>
          match skip_ws r1 with
          | c :: r2 =>
              if (c =? chr ",")%N then parse_elements fuel' (v :: acc) r2
              else if (c =? chr "]")%N then Some (VArr (rev (v :: acc)), r2)
              else None
          | [] => None
          end
      | None => None
      end
  end.

(** [JSON.parse(s)]; [None] is the SyntaxError it throws. *)
Definition JSON_parse (s : jsstring) : option value :=
  match parse_value (2 + 2 * length s) s with
  | Some (v, rest) =>
      match skip_ws rest with
      | [] => Some v
      | _ :: _ => None
      end
  | None => None
  end.

End JS.

(** * app.js *)

Module App.
Import JS.

(** ** The page *)

(** One [<li>] of the price list: the text of its two [<span>]s. *)
Record li := { codeSpan : jsstring; priceSpan : jsstring }.

(** What the script reads and writes: the origin's [localStorage], the
    variable [currentCode], the elements it looks up when the document is
    loaded, the Quagga scanner, and the notices shown to the user. *)
Record state := {
  localStorage : gmap jsstring jsstring;
  currentCode : option jsstring;          (* [null] or the scanned code *)
  pricesList : list li;                    (* children of [#prices] *)
  priceEntry_hidden : bool;                (* [hidden] in [#price-entry]'s classList *)
  scannedCodeSpan : jsstring;              (* textContent of [#scanned-code] *)
  priceInput : jsstring;                   (* value of [#price-input] *)
  scannerContainer : jsstring;             (* innerHTML of [#scanner-container] *)
  quagga_running : bool;
  quagga_subscribers : nat;                (* subscriptions of [onDetected] *)
  alerts : list jsstring;
  console_errors : list jsstring
}.

Definition set_localStorage (v : gmap jsstring jsstring) (s : state) : state :=
  {| localStorage := v; currentCode := currentCode s; pricesList := pricesList s;
     priceEntry_hidden := priceEntry_hidden s; scannedCodeSpan := scannedCodeSpan s;
     priceInput := priceInput s; scannerContainer := scannerContainer s;
     quagga_running := quagga_running s; quagga_subscribers := quagga_subscribers s;
     alerts := alerts s; console_errors := console_errors s |}.

Definition set_currentCode (v : option jsstring) (s : state) : state :=
  {| localStorage := localStorage s; currentCode := v; pricesList := pricesList s;
     priceEntry_hidden := priceEntry_hidden s; scannedCodeSpan := scannedCodeSpan s;
     priceInput := priceInput s; scannerContainer := scannerContainer s;
     quagga_running := quagga_running s; quagga_subscribers := quagga_subscribers s;
     alerts := alerts s; console_errors := console_errors s |}.

Definition set_pricesList (v : list li) (s : state) : state :=
  {| localStorage := localStorage s; currentCode := currentCode s; pricesList := v;
     priceEntry_hidden := priceEntry_hidden s; scannedCodeSpan := scannedCodeSpan s;
     priceInput := priceInput s; scannerContainer := scannerContainer s;
     quagga_running := quagga_running s; quagga_subscribers := quagga_subscribers s;
     alerts := alerts s; console_errors := console_errors s |}.

Definition set_priceEntry_hidden (v : bool) (s : state) : state :=
  {| localStorage := localStorage s; currentCode := currentCode s; pricesList := pricesList s;
     priceEntry_hidden := v; scannedCodeSpan := scannedCodeSpan s;
     priceInput := priceInput s; scannerContainer := scannerContainer s;
     quagga_running := quagga_running s; quagga_subscribers := quagga_subscribers s;
     alerts := alerts s; console_errors := console_errors s |}.

Definition set_scannedCodeSpan (v : jsstring) (s : state) : state :=
  {| localStorage := localStorage s; currentCode := currentCode s; pricesList := pricesList s;
     priceEntry_hidden := priceEntry_hidden s; scannedCodeSpan := v;
     priceInput := priceInput s; scannerContainer := scannerContainer s;
     quagga_running := quagga_running s; quagga_subscribers := quagga_subscribers s;
     alerts := alerts s; console_errors := console_errors s |}.

Definition set_priceInput (v : jsstring) (s : state) : state :=
  {| localStorage := localStorage s; currentCode := currentCode s; pricesList := pricesList s;
     priceEntry_hidden := priceEntry_hidden s; scannedCodeSpan := scannedCodeSpan s;
     priceInput := v; scannerContainer := scannerContainer s;
     quagga_running := quagga_running s; quagga_subscribers := quagga_subscribers s;
     alerts := alerts s; console_errors := console_errors s |}.

Definition set_scannerContainer (v : jsstring) (s : state) : state :=
  {| localStorage := localStorage s; currentCode := currentCode s; pricesList := pricesList s;
     priceEntry_hidden := priceEntry_hidden s; scannedCodeSpan := scannedCodeSpan s;
     priceInput := priceInput s; scannerContainer := v;
     quagga_running := quagga_running s; quagga_subscribers := quagga_subscribers s;
     alerts := alerts s; console_errors := console_errors s |}.

Definition set_quagga_running (v : bool) (s : state) : state :=
  {| localStorage := localStorage s; currentCode := currentCode s; pricesList := pricesList s;
     priceEntry_hidden := priceEntry_hidden s; scannedCodeSpan := scannedCodeSpan s;
     priceInput := priceInput s; scannerContainer := scannerContainer s;
     quagga_running := v; quagga_subscribers := quagga_subscribers s;
     alerts := alerts s; console_errors := console_errors s |}.

Definition set_quagga_subscribers (v : nat) (s : state) : state :=
  {| localStorage := localStorage s; currentCode := currentCode s; pricesList := pricesList s;
     priceEntry_hidden := priceEntry_hidden s; scannedCodeSpan := scannedCodeSpan s;
     priceInput := priceInput s; scannerContainer := scannerContainer s;
     quagga_running := quagga_running s; quagga_subscribers := v;
     alerts := alerts s; console_errors := console_errors s |}.

Definition set_alerts (v : list jsstring) (s : state) : state :=
  {| localStorage := localStorage s; currentCode := currentCode s; pricesList := pricesList s;
     priceEntry_hidden := priceEntry_hidden s; scannedCodeSpan := scannedCodeSpan s;
     priceInput := priceInput s; scannerContainer := scannerContainer s;
     quagga_running := quagga_running s; quagga_subscribers := quagga_subscribers s;
     alerts := v; console_errors := console_errors s |}.

Definition set_console_errors (v : list jsstring) (s : state) : state :=
  {| localStorage := localStorage s; currentCode := currentCode s; pricesList := pricesList s;
     priceEntry_hidden := priceEntry_hidden s; scannedCodeSpan := scannedCodeSpan s;
     priceInput := priceInput s; scannerContainer := scannerContainer s;
     quagga_running := quagga_running s; quagga_subscribers := quagga_subscribers s;
     alerts := alerts s; console_errors := v |}.

(** ** Statements: state and exceptions *)

(** A statement either completes with a value or throws; either way it
    leaves a state behind, for what it wrote before it threw stays. *)
Inductive outcome (A : Type) : Type :=
| Return (a : A) (s : state)
| Throw (e : exn) (s : state).
Arguments Return {A} a s.
Arguments Throw {A} e s.

Definition M (A : Type) : Type := state -> outcome A.

Definition ret {A} (a : A) : M A := fun s => Return a s.

Definition bind {A B} (m : M A) (k : A -> M B) : M B :=
  fun s =>
    match m s with
    | Return a s' => k a s'
    | Throw e s' => Throw e s'
    end.

Definition throw {A} (e : exn) : M A := fun s => Throw e s.

Definition lift {A} (r : exn + A) : M A :=
  match r with
  | inr a => ret a
  | inl e => throw e
  end.

Definition gets {A} (f : state -> A) : M A := fun s => Return (f s) s.
Definition modify (f : state -> state) : M unit := fun s => Return tt (f s).

Declare Scope js_scope.
Delimit Scope js_scope with js.
Notation "'let*' x := m 'in' k" := (bind m (fun x => k))
  (at level 10, x name, m at level 100, k at level 200) : js_scope.
Notation "m ;;; k" := (bind m (fun _ => k))
  (at level 100, k at level 200, right associativity) : js_scope.
Local Open Scope js_scope.

(** [l.forEach(f)] *)
Fixpoint forEach {A} (l : list A) (f : A -> M unit) : M unit :=
  match l with
  | [] => ret tt
  | x :: r => f x ;;; forEach r f
  end.

(** ** localStorage and JSON *)

Definition prices_key : jsstring := str "prices".

(** [localStorage.getItem(k)]; [None] is [null]. *)
Definition getItem (k : jsstring) : M (option jsstring) :=
  gets (fun s => localStorage s !! k).

(** [localStorage.setItem(k, v)] *)
Definition setItem (k v : jsstring) : M unit :=
  modify (fun s => set_localStorage (<[k := v]> (localStorage s)) s).

(** [item || fallback]: [null] and the empty string are falsy. *)
Definition or_else (item : option jsstring) (fallback : jsstring) : jsstring :=
  match item with
  | Some (c :: r) => c :: r
  | _ => fallback
  end.

Definition JSON_parse_or_throw (s : jsstring) : M value :=
  match JSON_parse s with
  | Some v => ret v
  | None => throw SyntaxError
  end.

(** ** loadPrices (app.js, lines 25-39) *)

(** The [<li>] made for [code]: its text, and [$] and the formatted price. *)
Definition row (code text : jsstring) : li :=
  {| codeSpan := code; priceSpan := chr "$" :: text |}.

Definition appendChild (item : li) : M unit :=
  modify (fun s => set_pricesList (pricesList s ++ [item]) s).

(** The stored text is parsed first; the list is emptied next; then one
    row is appended for each key, in the order of [Object.keys]. *)
Definition loadPrices : M unit :=
  let* item := getItem prices_key in
  let* data := JSON_parse_or_throw (or_else item (str "{}")) in
  modify (set_pricesList []) ;;;
  let* keys := lift (Object_keys data) in
  forEach keys (fun code =>
    let* text := lift (call_toFixed2 (get_own data code)) in
    appendChild (row code text)).

(** ** The scanner (app.js, lines 46-111) *)

(** How [Quagga.init] calls back: with an error, or without one, the
    camera stream then being rendered into the target. *)
Inductive init_outcome :=
| InitError (err : jsstring)
| InitReady (stream : jsstring).

Definition alert_text : jsstring :=
  str "Unable to start barcode scanner. Please check camera permissions.".

(** [startScanner]: the form is hidden and the target emptied, [Quagga.init]
    is called and [onDetected] subscribed; the callback of [init] runs
    after that. *)
Definition startScanner (init : init_outcome) : M unit :=
  modify (set_priceEntry_hidden true) ;;;
  modify (set_scannerContainer []) ;;;
  modify (fun s => set_quagga_subscribers (S (quagga_subscribers s)) s) ;;;
  match init with
  | InitError err =>
      modify (fun s => set_console_errors (console_errors s ++ [err]) s) ;;;
      modify (fun s => set_alerts (alerts s ++ [alert_text]) s)
  | InitReady stream =>
      modify (set_scannerContainer stream) ;;;
      modify (set_quagga_running true)
  end.

(** A detection result of Quagga: [result], [result.codeResult] and
    [result.codeResult.code] may each be missing. *)
Record codeResult_t := { code : option jsstring }.
Record detection := { codeResult : option codeResult_t }.

(** [result && result.codeResult && result.codeResult.code], up to which
    falsy value it is. *)
Definition decoded_code (result : option detection) : option jsstring :=
  match result with
  | Some r =>
      match codeResult r with
      | Some cr => code cr
      | None => None
      end
  | None => None
  end.

(** A string is truthy when it is not empty; [null] and [undefined] are
    falsy. *)
Definition truthy (c : option jsstring) : bool :=
  match c with
  | Some (_ :: _) => true
  | _ => false
  end.

(** [onDetected]: without a code, return; otherwise unsubscribe, stop the
    scanner, keep the code and show the entry form for it. *)
Definition onDetected (result : option detection) : M unit :=
  let code := decoded_code result in
  if negb (truthy code) then ret tt
  else
    modify (set_quagga_subscribers 0) ;;;
    modify (set_quagga_running false) ;;;
    modify (set_currentCode code) ;;;
    modify (set_scannerContainer []) ;;;
    modify (set_scannedCodeSpan (default [] code)) ;;;
    modify (set_priceInput []) ;;;
    modify (set_priceEntry_hidden false).

(** ** The click handler of the save button (app.js, lines 115-128) *)

(** The price is parsed and tested together with the scanned code; then the
    whole mapping is read, [data[currentCode] = price] is done, the mapping
    is written back, the list is reloaded, and only then the form is hidden
    and the code forgotten. *)
Definition savePrice_click : M unit :=
  let* input := gets priceInput in
  let price := parseFloat input in
  let* code := gets currentCode in
  if negb (truthy code) || isNaN price then ret tt
  else
    let* item := getItem prices_key in
    let* data := JSON_parse_or_throw (or_else item (str "{}")) in
    let* data' := lift (assign data (default [] code) price) in
    setItem prices_key (JSON_stringify data') ;;;
    loadPrices ;;;
    modify (set_priceEntry_hidden true) ;;;
    modify (set_currentCode None).

End App.

(** * The service worker *)

Module ServiceWorker.

Definition CACHE_NAME : string := "price-scanner-cache-v1".

Definition URLS_TO_CACHE : list string :=
  ["/"; "/index.html"; "/styles.css"; "/app.js"; "/manifest.json";
   "/logo-192.png"; "/logo-512.png"]%string.

(** ** The platform: requests, responses, caches, the network *)

Record request := { method : string; url : string }.
Record response := { status : N; body : string }.

Definition GET (u : string) : request := {| method := "GET"; url := u |}.

Definition response_ok (r : response) : bool :=
  ((200 <=? status r) && (status r <=? 299))%N.

(** [fetch]: a response, or [None] when the promise is rejected. *)
Definition network := request -> option response.

(** A cache holds the response stored for each URL requested with GET; the
    cache storage lists the named caches in order of creation. *)
Abbreviation cache := (gmap string response) (only parsing).
Abbreviation cache_storage := (list (string * gmap string response)) (only parsing).

Definition cache_match (req : request) (c : cache) : option response :=
  if bool_decide (method req = "GET"%string) then c !! url req else None.

Fixpoint caches_lookup (name : string) (cs : cache_storage) : option cache :=
  match cs with
  | [] => None
  | (n, c) :: r => if bool_decide (n = name) then Some c else caches_lookup name r
  end.

(** [caches.open(name)]: the storage with the cache made if it was absent. *)
Definition caches_open (name : string) (cs : cache_storage) : cache_storage :=
  match caches_lookup name cs with
  | Some _ => cs
  | None => cs ++ [(name, ∅)]
  end.

Fixpoint caches_update (name : string) (c : cache) (cs : cache_storage)
  : cache_storage :=
  match cs with
  | [] => []
  | (n, c') :: r =>
      if bool_decide (n = name) then (n, c) :: r
      else (n, c') :: caches_update name c r
  end.

Definition caches_keys (cs : cache_storage) : list string := List.map fst cs.

Fixpoint caches_delete (name : string) (cs : cache_storage) : cache_storage :=
  match cs with
  | [] => []
  | (n, c) :: r =>
      if bool_decide (n = name) then r else (n, c) :: caches_delete name r
  end.

(** [caches.match(request)]: the first match, going through the caches in
    order of creation. *)
Fixpoint caches_match (req : request) (cs : cache_storage) : option response :=
  match cs with
  | [] => None
  | (_, c) :: r =>
      match cache_match req c with
      | Some resp => Some resp
      | None => caches_match req r
      end
  end.

(** The responses [cache.addAll] needs: every URL fetched, every response
    ok; [None] as soon as one fetch is rejected or one response is not ok. *)
Fixpoint fetch_all (net : network) (urls : list string)
  : option (list (string * response)) :=
  match urls with
  | [] => Some []
  | u :: r =>
      match net (GET u) with
      | Some resp =>
          if response_ok resp then
            match fetch_all net r with
            | Some rest => Some ((u, resp) :: rest)
            | None => None
            end
          else None
      | None => None
      end
  end.

Definition cache_put_all (entries : list (string * response)) (c : cache) : cache :=
  fold_left (fun acc e => <[fst e := snd e]> acc) entries c.

(** [cache.addAll(urls)]: the cache with all the responses stored, or
    [None] when the promise is rejected, nothing being stored then. *)
Definition cache_addAll (net : network) (urls : list string) (c : cache)
  : option cache :=
  match fetch_all net urls with
  | Some entries => Some (cache_put_all entries c)
  | None => None
  end.

(** ** The three listeners (service worker, lines 22-51) *)

(** Whether the promise given to [event.waitUntil] or [event.respondWith]
    was fulfilled. *)
Inductive settled (A : Type) : Type :=
| Fulfilled (a : A)
| Rejected.
Arguments Fulfilled {A} a.
Arguments Rejected {A}.

(** The install listener (lines 22-28): the cache [CACHE_NAME] is opened and
    the whole list is added to it; the promise is that of [cache.addAll]. *)
Definition on_install (net : network) (cs : cache_storage)
  : settled unit * cache_storage :=
  let cs1 := caches_open CACHE_NAME cs in
  match caches_lookup CACHE_NAME cs1 with
  | Some c =>
      match cache_addAll net URLS_TO_CACHE c with
      | Some c' => (Fulfilled tt, caches_update CACHE_NAME c' cs1)
      | None => (Rejected, cs1)
      end
  | None => (Rejected, cs1)
  end.

(** The activate listener (lines 30-43): for each name of [caches.keys()]
    that is not [CACHE_NAME], [caches.delete]. *)
Definition on_activate (cs : cache_storage) : settled unit * cache_storage :=
  (Fulfilled tt,
   fold_left
     (fun acc cacheName =>
        if negb (bool_decide (cacheName = CACHE_NAME))
        then caches_delete cacheName acc else acc)
     (caches_keys cs) cs).

(** The fetch listener (lines 45-51): [caches.match(request)], and
    [fetch(request)] when there is no match. *)
Definition on_fetch (net : network) (req : request) (cs : cache_storage)
  : settled response * cache_storage :=
  match caches_match req cs with
  | Some resp => (Fulfilled resp, cs)
  | None =>
      match net req with
      | Some resp => (Fulfilled resp, cs)
      | None => (Rejected, cs)
      end
  end.

End ServiceWorker.

(** * Vocabulary of the statements *)

Import JS App ServiceWorker.
Local Open Scope js_scope.

(** ** Numbers and JSON texts *)

(** A finite number is well formed when its digits are decimal digits, the
    first and the last are not 0, and they are the shortest decimal of the
    binary64 value they round to.  [parseFloat] and [JSON.parse] return
    well-formed numbers. *)
Definition wf_number (x : number) : Prop :=
  match x with
  | Fin _ ds n =>
      Forall (fun d => (d < 10)%N) ds /\ hd 0%N ds <> 0%N /\ List.last ds 0%N <> 0%N
      /\ exists m e, round_decimal ds n = BFin m e /\ shortest_decimal m e = Some (ds, n)
  | _ => True
  end.

(** The value that a sequence of digits writes, most significant first. *)
Definition positional (ds : list N) : N :=
  fold_left (fun a d => (10 * a + d)%N) ds 0%N.

(** A binary64 value in normal or subnormal form. *)
Definition canonical_binary64 (m e : Z) : Prop :=
  (0 < m < 2 ^ 53 /\ -1074 <= e <= 971 /\ (e = -1074 \/ 2 ^ 52 <= m))%Z.

(** JSON does not keep the sign of a zero: [-0] is written [0]. *)
Definition positive_zero (x : number) : number :=
  match x with Zero _ => Zero false | _ => x end.

(** What [JSON.parse] gives back for a value that was written by
    [JSON.stringify]: a number that is not finite comes back as [null]. *)
Definition reload_value (v : value) : value :=
  match v with
  | VNum x => if isFinite x then VNum (positive_zero x) else VNull
  | _ => v
  end.

Definition reload_member (e : jsstring * value) : jsstring * value :=
  (fst e, reload_value (snd e)).

(** Two property reads that agree up to the sign of a zero. *)
Definition same_price (a b : option value) : Prop :=
  reload_value <$> a = reload_value <$> b.

(** What may follow a run of digits, and what may follow a JSON number. *)
Definition non_digit_head (rest : jsstring) : Prop :=
  match rest with [] => True | c :: _ => is_digit c = false end.

Definition ends_number (rest : jsstring) : Prop :=
  match rest with
  | [] => True
  | c :: _ => is_digit c = false /\ c <> chr "." /\ c <> chr "e" /\ c <> chr "E"
  end.

Definition exponent_str (e : Z) : jsstring :=
  (if (e <? 0)%Z then str "-" else str "+") ++ digits_str (N_digits (Z.abs_N e)).




(** ** Objects *)

(** The order of OrdinaryOwnPropertyKeys on a list of distinct keys. *)
Fixpoint keys_ordered (ks : list jsstring) : Prop :=
  match ks with
  | [] => True
  | k :: r => Forall (fun k' => precedes k k' = true /\ k' <> k) r /\ keys_ordered r
  end.

Definition own_key_order {V} (o : list (jsstring * V)) : Prop :=
  keys_ordered (List.map fst o).

Definition value_wf (v : value) : Prop :=
  match v with
  | VNum x => wf_number x
  | _ => True
  end.

Definition object_wf (o : list (jsstring * value)) : Prop :=
  own_key_order o /\ Forall (fun e => value_wf (snd e)) o.

Definition number_valued (e : jsstring * value) : Prop :=
  exists x, snd e = VNum x /\ wf_number x.

(** One member of an object as [JSON.stringify] writes it. *)
Definition member (kv : jsstring * value) : jsstring :=
  quote (fst kv) ++ chr ":" :: JSON_stringify (snd kv).

(** ** The ledger *)

(** The persisted mapping as the script reads it:
    [JSON.parse(localStorage.getItem('prices') || '{}')]. *)
Definition persisted (st : state) : option value :=
  JSON_parse (or_else (localStorage st !! prices_key) (str "{}")).

(** The state a statement leaves, whether it completed or threw. *)
Definition final {A} (r : outcome A) : state :=
  match r with Return _ s | Throw _ s => s end.

(** A mapping from codes to finite numbers. *)
Definition is_price (v : value) : bool :=
  match v with VNum x => isFinite x | _ => false end.

Definition prices_only (o : list (jsstring * value)) : bool :=
  forallb (fun e => is_price (snd e)) o.

(** The rows [loadPrices] renders for a mapping. *)
Definition price_text (v : option value) : jsstring :=
  match v with Some (VNum x) => toFixed2 x | _ => [] end.

Definition price_rows (o : list (jsstring * value)) : list li :=
  List.map (fun e => row (fst e) (price_text (Some (snd e)))) o.

(** The rows [loadPrices] appends for the keys of [data], and the exception
    that stops it, if one does. *)
Fixpoint render_rows (data : value) (keys : list jsstring) : list li * option exn :=
  match keys with
  | [] => ([], None)
  | k :: r =>
      match call_toFixed2 (get_own data k) with
      | inl e => ([], Some e)
      | inr text => let (rows, e) := render_rows data r in (row k text :: rows, e)
      end
  end.

Definition rendered (data : value) : list li * option exn :=
  match Object_keys data with
  | inl e => ([], Some e)
  | inr keys => render_rows data keys
  end.

Definition finish (r : list li * option exn) (st : state) : outcome unit :=
  match snd r with
  | None => Return tt (set_pricesList (fst r) st)
  | Some e => Throw e (set_pricesList (fst r) st)
  end.

(** ** A save as the user performs it *)

(** The scanner reports the code [c]; the user types [input] into the
    price field and presses the save button. *)
Definition scan (c : jsstring) : option detection :=
  Some {| codeResult := Some {| code := Some c |} |}.

Definition type_price (input : jsstring) : M unit := modify (set_priceInput input).

Definition save (c input : jsstring) : M unit :=
  onDetected (scan c) ;;; type_price input ;;; savePrice_click.

Definition save_all (ops : list (jsstring * jsstring)) : M unit :=
  forEach ops (fun op => save (fst op) (snd op)).

(** The price of the last save of [c] in [ops], if there is one. *)
Definition last_write (ops : list (jsstring * jsstring)) (c : jsstring) : option number :=
  fold_left (fun acc op => if bool_decide (fst op = c) then Some (parseFloat (snd op)) else acc)
            ops None.

(** A save of a scanned code other than [__proto__] with a finite price. *)
Definition valid_save (op : jsstring * jsstring) : Prop :=
  fst op <> [] /\ fst op <> str "__proto__" /\ isFinite (parseFloat (snd op)) = true.

Definition ledger_after (ops : list (jsstring * jsstring)) (o : list (jsstring * value)) :=
  fold_left (fun o op => List.map reload_member (obj_assign o (fst op) (parseFloat (snd op))))
            ops o.

(** ** The caches *)

Definition is_current (e : string * gmap string response) : bool :=
  bool_decide (fst e = CACHE_NAME).

Definition activate_step (acc : list (string * gmap string response)) (cacheName : string) :=
  if negb (bool_decide (cacheName = CACHE_NAME)) then caches_delete cacheName acc else acc.

(** A manifest path whose fetch is rejected or answered with a status that
    is not ok. *)
Definition fetch_fails (net : network) (u : string) : bool :=
  match net (GET u) with
  | Some r => negb (response_ok r)
  | None => true
  end.

(** ** The handlers as events *)

(** What can happen to the page once it is loaded: a call of [loadPrices],
    a click on the scan button with the outcome of [Quagga.init], a call of
    [onDetected] by the scanner, an edit of the price field by the user, a
    click on the save button. *)
Inductive event :=
| EvLoad
| EvStartScan (init : init_outcome)
| EvDetected (result : option detection)
| EvType (input : jsstring)
| EvClickSave.

Definition handle (ev : event) : M unit :=
  match ev with
  | EvLoad => loadPrices
  | EvStartScan init => startScanner init
  | EvDetected result => onDetected result
  | EvType input => type_price input
  | EvClickSave => savePrice_click
  end.

(** The state after the events [evs], in order; a handler that throws ends
    there and leaves what it had written. *)
Fixpoint run (evs : list event) (st : state) : state :=
  match evs with
  | [] => st
  | ev :: rest => run rest (final (handle ev st))
  end.

Definition is_click (ev : event) : bool :=
  match ev with EvClickSave => true | _ => false end.

(** Whenever the entry form is shown, the code it shows is the scanned
    code, and a scanned code is never the empty string. *)
Definition form_shows_code (st : state) : Prop :=
  (priceEntry_hidden st = false -> currentCode st = Some (scannedCodeSpan st))
  /\ currentCode st <> Some [].

Definition is_number (v : value) : bool :=
  match v with VNum _ => true | _ => false end.

Definition init_failed (init : init_outcome) : bool :=
  match init with InitError _ => true | InitReady _ => false end.

(** ** The page at DOMContentLoaded (app.js, lines 11-20 and 113-140) *)

(** The page around the state of the script: the click listeners bound to
    the two buttons, and the listeners of the window's [load] event that
    register the service worker. *)
Record page := {
  script : state;
  startBtn_click : nat;
  savePriceBtn_click : nat;
  window_load : nat
}.

(** The listener of [DOMContentLoaded]: [currentCode] starts as [null], the
    two click listeners are bound, [loadPrices] is called, and then, when
    the browser has service workers, the registration is put on the
    window's [load] event.  An exception of [loadPrices] ends the listener. *)
Definition on_DOMContentLoaded (serviceWorker_in_navigator : bool) (p : page)
  : option exn * page :=
  let st := set_currentCode None (script p) in
  match loadPrices st with
  | Throw e st' =>
      (Some e,
       {| script := st'; startBtn_click := S (startBtn_click p);
          savePriceBtn_click := S (savePriceBtn_click p);
          window_load := window_load p |})
  | Return _ st' =>
      (None,
       {| script := st'; startBtn_click := S (startBtn_click p);
          savePriceBtn_click := S (savePriceBtn_click p);
          window_load := if serviceWorker_in_navigator
                         then S (window_load p) else window_load p |})
  end.

(** A boolean or a finite number: a value that has no own keys and takes
    no property. *)
Definition is_plain_primitive (v : value) : bool :=
  match v with
  | VBool _ => true
  | VNum x => isFinite x
  | _ => false
  end.

(** ** States and texts used as examples *)

(** The page as it is loaded, with nothing stored. *)
Definition blank : state :=
  {| localStorage := ∅; currentCode := None; pricesList := [];
     priceEntry_hidden := true; scannedCodeSpan := []; priceInput := [];
     scannerContainer := []; quagga_running := false; quagga_subscribers := 0;
     alerts := []; console_errors := [] |}.

(** [st] with [text] stored under the key [prices]. *)
Definition with_stored (text : jsstring) (st : state) : state :=
  set_localStorage (<[prices_key := text]> (localStorage st)) st.

(** [st] with the entry form open for the scanned code [c] and [input]
    typed into the price field. *)
Definition entering (c input : jsstring) (st : state) : state :=
  set_priceInput input (set_priceEntry_hidden false (set_currentCode (Some c) st)).

(** The text [{"012345678905":3.99}]. *)
Definition one_price_text : jsstring :=
  str "{" ++ quote (str "012345678905") ++ str ":3.99}".

Definition one_price : list (jsstring * value) :=
  [(str "012345678905", VNum (Fin false [3; 9; 9]%N 1))].

(** A cache storage with a cache of an earlier version and the current one. *)
Definition page_v0 : response := {| status := 200; body := "old" |}.
Definition page_v1 : response := {| status := 200; body := "new" |}.

Definition two_generations : list (string * gmap string response) :=
  [("price-scanner-cache-v0"%string, {[ "/"%string := page_v0 ]});
   (CACHE_NAME, {[ "/"%string := page_v1 ]})].

(** A network on which every request is answered, and one on which the
    stylesheet is missing. *)
Definition online : network := fun req => Some {| status := 200; body := url req |}.

Definition stylesheet_missing : network :=
  fun req =>
    if bool_decide (url req = "/styles.css"%string)
    then Some {| status := 404; body := "" |}
    else online req.



(** The text [{"a":1,"b":null,"c":2}]. *)
Definition null_price_text : jsstring :=
  str "{" ++ quote (str "a") ++ str ":1," ++ quote (str "b") ++ str ":null,"
    ++ quote (str "c") ++ str ":2}".

(** A visit of the page: a scan that fails, a scan that succeeds, a
    detection, a price typed and saved, and a reload of the list. *)
Definition a_visit : list event :=
  [EvStartScan (InitError (str "NotAllowedError")); EvStartScan (InitReady (str "video"));
   EvDetected (scan (str "4006381333931")); EvType (str "2.49"); EvClickSave; EvLoad].

Definition fresh_page (st : state) : page :=
  {| script := st; startBtn_click := 0; savePriceBtn_click := 0; window_load := 0 |}.


(** The text [{"b":null}], which the page itself stores when the price
    [1e999] is saved for the code [b]; the text [{"b":null,"a":2.5}]. *)
Definition null_entry_text : jsstring :=
  str "{" ++ quote (str "b") ++ str ":null}".

Definition null_entry_and_price_text : jsstring :=
  str "{" ++ quote (str "b") ++ str ":null," ++ quote (str "a") ++ str ":2.5}".

(** The code [b] is scanned and the price [1e999] saved for it. *)
Definition save_of_1e999 : list event :=
  [EvDetected (scan (str "b")); EvType (str "1e999"); EvClickSave].

(** After that, the scanner is started again, the code [a] is scanned and
    the price [2.50] typed. *)
Definition then_enter_a_price : list event :=
  [EvStartScan (InitReady (str "video")); EvDetected (scan (str "a")); EvType (str "2.50")].

(** ** Tactics *)

Ltac case_eqb :=
  match goal with
  | |- context [N.eqb ?a ?b] => destruct (N.eqb_spec a b)
  end.

Ltac break_match H :=
  match type of H with
  | context [match ?x with _ => _ end] => destruct x eqn:?
  end.

(** * Facts about the platform model *)

(** ** Digits *)

Lemma uint_digits_lt u : Forall (fun d => (d < 10)%N) (uint_digits u).
Proof. induction u; simpl; constructor; auto; lia. Qed.

Lemma digits_uint_digits u : digits_uint (uint_digits u) = u.
Proof. induction u; simpl; congruence. Qed.

Lemma digits_value_N_digits n : digits_value (N_digits n) = n.
Proof.
  unfold digits_value, N_digits. rewrite digits_uint_digits.
  apply DecimalN.Unsigned.of_to.
Qed.

Lemma N_digits_lt n : Forall (fun d => (d < 10)%N) (N_digits n).
Proof. apply uint_digits_lt. Qed.

Lemma N_digits_nonempty n : N_digits n <> [].
Proof.
  unfold N_digits. destruct n as [|p]; simpl; [discriminate|].
  intros H.
  assert (Hn : Pos.to_uint p = Decimal.Nil) by (destruct (Pos.to_uint p); simpl in H; congruence).
  pose proof (DecimalPos.Unsigned.to_uint_nonnil p). contradiction.
Qed.

Lemma ends_number_non_digit rest : ends_number rest -> non_digit_head rest.
Proof. destruct rest; simpl; tauto. Qed.

Lemma is_digit_digit_char d : (d < 10)%N -> is_digit (digit_char d) = true.
Proof. unfold is_digit, digit_char. intros. apply andb_true_intro; split; apply N.leb_le; lia. Qed.

Lemma digit_val_digit_char d : digit_val (digit_char d) = d.
Proof. unfold digit_val, digit_char. lia. Qed.

Lemma span_digits_app ds rest :
  Forall (fun d => (d < 10)%N) ds -> non_digit_head rest ->
  span_digits (digits_str ds ++ rest) = (ds, rest).
Proof.
  intros Hds Hrest. induction Hds as [|d ds Hd _ IH]; simpl.
  - destruct rest as [|c r]; simpl in *; [reflexivity|]. now rewrite Hrest.
  - rewrite is_digit_digit_char by assumption. fold (digits_str ds).
    rewrite IH, digit_val_digit_char. reflexivity.
Qed.

Lemma drop_zeros_head ds : hd 0%N ds <> 0%N -> drop_zeros ds = ds.
Proof. destruct ds as [|[|p] r]; simpl; intros; congruence. Qed.

Lemma drop_zeros_zeros k ds : drop_zeros (zeros k ++ ds) = drop_zeros ds.
Proof. induction k; simpl; auto. Qed.

Lemma rev_zeros k : rev (zeros k) = zeros k.
Proof.
  unfold zeros. induction k; simpl; auto. rewrite IHk.
  clear. induction k; simpl; congruence.
Qed.

Lemma hd_rev_last (ds : list N) : hd 0%N (rev ds) = List.last ds 0%N.
Proof.
  induction ds as [|d r IH] using rev_ind; simpl; auto.
  rewrite rev_app_distr. simpl. now rewrite List.last_last.
Qed.

Lemma strip_trailing_zeros_app ds k :
  List.last ds 0%N <> 0%N -> strip_trailing_zeros (ds ++ zeros k) = ds.
Proof.
  intros H. unfold strip_trailing_zeros.
  rewrite rev_app_distr, rev_zeros, drop_zeros_zeros.
  rewrite drop_zeros_head by now rewrite hd_rev_last.
  apply rev_involutive.
Qed.

(** [make_number] on digits that have no zero to strip but [k] at the end. *)
Lemma make_number_canonical neg ip fp e ds k n :
  drop_zeros (ip ++ fp) = ds ++ zeros k ->
  wf_number (Fin neg ds n) ->
  (Z.of_nat (length ip) - Z.of_nat (length (ip ++ fp) - length (ds ++ zeros k)) + e = n)%Z ->
  make_number neg ip fp e = Fin neg ds n.
Proof.
  intros Hd (Hlt & Hhd & Hlast & m & e' & Hr & Hs) Hn. unfold make_number, canonical_decimal.
  rewrite Hd, strip_trailing_zeros_app by assumption.
  rewrite Hn. destruct ds; [simpl in Hhd; congruence|]. now rewrite Hr, Hs.
Qed.

Lemma parse_fraction_none rest :
  ends_number rest -> parse_fraction rest = Some ([], rest).
Proof.
  destruct rest as [|c r]; simpl; [reflexivity|]. intros (_ & Hdot & _).
  case_eqb; [contradiction | reflexivity].
Qed.

Lemma parse_fraction_some fp rest :
  fp <> [] -> Forall (fun d => (d < 10)%N) fp -> non_digit_head rest ->
  parse_fraction (chr "." :: digits_str fp ++ rest) = Some (fp, rest).
Proof.
  intros Hne Hfp Hrest. unfold parse_fraction.
  rewrite N.eqb_refl, span_digits_app by assumption.
  destruct fp; congruence.
Qed.

Lemma parse_json_exponent_none rest :
  ends_number rest -> parse_json_exponent rest = Some (0%Z, rest).
Proof.
  destruct rest as [|c r]; simpl; [reflexivity|]. intros (_ & _ & He & HE).
  case_eqb; [contradiction|]. case_eqb; [contradiction | reflexivity].
Qed.

Lemma parse_json_exponent_some e rest :
  non_digit_head rest ->
  parse_json_exponent (chr "e" :: exponent_str e ++ rest) = Some (e, rest).
Proof.
  intros Hrest. unfold parse_json_exponent, parse_exponent, exponent_str.
  change ((chr "e" =? chr "e")%N || (chr "e" =? chr "E")%N) with true. cbv iota.
  assert (Hs : parse_sign ((if (e <? 0)%Z then str "-" else str "+")
                  ++ digits_str (N_digits (Z.abs_N e)) ++ rest)
               = ((e <? 0)%Z, digits_str (N_digits (Z.abs_N e)) ++ rest)).
  { destruct (e <? 0)%Z; reflexivity. }
  rewrite <- app_assoc, Hs.
  rewrite span_digits_app by (auto using N_digits_lt).
  pose proof (N_digits_nonempty (Z.abs_N e)) as Hne.
  destruct (N_digits (Z.abs_N e)) eqn:E; [congruence|]. rewrite <- E.
  rewrite digits_value_N_digits.
  destruct (Z.ltb_spec e 0); f_equal; f_equal; lia.
Qed.

Lemma valid_int_part_nonzero d l : d <> 0%N -> valid_int_part (d :: l) = true.
Proof. destruct d; [congruence|]. destruct l; reflexivity. Qed.

Lemma length_zeros k : length (zeros k) = k.
Proof. apply repeat_length. Qed.

Lemma Forall_zeros k : Forall (fun d => (d < 10)%N) (zeros k).
Proof. unfold zeros. induction k; simpl; constructor; auto; lia. Qed.

Lemma parse_json_unsigned_toString neg ds n rest :
  wf_number (Fin neg ds n) -> ends_number rest ->
  parse_json_unsigned neg (Number_toString (Fin false ds n) ++ rest)
  = Some (Fin neg ds n, rest).
Proof.
  intros Hwf Hrest. pose proof Hwf as (Hlt & Hhd & Hlast & Ho & Hu).
  destruct ds as [|d ds']; [simpl in Hhd; congruence|].
  simpl in Hhd. set (ds := d :: ds') in *.
  assert (Hk : Z.of_nat (length ds) = (1 + Z.of_nat (length ds'))%Z) by (subst ds; simpl; lia).
  unfold Number_toString. change (sign_str false ++ ?x) with x.
  cbv zeta.
  destruct ((Z.of_nat (length ds) <=? n)%Z && (n <=? 21)%Z) eqn:C1.
  { (* digits followed by zeros *)
    apply andb_prop in C1 as [C1a C1b]. apply Z.leb_le in C1a, C1b.
    unfold parse_json_unsigned.
    rewrite span_digits_app;
      [| apply Forall_app; split; [assumption | apply Forall_zeros]
       | now apply ends_number_non_digit].
    subst ds. simpl app at 1.
    rewrite valid_int_part_nonzero by assumption.
    rewrite parse_fraction_none, parse_json_exponent_none by assumption.
    f_equal. f_equal.
    apply make_number_canonical with (k := Z.to_nat (n - Z.of_nat (length (d :: ds')))).
    - rewrite app_nil_r. apply drop_zeros_head. simpl. assumption.
    - assumption.
    - rewrite app_nil_r. simpl length. rewrite !length_app, length_zeros. simpl length. lia. }
  destruct ((0 <? n)%Z && (n <=? 21)%Z) eqn:C2.
  { (* digits with a point inside *)
    apply andb_prop in C2 as [C2a C2b]. apply Z.ltb_lt in C2a. apply Z.leb_le in C2b.
    assert (Hn : (n < Z.of_nat (length ds))%Z).
    { apply andb_false_iff in C1 as [C1|C1]; apply Z.leb_gt in C1; lia. }
    unfold parse_json_unsigned.
    rewrite <- !app_assoc. change (str "." ++ ?x) with (chr "." :: x).
    pose proof (firstn_skipn (Z.to_nat n) ds) as Hsplit.
    assert (Hlt1 : Forall (fun d => (d < 10)%N) (firstn (Z.to_nat n) ds)).
    { rewrite <- Hsplit in Hlt. now apply Forall_app in Hlt. }
    assert (Hlt2 : Forall (fun d => (d < 10)%N) (skipn (Z.to_nat n) ds)).
    { rewrite <- Hsplit in Hlt. now apply Forall_app in Hlt. }
    rewrite span_digits_app; [| assumption | reflexivity].
    destruct (Z.to_nat n) as [|m] eqn:Em; [lia|].
    assert (Hf : firstn (S m) ds = d :: firstn m ds') by reflexivity.
    rewrite Hf.
    rewrite valid_int_part_nonzero by assumption.
    assert (Hne : skipn (S m) ds <> []).
    { intros E. apply (f_equal (@length N)) in E. rewrite length_skipn in E. simpl in E. lia. }
    rewrite parse_fraction_some by (auto using ends_number_non_digit).
    rewrite parse_json_exponent_none by assumption.
    f_equal. f_equal. rewrite <- Hf.
    apply make_number_canonical with (k := 0%nat).
    - rewrite Hsplit, app_nil_r. apply drop_zeros_head. assumption.
    - assumption.
    - rewrite Hsplit, app_nil_r, firstn_length_le by lia. lia. }
  destruct ((-6 <? n)%Z && (n <=? 0)%Z) eqn:C3.
  { (* a zero, a point, zeros and the digits *)
    apply andb_prop in C3 as [C3a C3b]. apply Z.ltb_lt in C3a. apply Z.leb_le in C3b.
    unfold parse_json_unsigned.
    rewrite <- app_assoc.
    change (str "0." ++ ?x) with (digits_str [0%N] ++ chr "." :: x).
    rewrite (span_digits_app [0%N]); [| repeat constructor; lia | reflexivity].
    change (valid_int_part [0%N]) with true. cbv iota.
    rewrite parse_fraction_some;
      [| destruct (zeros _); discriminate
       | apply Forall_app; split; [apply Forall_zeros | assumption]
       | now apply ends_number_non_digit ].
    rewrite parse_json_exponent_none by assumption.
    f_equal. f_equal.
    apply make_number_canonical with (k := 0%nat).
    - rewrite app_nil_r. simpl. rewrite drop_zeros_zeros. apply drop_zeros_head. assumption.
    - assumption.
    - rewrite app_nil_r. simpl length. rewrite length_app, length_zeros. lia. }
  (* exponential notation *)
  fold (exponent_str (n - 1)).
  unfold parse_json_unsigned. subst ds.
  destruct ds' as [|d2 ds''].
  - rewrite <- !app_assoc. change (str "e" ++ ?x) with (chr "e" :: x).
    rewrite (span_digits_app [d]); [| assumption | reflexivity].
    rewrite valid_int_part_nonzero by assumption.
    change (parse_fraction (chr "e" :: ?x)) with (Some (@nil N, chr "e" :: x)).
    cbv iota beta.
    rewrite parse_json_exponent_some by now apply ends_number_non_digit.
    f_equal. f_equal.
    apply make_number_canonical with (k := 0%nat).
    + simpl app. apply drop_zeros_head. assumption.
    + assumption.
    + simpl. lia.
  - rewrite <- !app_assoc. change (str "e" ++ ?x) with (chr "e" :: x).
    change (str "." ++ ?x) with (chr "." :: x).
    rewrite (span_digits_app [d]); [| inversion Hlt; repeat constructor; auto | reflexivity].
    rewrite valid_int_part_nonzero by assumption.
    rewrite parse_fraction_some;
      [| discriminate | now inversion Hlt | reflexivity].
    rewrite parse_json_exponent_some by now apply ends_number_non_digit.
    f_equal. f_equal.
    apply make_number_canonical with (k := 0%nat).
    + rewrite app_nil_r. apply (drop_zeros_head (d :: d2 :: ds'')). assumption.
    + assumption.
    + rewrite app_nil_r. simpl length. lia.
Qed.

Lemma parse_json_number_toString x rest :
  wf_number x -> isFinite x = true -> ends_number rest ->
  parse_json_number (Number_toString x ++ rest) = Some (positive_zero x, rest).
Proof.
  intros Hwf Hfin Hrest. destruct x as [| |neg|neg ds n]; try discriminate.
  - (* a zero is written 0 *)
    change (Number_toString (Zero neg) ++ rest) with (digits_str [0%N] ++ rest).
    unfold parse_json_number. simpl app.
    change ((digit_char 0 =? chr "-")%N) with false. cbv iota.
    unfold parse_json_unsigned.
    change (digit_char 0 :: rest) with (digits_str [0%N] ++ rest).
    rewrite span_digits_app;
      [| repeat constructor; lia | now apply ends_number_non_digit].
    change (valid_int_part [0%N]) with true. cbv iota.
    now rewrite parse_fraction_none, parse_json_exponent_none.
  - pose proof (parse_json_unsigned_toString neg ds n rest Hwf Hrest) as H.
    destruct Hwf as (Hlt & Hhd & _).
    change (Number_toString (Fin neg ds n))
      with (sign_str neg ++ Number_toString (Fin false ds n)).
    destruct neg.
    + exact H.
    + change (sign_str false ++ ?x) with x.
      unfold parse_json_number.
      destruct (Number_toString (Fin false ds n) ++ rest) as [|c r] eqn:E.
      * unfold parse_json_unsigned in H. simpl in H. discriminate.
      * case_eqb; [|exact H]. subst c.
        unfold parse_json_unsigned in H. simpl in H. discriminate.
Qed.

(** ** Strings *)

Lemma hex_val_hex_char n : (n < 16)%N -> hex_val (hex_char n) = Some n.
Proof.
  intros H.
  assert (Hc : In n (List.map N.of_nat (seq 0 16))).
  { apply in_map_iff. exists (N.to_nat n). split; [lia|]. apply in_seq. lia. }
  simpl in Hc. intuition (subst; reflexivity).
Qed.

Lemma hex4_unicode_escape c :
  (c < 65536)%N ->
  hex4 (hex_char ((c / 4096) mod 16)) (hex_char ((c / 256) mod 16))
       (hex_char ((c / 16) mod 16)) (hex_char (c mod 16)) = Some c.
Proof.
  intros H. unfold hex4.
  rewrite !hex_val_hex_char by (apply N.mod_lt; lia). simpl.
  f_equal.
  pose proof (N.div_mod c 16 ltac:(lia)).
  pose proof (N.div_mod (c / 16) 16 ltac:(lia)).
  pose proof (N.div_mod (c / 256) 16 ltac:(lia)).
  assert (c / 256 = c / 16 / 16)%N by (rewrite N.Div0.div_div; reflexivity).
  assert (c / 4096 = c / 256 / 16)%N by (rewrite N.Div0.div_div; reflexivity).
  assert (c / 4096 < 16)%N by (apply N.Div0.div_lt_upper_bound; lia).
  rewrite (N.mod_small (c / 4096) 16) by assumption.
  lia.
Qed.

(** One code unit, quoted and parsed back. *)
Lemma parse_string_body_unit c t s rest :
  parse_string_body t = Some (s, rest) ->
  parse_string_body (quote_unit c ++ t) = Some (c :: s, rest).
Proof.
  intros IH. unfold quote_unit.
  repeat (case_eqb; [subst c; simpl; rewrite IH; reflexivity|]).
  destruct ((c <? 32)%N || is_high_surrogate c || is_low_surrogate c) eqn:E.
  - assert (Hc : (c < 65536)%N).
    { unfold is_high_surrogate, is_low_surrogate in E.
      repeat (apply orb_prop in E as [E|E]).
      - apply N.ltb_lt in E. lia.
      - apply andb_prop in E as [_ E]. apply N.leb_le in E. lia.
      - apply andb_prop in E as [_ E]. apply N.leb_le in E. lia. }
    unfold unicode_escape, ch_backslash. simpl app.
    cbn [parse_string_body].
    change ((92 =? ch_quote)%N) with false. change ((92 =? ch_backslash)%N) with true.
    change ((chr "u" =? chr "u")%N) with true. cbv iota.
    rewrite hex4_unicode_escape by assumption. rewrite IH. reflexivity.
  - apply orb_false_elim in E as [E _]. apply orb_false_elim in E as [E _].
    simpl app. cbn [parse_string_body].
    destruct (N.eqb_spec c ch_quote); [contradiction|].
    destruct (N.eqb_spec c ch_backslash); [contradiction|].
    rewrite E, IH. reflexivity.
Qed.

Lemma parse_string_body_verbatim c t s rest :
  (55296 <= c)%N ->
  parse_string_body t = Some (s, rest) ->
  parse_string_body (c :: t) = Some (c :: s, rest).
Proof.
  intros Hc IH. cbn [parse_string_body].
  destruct (N.eqb_spec c ch_quote); [unfold ch_quote in *; lia|].
  destruct (N.eqb_spec c ch_backslash); [unfold ch_backslash in *; lia|].
  destruct (N.ltb_spec c 32); [lia|]. now rewrite IH.
Qed.

Lemma quote_body_pair c c2 r2 :
  quote_body (c :: c2 :: r2) =
  if is_high_surrogate c && is_low_surrogate c2
  then c :: c2 :: quote_body r2
  else quote_unit c ++ quote_body (c2 :: r2).
Proof. reflexivity. Qed.

Lemma parse_string_body_quote_body s rest :
  parse_string_body (quote_body s ++ ch_quote :: rest) = Some (s, rest).
Proof.
  remember (length s) as n eqn:Hn.
  revert s Hn. induction n as [n IH] using lt_wf_ind. intros s Hn.
  destruct s as [|c [|c2 r2]].
  - reflexivity.
  - simpl quote_body. apply parse_string_body_unit. reflexivity.
  - rewrite quote_body_pair.
    destruct (is_high_surrogate c && is_low_surrogate c2) eqn:E.
    + apply andb_prop in E as [E1 E2].
      unfold is_high_surrogate in E1. unfold is_low_surrogate in E2.
      apply andb_prop in E1 as [E1 _]. apply andb_prop in E2 as [E2 _].
      apply N.leb_le in E1, E2.
      simpl app.
      apply parse_string_body_verbatim; [lia|].
      apply parse_string_body_verbatim; [lia|].
      apply (IH (length r2)); [subst n; simpl; lia | reflexivity].
    + rewrite <- app_assoc. apply parse_string_body_unit.
      apply (IH (length (c2 :: r2))); [subst n; simpl; lia | reflexivity].
Qed.

(** ** Key order *)

Lemma array_index_Some k i : array_index k = Some i -> k = digits_str (N_digits i).
Proof.
  unfold array_index. destruct (span_digits k) as [ds r]. destruct r; [|discriminate].
  destruct (bool_decide _) eqn:E; simpl; [|discriminate].
  destruct (_ <? _)%N; [|discriminate]. intros [= <-].
  apply bool_decide_eq_true in E. congruence.
Qed.

Lemma array_index_inj k1 k2 i :
  array_index k1 = Some i -> array_index k2 = Some i -> k1 = k2.
Proof. intros H1%array_index_Some H2%array_index_Some. congruence. Qed.

Section Order.
Context {V : Type}.
Implicit Types o : list (jsstring * V).

Lemma obj_lookup_None k o :
  obj_lookup k o = None <-> ~ In k (List.map fst o).
Proof.
  induction o as [|[k' v'] r IH]; simpl; [tauto|].
  destruct (bool_decide_reflect (k' = k)); [|rewrite IH; tauto].
  split; [discriminate|]. intros H. exfalso. apply H. now left.
Qed.

Lemma map_fst_obj_replace k v o :
  List.map fst (obj_replace k v o) = List.map fst o.
Proof.
  induction o as [|[k' v'] r IH]; simpl; [reflexivity|].
  destruct (bool_decide (k' = k)); simpl; congruence.
Qed.

Lemma obj_insert_last k v o :
  Forall (fun k' => precedes k' k = true) (List.map fst o) ->
  obj_insert k v o = o ++ [(k, v)].
Proof.
  induction o as [|[k' v'] r IH]; simpl; [reflexivity|].
  intros H. inversion H as [|? ? Hk Hr]; subst. rewrite Hk, IH by assumption. reflexivity.
Qed.

Lemma keys_ordered_app_last ks k :
  keys_ordered (ks ++ [k]) ->
  Forall (fun k' => precedes k' k = true) ks /\ ~ In k ks /\ keys_ordered ks.
Proof.
  induction ks as [|k' r IH]; simpl; [intuition constructor|].
  intros [Hall Hr]. apply Forall_app in Hall as [Hall Hlast].
  inversion Hlast as [|? ? [Hp Hne] _]; subst.
  destruct (IH Hr) as (H1 & H2 & H3). repeat split; auto.
  - intros [E|E]; [congruence | contradiction].
Qed.

Lemma keys_ordered_app_l ks ks' : keys_ordered (ks ++ ks') -> keys_ordered ks.
Proof.
  induction ks as [|k r IH]; simpl; [tauto|].
  intros [Hall Hr]. apply Forall_app in Hall as [Hall _]. auto.
Qed.

Lemma obj_define_last k v o :
  own_key_order (o ++ [(k, v)]) -> obj_define k v o = o ++ [(k, v)].
Proof.
  unfold own_key_order. rewrite map_app. simpl. intros H.
  apply keys_ordered_app_last in H as (Hall & Hnin & _).
  unfold obj_define. apply obj_lookup_None in Hnin. rewrite Hnin.
  now apply obj_insert_last.
Qed.

Lemma define_all_ordered o acc :
  own_key_order (acc ++ o) ->
  fold_left (fun a e => obj_define (fst e) (snd e) a) o acc = acc ++ o.
Proof.
  revert acc. induction o as [|[k v] r IH]; intros acc H; simpl.
  - now rewrite app_nil_r.
  - change (acc ++ (k, v) :: r) with (acc ++ [(k, v)] ++ r) in *.
    rewrite app_assoc in *.
    rewrite obj_define_last.
    + now apply IH.
    + unfold own_key_order in *. rewrite map_app in H. now apply keys_ordered_app_l in H.
Qed.

(** Insertion keeps the order. *)
Lemma precedes_trans_insert k k0 k' :
  precedes k0 k = false -> k0 <> k -> precedes k0 k' = true -> k' <> k0 ->
  precedes k k' = true /\ k' <> k.
Proof.
  unfold precedes. intros H1 Hne H2 Hne'.
  destruct (array_index k0) as [i0|] eqn:E0, (array_index k) as [i|] eqn:E,
           (array_index k') as [i'|] eqn:E'; try discriminate; try (split; [reflexivity|congruence]).
  - apply N.ltb_ge in H1. apply N.ltb_lt in H2. split; [apply N.ltb_lt; lia|].
    intros ->. rewrite E in E'. injection E' as <-. lia.
Qed.

Lemma map_fst_obj_insert_ordered k v o :
  ~ In k (List.map fst o) -> own_key_order o -> own_key_order (obj_insert k v o).
Proof.
  unfold own_key_order.
  induction o as [|[k0 v0] r IH]; simpl; intros Hnin Hord.
  - split; [constructor | exact I].
  - destruct Hord as [Hall Hr].
    destruct (precedes k0 k) eqn:Hp; simpl.
    + split.
      * assert (Hs : forall l, Forall (fun k' => precedes k0 k' = true /\ k' <> k0) (List.map fst l) ->
                 Forall (fun k' => precedes k0 k' = true /\ k' <> k0) (List.map fst (obj_insert k v l))).
        { induction l as [|[k1 v1] l IHl]; simpl; intros Hl.
          - constructor; [|constructor]. split; [assumption | intros ->; apply Hnin; now left].
          - inversion Hl; subst. destruct (precedes k1 k); simpl.
            + constructor; auto.
            + constructor; [|constructor; auto].
              split; [assumption | intros ->; apply Hnin; now left]. }
        now apply Hs.
      * apply IH; [tauto | assumption].
    + split; [|split; assumption].
      constructor.
      * unfold precedes in *.
        destruct (array_index k0) as [i0|] eqn:E0, (array_index k) as [i|] eqn:E;
          try discriminate; try (split; [reflexivity | intros ->; apply Hnin; now left]).
        apply N.ltb_ge in Hp. split; [|intros ->; apply Hnin; now left].
        apply N.ltb_lt. assert (i <> i0); [|lia].
        intros ->. apply Hnin. left. eapply array_index_inj; eassumption.
      * eapply List.Forall_impl; [|exact Hall]. simpl. intros k' [H1 H2].
        apply (precedes_trans_insert k k0 k'); auto.
Qed.

Lemma obj_define_ordered k v o :
  own_key_order o -> own_key_order (obj_define k v o).
Proof.
  intros H. unfold obj_define. destruct (obj_lookup k o) eqn:E.
  - unfold own_key_order. now rewrite map_fst_obj_replace.
  - apply map_fst_obj_insert_ordered; [|assumption]. now apply obj_lookup_None.
Qed.

End Order.

(** ** A number as a JSON value *)

Lemma parse_json_number_head s x r :
  parse_json_number s = Some (x, r) ->
  exists c s', s = c :: s' /\ (c = chr "-" \/ is_digit c = true).
Proof.
  destruct s as [|c s']; [discriminate|]. intros H. exists c, s'. split; [reflexivity|].
  unfold parse_json_number in H. revert H. case_eqb; [now left|]. intros H. right.
  unfold parse_json_unsigned in H. simpl in H.
  destruct (is_digit c); [reflexivity|]. discriminate.
Qed.

Lemma parse_value_number fuel s :
  (exists c s', s = c :: s' /\ (c = chr "-" \/ is_digit c = true)) ->
  parse_value (S fuel) s =
  match parse_json_number s with
  | Some (x, rest) => Some (VNum x, rest)
  | None => None
  end.
Proof.
  intros (c & s' & -> & Hc).
  assert (Hr : (45 <= c <= 57)%N).
  { destruct Hc as [->|Hc]; [cbv; split; discriminate|].
    unfold is_digit in Hc. apply andb_prop in Hc as [H1 H2]. apply N.leb_le in H1, H2. lia. }
  assert (Hws : is_json_whitespace c = false).
  { unfold is_json_whitespace.
    repeat (case_eqb; [exfalso; subst c; cbv in Hr; destruct Hr as [H1 H2]; now apply H1|]).
    reflexivity. }
  cbn [parse_value skip_ws]. rewrite Hws. cbv iota.
  repeat (case_eqb; [exfalso; subst c; cbv in Hr; destruct Hr as [H1 H2]; now apply H2|]).
  reflexivity.
Qed.

Lemma parse_value_stringify_number fuel x rest :
  wf_number x -> ends_number rest ->
  parse_value (S fuel) (JSON_stringify (VNum x) ++ rest) = Some (reload_value (VNum x), rest).
Proof.
  intros Hwf Hrest. simpl JSON_stringify. simpl reload_value.
  destruct (isFinite x) eqn:Hfin.
  - pose proof (parse_json_number_toString x rest Hwf Hfin Hrest) as H.
    rewrite parse_value_number by (eapply parse_json_number_head; eassumption).
    now rewrite H.
  - reflexivity.
Qed.

Lemma JSON_stringify_VObj o :
  JSON_stringify (VObj o) = chr "{" :: join_comma (List.map member o) ++ [chr "}"].
Proof. reflexivity. Qed.

Lemma member_app k v tail :
  member (k, v) ++ tail =
  ch_quote :: quote_body k ++ ch_quote :: chr ":" :: JSON_stringify v ++ tail.
Proof.
  unfold member, quote. cbn [fst snd]. simpl. rewrite <- !app_assoc. reflexivity.
Qed.

Lemma parse_member k x fuel acc tail :
  wf_number x ->
  forall c rest, tail = c :: rest -> (c = chr "," \/ c = chr "}") ->
  parse_members (S (S fuel)) acc (member (k, VNum x) ++ tail) =
  if (c =? chr ",")%N
  then parse_members (S fuel) (obj_define k (reload_value (VNum x)) acc) rest
  else Some (VObj (obj_define k (reload_value (VNum x)) acc), rest).
Proof.
  intros Hwf c rest -> Hc.
  rewrite member_app.
  cbn [parse_members skip_ws].
  change (is_json_whitespace ch_quote) with false. cbv iota.
  change ((ch_quote =? ch_quote)%N) with true. cbv iota.
  rewrite parse_string_body_quote_body.
  cbn [skip_ws]. change (is_json_whitespace (chr ":")) with false. cbv iota.
  change ((chr ":" =? chr ":")%N) with true. cbv iota.
  rewrite parse_value_stringify_number; [| assumption | destruct Hc as [-> | ->]; repeat split; discriminate].
  destruct Hc as [-> | ->]; reflexivity.
Qed.

Lemma parse_members_ledger o : forall acc fuel rest,
  o <> [] -> Forall number_valued o -> (length o < fuel)%nat ->
  parse_members fuel acc (join_comma (List.map member o) ++ chr "}" :: rest) =
  Some (VObj (fold_left (fun a e => obj_define (fst e) (snd e) a)
                (List.map reload_member o) acc), rest).
Proof.
  induction o as [|[k v] r IH]; intros acc fuel rest Hne Hall Hfuel; [congruence|].
  inversion Hall as [|? ? (x & Hx & Hwf) Hr]; subst. simpl in Hx. subst v.
  destruct fuel as [|[|fuel]]; simpl in Hfuel; try lia.
  destruct r as [|e2 r'].
  - simpl join_comma.
    rewrite (parse_member k x fuel acc _ Hwf (chr "}") rest eq_refl) by now right.
    reflexivity.
  - change (join_comma (List.map member ((k, VNum x) :: e2 :: r')))
      with (member (k, VNum x) ++ chr "," :: join_comma (List.map member (e2 :: r'))).
    rewrite <- app_assoc, <- app_comm_cons.
    rewrite (parse_member k x fuel acc _ Hwf (chr ",") _ eq_refl) by now left.
    change ((chr "," =? chr ",")%N) with true. cbv iota.
    rewrite IH; [reflexivity | discriminate | assumption | simpl in *; lia].
Qed.

Lemma member_nonempty e : (1 <= length (member e))%nat.
Proof. unfold member, quote. simpl. lia. Qed.

Lemma length_join_comma o : (length o <= length (join_comma (List.map member o)))%nat.
Proof.
  induction o as [|e [|e2 r] IH]; simpl; [lia | pose proof (member_nonempty e); lia |].
  rewrite length_app. simpl in *. pose proof (member_nonempty e). lia.
Qed.

Lemma own_key_order_reload o :
  own_key_order o -> own_key_order (List.map reload_member o).
Proof.
  unfold own_key_order. rewrite List.map_map. intros H. exact H.
Qed.

Theorem JSON_parse_stringify_ledger o :
  own_key_order o -> Forall number_valued o ->
  JSON_parse (JSON_stringify (VObj o)) = Some (VObj (List.map reload_member o)).
Proof.
  intros Hord Hall. unfold JSON_parse. rewrite JSON_stringify_VObj.
  destruct o as [|e r].
  - reflexivity.
  - remember (e :: r) as o eqn:Ho.
    change (2 + 2 * ?n)%nat with (S (S (2 * n))).
    cbn [parse_value skip_ws].
    change (is_json_whitespace (chr "{")) with false. cbv iota.
    change ((chr "{" =? chr "{")%N) with true. cbv iota.
    assert (Hhead : exists t, join_comma (List.map member o) ++ [chr "}"] = ch_quote :: t).
    { subst o. destruct r; simpl; eexists; reflexivity. }
    destruct Hhead as [t Ht]. rewrite Ht.
    cbn [skip_ws]. change (is_json_whitespace ch_quote) with false. cbv iota.
    change ((ch_quote =? chr "}")%N) with false. cbv iota.
    rewrite <- Ht.
    rewrite (parse_members_ledger o [] _ []); [| subst; discriminate | assumption | ].
    + simpl skip_ws. cbv iota.
      rewrite define_all_ordered; [reflexivity|]. now apply own_key_order_reload.
    + cbn [length]. rewrite length_app. pose proof (length_join_comma o). lia.
Qed.

(** ** Parsed numbers are well formed *)

Lemma span_digits_lt s : Forall (fun d => (d < 10)%N) (fst (span_digits s)).
Proof.
  induction s as [|c r IH]; simpl; [constructor|].
  destruct (is_digit c) eqn:E; [|constructor].
  destruct (span_digits r) as [ds r']. simpl in *. constructor; [|assumption].
  unfold is_digit in E. apply andb_prop in E as [E1 E2]. apply N.leb_le in E1, E2.
  unfold digit_val. lia.
Qed.

Lemma Forall_drop_zeros (P : N -> Prop) l : Forall P l -> Forall P (drop_zeros l).
Proof.
  induction 1 as [|d l Hd Hl IH]; simpl; [constructor|].
  destruct d; [assumption | now constructor].
Qed.

Lemma hd_drop_zeros l : drop_zeros l <> [] -> hd 0%N (drop_zeros l) <> 0%N.
Proof.
  induction l as [|d l IH]; simpl; [congruence|].
  destruct d; [assumption | simpl; discriminate].
Qed.

Lemma drop_zeros_snoc l h : h <> 0%N -> drop_zeros (l ++ [h]) = drop_zeros l ++ [h].
Proof.
  intros Hh. induction l as [|d l IH]; simpl.
  - destruct h; congruence.
  - destruct d; [assumption | reflexivity].
Qed.

Lemma Forall_strip_trailing_zeros (P : N -> Prop) l :
  Forall P l -> Forall P (strip_trailing_zeros l).
Proof.
  intros H. unfold strip_trailing_zeros.
  apply Forall_rev, Forall_drop_zeros, Forall_rev, H.
Qed.

Lemma last_strip_trailing_zeros l :
  strip_trailing_zeros l <> [] -> List.last (strip_trailing_zeros l) 0%N <> 0%N.
Proof.
  unfold strip_trailing_zeros. intros H.
  rewrite <- hd_rev_last, rev_involutive. apply hd_drop_zeros.
  intros E. apply H. now rewrite E.
Qed.

Lemma hd_strip_trailing_zeros l :
  hd 0%N l <> 0%N -> hd 0%N (strip_trailing_zeros l) = hd 0%N l.
Proof.
  destruct l as [|h t]; simpl; [congruence|]. intros Hh.
  unfold strip_trailing_zeros. simpl rev.
  rewrite drop_zeros_snoc by assumption. rewrite rev_app_distr. reflexivity.
Qed.

Lemma canonical_decimal_digits ip fp e ds n :
  Forall (fun d => (d < 10)%N) ip -> Forall (fun d => (d < 10)%N) fp ->
  canonical_decimal ip fp e = (ds, n) -> ds <> [] ->
  Forall (fun d => (d < 10)%N) ds /\ hd 0%N ds <> 0%N /\ List.last ds 0%N <> 0%N.
Proof.
  intros Hip Hfp Hc Hne. unfold canonical_decimal in Hc. injection Hc as Hds _.
  set (l := drop_zeros (ip ++ fp)) in *.
  assert (Hl : l <> []).
  { intros El. rewrite El in Hds. subst ds. now apply Hne. }
  subst ds. split; [|split].
  - apply Forall_strip_trailing_zeros, Forall_drop_zeros, Forall_app. now split.
  - rewrite hd_strip_trailing_zeros; now apply hd_drop_zeros.
  - now apply last_strip_trailing_zeros.
Qed.

Lemma binary64_eqb_eq x y : binary64_eqb x y = true -> x = y.
Proof.
  destruct x, y; simpl; try discriminate; try reflexivity.
  intros H. apply andb_prop in H as [H1 H2].
  apply Z.eqb_eq in H1, H2. now subst.
Qed.

Lemma round_decimal_nil n m e : round_decimal [] n <> BFin m e.
Proof.
  unfold round_decimal. destruct (309 <? n)%Z; [discriminate|].
  destruct (n <? -323)%Z; [discriminate|]. cbn [length digits_value digits_uint].
  change (Z.of_N (N.of_uint Decimal.Nil)) with 0%Z.
  destruct (Z.of_nat 0 <=? n)%Z; [rewrite Z.mul_0_l|]; discriminate.
Qed.

(** A decimal that the search picks rounds to the value it was picked for,
    and is in canonical form. *)
Lemma pick_decimal_Some m e ds n k c :
  Forall (fun d => (d < 10)%N) ds -> pick_decimal (BFin m e) ds n k = Some c ->
  round_decimal (fst c) (snd c) = BFin m e
  /\ Forall (fun d => (d < 10)%N) (fst c) /\ hd 0%N (fst c) <> 0%N
  /\ List.last (fst c) 0%N <> 0%N.
Proof.
  intros Hds. unfold pick_decimal.
  set (p := firstn k ds). set (scale := (n - Z.of_nat (length p))%Z).
  assert (Hp : Forall (fun d => (d < 10)%N) p) by now apply Forall_take.
  pose proof (N_digits_lt (digits_value p + 1)) as Hq.
  assert (Hgood : forall ip,
    Forall (fun d => (d < 10)%N) ip ->
    binary64_eqb (round_decimal (fst (canonical_decimal ip [] scale))
                                (snd (canonical_decimal ip [] scale))) (BFin m e) = true ->
    round_decimal (fst (canonical_decimal ip [] scale)) (snd (canonical_decimal ip [] scale))
    = BFin m e
    /\ Forall (fun d => (d < 10)%N) (fst (canonical_decimal ip [] scale))
    /\ hd 0%N (fst (canonical_decimal ip [] scale)) <> 0%N
    /\ List.last (fst (canonical_decimal ip [] scale)) 0%N <> 0%N).
  { intros ip Hip Hok. apply binary64_eqb_eq in Hok. split; [exact Hok|].
    destruct (canonical_decimal ip [] scale) as [ds' n'] eqn:Ec. cbn [fst snd] in *.
    apply (canonical_decimal_digits ip [] scale ds' n'); [assumption | constructor | assumption|].
    intros ->. now apply round_decimal_nil in Hok. }
  destruct (binary64_eqb (round_decimal (fst (canonical_decimal p [] scale)) _) _) eqn:Elo;
    destruct (binary64_eqb (round_decimal
                (fst (canonical_decimal (N_digits (digits_value p + 1)) [] scale)) _) _) eqn:Ehi;
    try discriminate.
  - destruct (_ ?= _)%N; [destruct (N.even _)| |]; intros [= <-]; auto.
  - intros [= <-]. auto.
  - intros [= <-]. auto.
Qed.

Lemma shortest_from_Some fuel : forall k m e ds n c,
  Forall (fun d => (d < 10)%N) ds -> shortest_from fuel k (BFin m e) ds n = Some c ->
  round_decimal (fst c) (snd c) = BFin m e
  /\ Forall (fun d => (d < 10)%N) (fst c) /\ hd 0%N (fst c) <> 0%N
  /\ List.last (fst c) 0%N <> 0%N.
Proof.
  induction fuel as [|f IH]; intros k m e ds n c Hds; cbn [shortest_from]; [discriminate|].
  destruct (pick_decimal (BFin m e) ds n k) as [c0|] eqn:Ep.
  - intros [= <-]. now apply (pick_decimal_Some m e ds n k).
  - now apply IH.
Qed.

Lemma shortest_decimal_Some m e ds n :
  shortest_decimal m e = Some (ds, n) ->
  round_decimal ds n = BFin m e
  /\ Forall (fun d => (d < 10)%N) ds /\ hd 0%N ds <> 0%N /\ List.last ds 0%N <> 0%N.
Proof.
  unfold shortest_decimal. destruct (exact_decimal m e) as [ds0 n0] eqn:Ee. intros H.
  apply shortest_from_Some in H; [exact H|].
  unfold exact_decimal in Ee.
  destruct (0 <=? e)%Z; injection Ee as <- _; apply N_digits_lt.
Qed.

Lemma make_number_wf neg ip fp e :
  Forall (fun d => (d < 10)%N) ip -> Forall (fun d => (d < 10)%N) fp ->
  wf_number (make_number neg ip fp e).
Proof.
  intros Hip Hfp. unfold make_number.
  destruct (canonical_decimal ip fp e) as [ds n].
  destruct ds as [|d ds]; [exact I|].
  destruct (round_decimal (d :: ds) n) as [| |m e']; [exact I | exact I|].
  destruct (shortest_decimal m e') as [[ds' n']|] eqn:Es; [|exact I].
  destruct (shortest_decimal_Some m e' ds' n' Es) as (Hr & Hlt & Hhd & Hlast).
  cbn [wf_number]. repeat (split; [assumption|]). now exists m, e'.
Qed.

(** ** The value of a digit sequence *)

Lemma of_uint_acc_positional r : forall p0,
  Forall (fun d => (d < 10)%N) r ->
  Npos (Pos.of_uint_acc (digits_uint r) p0)
  = fold_left (fun a d => (10 * a + d)%N) r (Npos p0).
Proof.
  induction r as [|d r IH]; intros p0 H; [reflexivity|].
  inversion H as [|? ? Hd Hr]; subst.
  assert (Hc : (d = 0 \/ d = 1 \/ d = 2 \/ d = 3 \/ d = 4 \/ d = 5 \/ d = 6 \/ d = 7
                \/ d = 8 \/ d = 9)%N) by lia.
  destruct Hc as [->|[->|[->|[->|[->|[->|[->|[->|[->| ->]]]]]]]]];
    cbn [digits_uint Pos.of_uint_acc fold_left]; rewrite IH by assumption;
    f_equal; lia.
Qed.

Lemma digits_value_positional ds :
  Forall (fun d => (d < 10)%N) ds -> digits_value ds = positional ds.
Proof.
  unfold digits_value, positional, N.of_uint.
  induction ds as [|d r IH]; intros H; [reflexivity|].
  inversion H as [|? ? Hd Hr]; subst.
  assert (Hc : (d = 0 \/ d = 1 \/ d = 2 \/ d = 3 \/ d = 4 \/ d = 5 \/ d = 6 \/ d = 7
                \/ d = 8 \/ d = 9)%N) by lia.
  destruct Hc as [->|[->|[->|[->|[->|[->|[->|[->|[->| ->]]]]]]]]];
    cbn [digits_uint Pos.of_uint fold_left];
    [now apply IH | now rewrite of_uint_acc_positional ..].
Qed.

Lemma positional_step r : forall a,
  Forall (fun d => (d < 10)%N) r ->
  (a * 10 ^ N.of_nat (length r) <= fold_left (fun a d => 10 * a + d) r a
   /\ fold_left (fun a d => 10 * a + d) r a < (a + 1) * 10 ^ N.of_nat (length r))%N.
Proof.
  induction r as [|d r IH]; intros a H.
  - simpl. lia.
  - inversion H as [|? ? Hd Hr]; subst. cbn [fold_left length].
    destruct (IH (10 * a + d)%N Hr) as [H1 H2].
    rewrite Nat2N.inj_succ, N.pow_succ_r'.
    set (P := (10 ^ N.of_nat (length r))%N) in *. nia.
Qed.

Lemma positional_zeros t : forall a,
  fold_left (fun a d => (10 * a + d)%N) (zeros t) a = (a * 10 ^ N.of_nat t)%N.
Proof.
  induction t as [|t IH]; intros a.
  - simpl. lia.
  - cbn [zeros repeat fold_left]. fold (zeros t). rewrite IH.
    rewrite Nat2N.inj_succ, N.pow_succ_r'. lia.
Qed.

Lemma positional_app_zeros l t :
  positional (l ++ zeros t) = (positional l * 10 ^ N.of_nat t)%N.
Proof. unfold positional. now rewrite fold_left_app, positional_zeros. Qed.

Lemma positional_drop_zeros l : positional (drop_zeros l) = positional l.
Proof.
  induction l as [|d r IH]; [reflexivity|].
  destruct d as [|p]; [exact IH | reflexivity].
Qed.

Lemma drop_zeros_split l : exists t, l = zeros t ++ drop_zeros l.
Proof.
  induction l as [|d r [t IH]]; [now exists 0%nat|].
  destruct d as [|p].
  - exists (S t). change (zeros (S t)) with (0%N :: zeros t). cbn [drop_zeros app].
    f_equal. exact IH.
  - now exists 0%nat.
Qed.

Lemma strip_trailing_zeros_split l : exists t, l = strip_trailing_zeros l ++ zeros t.
Proof.
  unfold strip_trailing_zeros. destruct (drop_zeros_split (rev l)) as [t Ht].
  exists t. rewrite <- (rev_involutive l) at 1. rewrite Ht at 1.
  now rewrite rev_app_distr, rev_zeros.
Qed.

Lemma length_drop_zeros l : length (drop_zeros l) <= length l.
Proof.
  destruct (drop_zeros_split l) as [t Ht]. rewrite Ht at 2. rewrite length_app. lia.
Qed.

(** The canonical form of a digit sequence keeps its value: with [t] zeros
    stripped at the end, [ds * 10^t] is the value of the digits. *)
Lemma canonical_decimal_value ip s ds n :
  Forall (fun d => (d < 10)%N) ip -> digits_value ip <> 0%N ->
  canonical_decimal ip [] s = (ds, n) ->
  exists t : nat,
    Forall (fun d => (d < 10)%N) ds
    /\ (Z.of_N (digits_value ip) = Z.of_N (digits_value ds) * 10 ^ Z.of_nat t)%Z
    /\ (n = Z.of_nat (length ds) + Z.of_nat t + s)%Z
    /\ (10 ^ (Z.of_nat (length ds) - 1) <= Z.of_N (digits_value ds)
        < 10 ^ Z.of_nat (length ds))%Z
    /\ (0 < Z.of_nat (length ds))%Z.
Proof.
  intros Hip Hnz Hc. unfold canonical_decimal in Hc. rewrite app_nil_r in Hc.
  injection Hc as Hds Hn.
  set (lead := drop_zeros ip) in *.
  assert (Hlead : Forall (fun d => (d < 10)%N) lead) by now apply Forall_drop_zeros.
  assert (Hv : digits_value lead = digits_value ip).
  { rewrite !digits_value_positional by assumption. apply positional_drop_zeros. }
  destruct (strip_trailing_zeros_split lead) as [t Ht]. rewrite Hds in Ht.
  assert (Hdsf : Forall (fun d => (d < 10)%N) ds).
  { rewrite <- Hds. now apply Forall_strip_trailing_zeros. }
  assert (Hval : digits_value ip = (digits_value ds * 10 ^ N.of_nat t)%N).
  { rewrite <- Hv, Ht, (digits_value_positional (ds ++ zeros t)).
    - rewrite positional_app_zeros. now rewrite digits_value_positional.
    - rewrite <- Ht. assumption. }
  assert (Hne : ds <> []).
  { intros ->. apply Hnz. rewrite Hval. reflexivity. }
  assert (Hlne : lead <> []).
  { intros E. apply Hne. rewrite <- Hds, E. reflexivity. }
  assert (Hhd : hd 0%N ds <> 0%N).
  { rewrite <- Hds. rewrite hd_strip_trailing_zeros; now apply hd_drop_zeros. }
  exists t. split; [assumption|]. split; [|split; [|split]].
  - rewrite Hval, N2Z.inj_mul, N2Z.inj_pow, nat_N_Z. reflexivity.
  - pose proof (length_drop_zeros ip) as Hle. fold lead in Hle.
    assert (Hlen : length lead = (length ds + t)%nat).
    { rewrite Ht, length_app. unfold zeros. now rewrite repeat_length. }
    lia.
  - destruct ds as [|d r]; [congruence|]. simpl in Hhd.
    inversion Hdsf as [|? ? Hd Hr]; subst.
    rewrite digits_value_positional by assumption. unfold positional. cbn [fold_left length].
    destruct (positional_step r (10 * 0 + d)%N Hr) as [H1 H2].
    set (F := fold_left (fun a d0 => (10 * a + d0)%N) r (10 * 0 + d)%N) in *.
    set (P := (10 ^ N.of_nat (length r))%N) in *.
    assert (HF : (P <= F < 10 * P)%N) by nia.
    replace (Z.of_nat (S (length r)) - 1)%Z with (Z.of_nat (length r)) by lia.
    rewrite Nat2Z.inj_succ, Z.pow_succ_r by lia.
    replace (10 ^ Z.of_nat (length r))%Z with (Z.of_N P)
      by (unfold P; now rewrite N2Z.inj_pow, nat_N_Z).
    lia.
  - destruct ds; [congruence | simpl; lia].
Qed.

(** ** Rounding to binary64 *)

Section Rounding.
Local Open Scope Z_scope.

Lemma pow2_pos z : 0 < 2 ^ z \/ z < 0.
Proof. destruct (Z_lt_le_dec z 0); [now right | left; now apply Z.pow_pos_nonneg]. Qed.

(** Comparing [a * 2^p] with [b * 2^q] depends on [q - p] only. *)
Lemma lt_scale a b p q p' q' :
  0 < a -> 0 < b -> 0 <= p -> 0 <= q -> 0 <= p' -> 0 <= q' ->
  a * 2 ^ p < b * 2 ^ q -> q - p <= q' - p' -> a * 2 ^ p' < b * 2 ^ q'.
Proof.
  intros Ha Hb Hp Hq Hp' Hq' H Hd.
  assert (H1 : (a * 2 ^ p') * 2 ^ (p + q) < (b * 2 ^ q') * 2 ^ (p + q)).
  { replace ((a * 2 ^ p') * 2 ^ (p + q)) with ((a * 2 ^ p) * 2 ^ (p' + q))
      by (rewrite !Z.pow_add_r by lia; ring).
    apply Z.lt_le_trans with ((b * 2 ^ q) * 2 ^ (p' + q)).
    - apply Z.mul_lt_mono_pos_r; [apply Z.pow_pos_nonneg; lia | exact H].
    - replace ((b * 2 ^ q') * 2 ^ (p + q)) with ((b * 2 ^ q) * 2 ^ (q' + p))
        by (rewrite !Z.pow_add_r by lia; ring).
      apply Z.mul_le_mono_nonneg_l; [apply Z.mul_nonneg_nonneg; [lia | apply Z.pow_nonneg; lia]|].
      apply Z.pow_le_mono_r; lia. }
  apply Z.mul_lt_mono_pos_r in H1; [exact H1 | apply Z.pow_pos_nonneg; lia].
Qed.

Lemma le_scale a b p q p' q' :
  0 < a -> 0 < b -> 0 <= p -> 0 <= q -> 0 <= p' -> 0 <= q' ->
  b * 2 ^ q <= a * 2 ^ p -> q' - p' <= q - p -> b * 2 ^ q' <= a * 2 ^ p'.
Proof.
  intros Ha Hb Hp Hq Hp' Hq' H Hd.
  assert (H1 : (b * 2 ^ q') * 2 ^ (p + q) <= (a * 2 ^ p') * 2 ^ (p + q)).
  { replace ((a * 2 ^ p') * 2 ^ (p + q)) with ((a * 2 ^ p) * 2 ^ (p' + q))
      by (rewrite !Z.pow_add_r by lia; ring).
    apply Z.le_trans with ((b * 2 ^ q) * 2 ^ (p' + q)).
    - replace ((b * 2 ^ q') * 2 ^ (p + q)) with ((b * 2 ^ q) * 2 ^ (q' + p))
        by (rewrite !Z.pow_add_r by lia; ring).
      apply Z.mul_le_mono_nonneg_l; [apply Z.mul_nonneg_nonneg; [lia | apply Z.pow_nonneg; lia]|].
      apply Z.pow_le_mono_r; lia.
    - apply Z.mul_le_mono_nonneg_r; [apply Z.pow_nonneg; lia | exact H]. }
  apply Z.mul_le_mono_pos_r in H1; [exact H1 | apply Z.pow_pos_nonneg; lia].
Qed.

(** [log2_ratio a b] is the integer logarithm of [a / b]. *)
Lemma log2_ratio_spec a b :
  0 < a -> 0 < b ->
  exists x y, 0 <= x /\ 0 <= y /\ log2_ratio a b = x - y
              /\ b * 2 ^ x <= a * 2 ^ y /\ a * 2 ^ y < b * 2 ^ (x + 1).
Proof.
  intros Ha Hb. unfold log2_ratio.
  set (k := Z.log2 b + 1).
  pose proof (Z.log2_nonneg b) as Hk0.
  pose proof (Z.log2_spec b Hb) as [_ Hk]. fold (Z.succ (Z.log2 b)) in Hk.
  replace (Z.succ (Z.log2 b)) with k in Hk by (unfold k; lia).
  assert (Hk2 : 0 < 2 ^ k) by (apply Z.pow_pos_nonneg; lia).
  set (X := a * 2 ^ k / b).
  assert (HX : 1 <= X).
  { unfold X. apply Z.div_le_lower_bound; [assumption|]. nia. }
  pose proof (Z.log2_spec X ltac:(lia)) as [Hx1 Hx2].
  pose proof (Z.log2_nonneg X) as Hx0.
  exists (Z.log2 X), k. split; [assumption|]. split; [lia|]. split; [reflexivity|].
  pose proof (Z.mul_div_le (a * 2 ^ k) b Hb) as Hd1. fold X in Hd1.
  pose proof (Z.mul_succ_div_gt (a * 2 ^ k) b Hb) as Hd2. fold X in Hd2.
  replace (Z.log2 X + 1) with (Z.succ (Z.log2 X)) by lia.
  split; nia.
Qed.

Lemma log2_ratio_unique a b x y :
  0 < a -> 0 < b -> 0 <= x -> 0 <= y ->
  b * 2 ^ x <= a * 2 ^ y -> a * 2 ^ y < b * 2 ^ (x + 1) ->
  log2_ratio a b = x - y.
Proof.
  intros Ha Hb Hx Hy H1 H2.
  destruct (log2_ratio_spec a b Ha Hb) as (x' & y' & Hx' & Hy' & -> & H1' & H2').
  assert (x' - y' < x + 1 - y).
  { destruct (Z_lt_le_dec (x' - y') (x + 1 - y)) as [|Hge]; [assumption|]. exfalso.
    pose proof (le_scale a b y' x' y (x + 1) Ha Hb Hy' Hx' Hy ltac:(lia) H1' ltac:(lia)). lia. }
  assert (x - y < x' + 1 - y').
  { destruct (Z_lt_le_dec (x - y) (x' + 1 - y')) as [|Hge]; [assumption|]. exfalso.
    pose proof (le_scale a b y x y' (x' + 1) Ha Hb Hy Hx Hy' ltac:(lia) H1 ltac:(lia)). lia. }
  lia.
Qed.

Lemma round_half_even_exact m den : 0 < den -> round_half_even (m * den) den = m.
Proof.
  intros H. unfold round_half_even.
  rewrite Z.div_mul by lia. rewrite Z.mod_mul by lia.
  now replace (2 * 0 ?= den) with Lt by (symmetry; apply Z.compare_lt_iff; lia).
Qed.

Lemma round_half_even_bounds num den lo hi :
  0 < den -> lo * den <= num -> num < hi * den ->
  lo <= round_half_even num den <= hi.
Proof.
  intros H Hlo Hhi. unfold round_half_even.
  assert (lo <= num / den) by (apply Z.div_le_lower_bound; lia).
  assert (num / den < hi) by (apply Z.div_lt_upper_bound; lia).
  destruct (2 * (num mod den) ?= den); [destruct (Z.even _)| |]; lia.
Qed.

(** A value that is a binary64 value rounds to itself. *)
Lemma round_ratio_exact a b m e :
  canonical_binary64 m e -> 0 < a -> 0 < b ->
  a * 2 ^ Z.max 0 (- e) = m * b * 2 ^ Z.max 0 e ->
  round_ratio a b = BFin m e.
Proof.
  intros (Hm & He & Hn) Ha Hb Hv. unfold round_ratio.
  replace (a =? 0) with false by (symmetry; apply Z.eqb_neq; lia).
  pose proof (Z.log2_spec m ltac:(lia)) as [Hl1 Hl2].
  pose proof (Z.log2_nonneg m) as Hl0.
  assert (Hl53 : Z.log2 m < 53) by (apply Z.log2_lt_pow2; lia).
  assert (HL : log2_ratio a b = Z.log2 m + e).
  { replace (Z.log2 m + e) with ((Z.log2 m + Z.max 0 e) - Z.max 0 (- e)) by lia.
    apply log2_ratio_unique; try lia.
    - rewrite Hv, Z.pow_add_r by lia.
      assert (0 < 2 ^ Z.max 0 e) by (apply Z.pow_pos_nonneg; lia). nia.
    - rewrite Hv. replace (Z.log2 m + Z.max 0 e + 1) with (Z.succ (Z.log2 m) + Z.max 0 e) by lia.
      rewrite Z.pow_add_r by lia.
      assert (0 < 2 ^ Z.max 0 e) by (apply Z.pow_pos_nonneg; lia). nia. }
  assert (He0 : Z.max (log2_ratio a b - 52) (-1074) = e).
  { rewrite HL. destruct Hn as [-> | Hn]; [lia|].
    assert (52 <= Z.log2 m) by (apply Z.log2_le_pow2; lia). lia. }
  rewrite He0, Hv.
  replace (m * b * 2 ^ Z.max 0 e) with (m * (b * 2 ^ Z.max 0 e)) by ring.
  rewrite round_half_even_exact
    by (apply Z.mul_pos_pos; [assumption | apply Z.pow_pos_nonneg; lia]).
  replace (m =? 2 ^ 53) with false by (symmetry; apply Z.eqb_neq; lia).
  replace (971 <? e) with false by (symmetry; apply Z.ltb_ge; lia).
  now replace (m =? 0) with false by (symmetry; apply Z.eqb_neq; lia).
Qed.

(** What rounding returns is a binary64 value. *)
Lemma round_ratio_canonical a b m e :
  0 < a -> 0 < b -> round_ratio a b = BFin m e -> canonical_binary64 m e.
Proof.
  intros Ha Hb. unfold round_ratio.
  replace (a =? 0) with false by (symmetry; apply Z.eqb_neq; lia).
  destruct (log2_ratio_spec a b Ha Hb) as (x & y & Hx & Hy & HL & H1 & H2).
  set (e0 := Z.max (log2_ratio a b - 52) (-1074)).
  set (num := a * 2 ^ Z.max 0 (- e0)). set (den := b * 2 ^ Z.max 0 e0).
  assert (Hden : 0 < den).
  { apply Z.mul_pos_pos; [assumption | apply Z.pow_pos_nonneg; lia]. }
  assert (Hup : num < 2 ^ 53 * den).
  { unfold num, den. replace (2 ^ 53 * (b * 2 ^ Z.max 0 e0)) with (b * 2 ^ (Z.max 0 e0 + 53))
      by (rewrite Z.pow_add_r by lia; ring).
    apply (lt_scale a b y (x + 1)); try lia. }
  assert (Hlow : e0 <> -1074 -> 2 ^ 52 * den <= num).
  { intros Hne. unfold num, den.
    replace (2 ^ 52 * (b * 2 ^ Z.max 0 e0)) with (b * 2 ^ (Z.max 0 e0 + 52))
      by (rewrite Z.pow_add_r by lia; ring).
    apply (le_scale a b y x); try lia. }
  assert (Hnum : 0 <= num).
  { unfold num. apply Z.mul_nonneg_nonneg; [lia | apply Z.pow_nonneg; lia]. }
  assert (Hq0 : 0 <= round_half_even num den).
  { apply (round_half_even_bounds num den 0 (2 ^ 53)); lia. }
  assert (Hq1 : round_half_even num den <= 2 ^ 53).
  { apply (round_half_even_bounds num den 0 (2 ^ 53)); lia. }
  assert (Hq2 : e0 <> -1074 -> 2 ^ 52 <= round_half_even num den).
  { intros Hne. specialize (Hlow Hne).
    apply (round_half_even_bounds num den (2 ^ 52) (2 ^ 53)); lia. }
  assert (He0 : -1074 <= e0) by (unfold e0; lia).
  destruct (Z.eqb_spec (round_half_even num den) (2 ^ 53)) as [Eq|Hne].
  - destruct (Z.ltb_spec 971 (e0 + 1)); [discriminate|]. intros [= <- <-].
    unfold canonical_binary64. lia.
  - destruct (Z.ltb_spec 971 e0); [discriminate|].
    destruct (Z.eqb_spec (round_half_even num den) 0); [discriminate|].
    intros [= <- <-]. unfold canonical_binary64.
    destruct (Z.eq_dec e0 (-1074)); [lia|]. specialize (Hq2 ltac:(assumption)). lia.
Qed.

Lemma round_decimal_canonical ds n m e :
  round_decimal ds n = BFin m e -> canonical_binary64 m e.
Proof.
  unfold round_decimal. destruct (309 <? n); [discriminate|].
  destruct (n <? -323); [discriminate|].
  pose proof (N2Z.is_nonneg (digits_value ds)) as Hd.
  destruct (Z.eq_dec (Z.of_N (digits_value ds)) 0) as [E|Hne].
  { rewrite E, Z.mul_0_l. destruct (_ <=? _); discriminate. }
  destruct (Z.leb_spec (Z.of_nat (length ds)) n).
  - apply round_ratio_canonical; [|lia].
    apply Z.mul_pos_pos; [lia | apply Z.pow_pos_nonneg; lia].
  - apply round_ratio_canonical; [lia|]. apply Z.pow_pos_nonneg; lia.
Qed.

Lemma pow10_split z : 0 <= z -> 10 ^ z = 2 ^ z * 5 ^ z.
Proof. intros H. now rewrite <- Z.pow_mul_l. Qed.

(** The whole decimal expansion of a binary64 value rounds to the value. *)
Lemma round_decimal_exact m e ds n ds' n' :
  canonical_binary64 m e -> exact_decimal m e = (ds, n) ->
  canonical_decimal ds [] (n - Z.of_nat (length ds)) = (ds', n') ->
  round_decimal ds' n' = BFin m e.
Proof.
  intros Hc He Hcan. pose proof Hc as (Hm & Hr & Hn).
  set (M := if 0 <=? e then m * 2 ^ e else m * 5 ^ (- e)).
  set (s := if 0 <=? e then 0 else e).
  assert (HM : 0 < M).
  { unfold M. destruct (0 <=? e) eqn:E.
    - apply Z.mul_pos_pos; [lia | apply Z.pow_pos_nonneg; lia].
    - apply Z.mul_pos_pos; [lia | apply Z.pow_pos_nonneg; lia]. }
  assert (Hds : ds = N_digits (Z.to_N M) /\ (n - Z.of_nat (length ds) = s)).
  { unfold exact_decimal in He. unfold M, s.
    destruct (0 <=? e); injection He as <- <-; split; (reflexivity || lia). }
  destruct Hds as [Hds Hs]. rewrite Hs in Hcan.
  assert (Hval : Z.of_N (digits_value ds) = M).
  { rewrite Hds, digits_value_N_digits. lia. }
  destruct (canonical_decimal_value ds s ds' n') as (t & Hlt & Hv & Hn' & (Hlo & Hhi) & Hk);
    [rewrite Hds; apply N_digits_lt | lia | assumption |].
  rewrite Hval in Hv.
  set (d := Z.of_N (digits_value ds')) in *.
  set (k := Z.of_nat (length ds')) in *.
  assert (Ht : 0 <= Z.of_nat t) by lia.
  set (tz := Z.of_nat t) in *.
  assert (HT : 0 < 10 ^ tz) by (apply Z.pow_pos_nonneg; lia).
  assert (Hd0 : 0 < d) by nia.
  (* the bounds of the value *)
  assert (Hlow : 10 ^ (k - 1 + tz) <= M).
  { rewrite Z.pow_add_r by lia. rewrite Hv. apply Z.mul_le_mono_nonneg_r; lia. }
  assert (Hupp : M < 10 ^ (k + tz)).
  { rewrite Z.pow_add_r by lia. rewrite Hv. apply Z.mul_lt_mono_pos_r; lia. }
  assert (Hg1 : n' <= 309).
  { destruct (Z_le_gt_dec n' 309) as [|Hgt]; [assumption|]. exfalso.
    unfold M, s in *. destruct (Z.leb_spec 0 e).
    - assert (m * 2 ^ e < 2 ^ 53 * 2 ^ 971).
      { assert (2 ^ e <= 2 ^ 971) by (apply Z.pow_le_mono_r; lia).
        assert (0 < 2 ^ e) by (apply Z.pow_pos_nonneg; lia).
        apply Z.le_lt_trans with (m * 2 ^ 971); [apply Z.mul_le_mono_nonneg_l; lia|].
        apply Z.mul_lt_mono_pos_r; [apply Z.pow_pos_nonneg; lia | lia]. }
      assert (10 ^ 309 <= 10 ^ (k - 1 + tz)) by (apply Z.pow_le_mono_r; lia).
      assert (2 ^ 53 * 2 ^ 971 < 10 ^ 309) by (apply Z.ltb_lt; vm_compute; reflexivity).
      lia.
    - assert (H5 : 0 < 5 ^ (- e)) by (apply Z.pow_pos_nonneg; lia).
      assert (H10 : 0 < 10 ^ (- e)) by (apply Z.pow_pos_nonneg; lia).
      assert (A : 10 ^ 309 * 10 ^ (- e) <= m * 5 ^ (- e)).
      { rewrite <- Z.pow_add_r by lia.
        apply Z.le_trans with (10 ^ (k - 1 + tz)); [apply Z.pow_le_mono_r; lia | assumption]. }
      assert (B : m * 5 ^ (- e) < 2 ^ 53 * 10 ^ (- e)).
      { apply Z.lt_le_trans with (2 ^ 53 * 5 ^ (- e)).
        - apply Z.mul_lt_mono_pos_r; lia.
        - apply Z.mul_le_mono_nonneg_l; [lia | apply Z.pow_le_mono_l; lia]. }
      assert (C : 2 ^ 53 * 10 ^ (- e) < 10 ^ 309 * 10 ^ (- e)).
      { apply Z.mul_lt_mono_pos_r; [assumption | apply Z.ltb_lt; vm_compute; reflexivity]. }
      lia. }
  assert (Hg2 : -323 <= n').
  { destruct (Z_le_gt_dec (-323) n') as [|Hgt]; [assumption|]. exfalso.
    unfold M, s in *. destruct (Z.leb_spec 0 e); [lia|].
    assert (H5 : 0 < 5 ^ (- e)) by (apply Z.pow_pos_nonneg; lia).
    assert (H2 : 0 < 2 ^ (- e)) by (apply Z.pow_pos_nonneg; lia).
    assert (A : 5 ^ (- e) <= m * 5 ^ (- e)).
    { rewrite <- (Z.mul_1_l (5 ^ (- e))) at 1. apply Z.mul_le_mono_nonneg_r; lia. }
    assert (B : 10 ^ (k + tz) <= 10 ^ (- e - 324)) by (apply Z.pow_le_mono_r; lia).
    assert (C : 5 ^ (- e) * 10 ^ 324 < 10 ^ (- e - 324) * 10 ^ 324).
    { apply Z.mul_lt_mono_pos_r; [apply Z.pow_pos_nonneg; lia | lia]. }
    rewrite <- Z.pow_add_r in C by lia. replace (- e - 324 + 324) with (- e) in C by lia.
    rewrite (pow10_split (- e)) in C by lia.
    assert (D : 2 ^ (- e) * 5 ^ (- e) <= 2 ^ 1074 * 5 ^ (- e)).
    { apply Z.mul_le_mono_nonneg_r; [lia | apply Z.pow_le_mono_r; lia]. }
    assert (E : 2 ^ 1074 * 5 ^ (- e) < 10 ^ 324 * 5 ^ (- e)).
    { apply Z.mul_lt_mono_pos_r; [assumption | apply Z.ltb_lt; vm_compute; reflexivity]. }
    lia. }
  unfold round_decimal.
  replace (309 <? n') with false by (symmetry; apply Z.ltb_ge; lia).
  replace (n' <? -323) with false by (symmetry; apply Z.ltb_ge; lia).
  fold d k.
  destruct (Z.leb_spec k n') as [Hkn|Hkn].
  - (* no digit after the point *)
    replace (n' - k) with (tz + s) by lia.
    apply round_ratio_exact; [assumption | | lia |].
    + apply Z.mul_pos_pos; [lia | apply Z.pow_pos_nonneg; lia].
    + unfold M, s in *. destruct (Z.leb_spec 0 e).
      * replace (Z.max 0 (- e)) with 0 by lia. replace (Z.max 0 e) with e by lia.
        rewrite Z.add_0_r, <- Hv. simpl. ring.
      * replace (Z.max 0 (- e)) with (- e) by lia. replace (Z.max 0 e) with 0 by lia.
        assert (H5 : 0 < 5 ^ (- e)) by (apply Z.pow_pos_nonneg; lia).
        apply (Z.mul_reg_r _ _ (5 ^ (- e))); [lia|].
        replace (d * 10 ^ (tz + e) * 2 ^ (- e) * 5 ^ (- e))
          with (d * (10 ^ (tz + e) * (2 ^ (- e) * 5 ^ (- e)))) by ring.
        rewrite <- pow10_split, <- Z.pow_add_r by lia.
        replace (tz + e + - e) with tz by lia. rewrite <- Hv. simpl. ring.
  - (* digits after the point *)
    replace (k - n') with (- (tz + s)) by lia.
    unfold M, s in *. destruct (Z.leb_spec 0 e); [lia|].
    apply round_ratio_exact; [assumption | lia | apply Z.pow_pos_nonneg; lia|].
    replace (Z.max 0 (- e)) with (- e) by lia. replace (Z.max 0 e) with 0 by lia.
    apply (Z.mul_reg_r _ _ (10 ^ tz)); [lia|].
    replace (m * 10 ^ (- (tz + e)) * 2 ^ 0 * 10 ^ tz)
      with (m * (10 ^ (- (tz + e)) * 10 ^ tz)) by (simpl; ring).
    rewrite <- Z.pow_add_r by lia. replace (- (tz + e) + tz) with (- e) by lia.
    rewrite (pow10_split (- e)) by lia.
    replace (d * 2 ^ (- e) * 10 ^ tz) with ((d * 10 ^ tz) * 2 ^ (- e)) by ring.
    rewrite <- Hv. ring.
Qed.

End Rounding.

(** ** The search for the shortest decimal succeeds *)

Lemma binary64_eqb_refl y : binary64_eqb y y = true.
Proof. destruct y as [| |m e]; simpl; [reflexivity | reflexivity|]. now rewrite !Z.eqb_refl. Qed.

Lemma pick_decimal_whole m e ds n :
  canonical_binary64 m e -> exact_decimal m e = (ds, n) ->
  pick_decimal (BFin m e) ds n (length ds) <> None.
Proof.
  intros Hc He. unfold pick_decimal. rewrite firstn_all.
  destruct (canonical_decimal ds [] (n - Z.of_nat (length ds))) as [ds' n'] eqn:Ec.
  cbn [fst snd]. rewrite (round_decimal_exact m e ds n ds' n' Hc He Ec), binary64_eqb_refl.
  destruct (binary64_eqb _ _); [|discriminate].
  destruct (_ ?= _)%N; [destruct (N.even _)| |]; discriminate.
Qed.

Lemma shortest_from_None fuel : forall k y ds n,
  shortest_from fuel k y ds n = None ->
  forall j, k <= j < k + fuel -> pick_decimal y ds n j = None.
Proof.
  induction fuel as [|f IH]; intros k y ds n H j Hj; [lia|].
  cbn [shortest_from] in H.
  destruct (pick_decimal y ds n k) eqn:Ep; [discriminate|].
  destruct (Nat.eq_dec j k) as [->|Hne]; [assumption|].
  apply (IH (S k) y ds n H). lia.
Qed.

(** Every binary64 value has a shortest decimal. *)
Theorem shortest_decimal_total m e :
  canonical_binary64 m e -> exists c, shortest_decimal m e = Some c.
Proof.
  intros Hc. unfold shortest_decimal.
  destruct (exact_decimal m e) as [ds n] eqn:He.
  destruct (shortest_from (length ds) 1 (BFin m e) ds n) as [c|] eqn:Es; [now exists c|].
  exfalso. apply (pick_decimal_whole m e ds n Hc He).
  apply (shortest_from_None _ _ _ _ _ Es).
  assert (ds <> []).
  { unfold exact_decimal in He. destruct (0 <=? e)%Z; injection He as <- _; apply N_digits_nonempty. }
  destruct ds; [congruence | simpl; lia].
Qed.

(** A decimal literal is never read as NaN. *)
Theorem make_number_not_NaN neg ip fp e : isNaN (make_number neg ip fp e) = false.
Proof.
  unfold make_number. destruct (canonical_decimal ip fp e) as [ds n].
  destruct ds as [|d ds]; [reflexivity|].
  destruct (round_decimal (d :: ds) n) as [| |m e'] eqn:Er; [reflexivity | reflexivity|].
  destruct (shortest_decimal_total m e' (round_decimal_canonical _ _ _ _ Er)) as [[ds' n'] ->].
  reflexivity.
Qed.

(** Values at which the binary rounding shows: 1.005 and 2.675 lie below
    the decimals that write them, 0.125 is a tie that [toFixed] rounds up;
    a literal of more than seventeen digits is written back with the
    shortest digits; 2^53 + 1 is not a binary64 value; a literal beyond
    the range is an infinity. *)
Example toFixed2_rounds_the_binary_value :
  toFixed2 (parseFloat (str "1.005")) = str "1.00"
  /\ toFixed2 (parseFloat (str "2.675")) = str "2.67"
  /\ toFixed2 (parseFloat (str "0.125")) = str "0.13"
  /\ toFixed2 (parseFloat (str "-1.005")) = str "-1.00"
  /\ toFixed2 (parseFloat (str "3.99")) = str "3.99".
Proof. repeat (split; [vm_compute; reflexivity|]). vm_compute. reflexivity. Qed.

Example Number_toString_writes_the_shortest_digits :
  Number_toString (parseFloat (str "0.1234567890123456789")) = str "0.12345678901234568"
  /\ Number_toString (parseFloat (str "9007199254740993")) = str "9007199254740992"
  /\ Number_toString (parseFloat (str "0.1000000000000000055511151231257827"))
     = str "0.1"
  /\ Number_toString (parseFloat (str "1e21")) = str "1e+21"
  /\ Number_toString (parseFloat (str "1e999")) = str "Infinity".
Proof. repeat (split; [vm_compute; reflexivity|]). vm_compute. reflexivity. Qed.

Lemma parse_json_number_wf s x r : parse_json_number s = Some (x, r) -> wf_number x.
Proof.
  assert (Hu : forall neg s, parse_json_unsigned neg s = Some (x, r) -> wf_number x).
  { intros neg s0 H. unfold parse_json_unsigned in H.
    pose proof (span_digits_lt s0) as Hip.
    destruct (span_digits s0) as [ip r1]. simpl in Hip.
    destruct (valid_int_part ip); [|discriminate].
    destruct (parse_fraction r1) as [[fp r2]|] eqn:Ef; [|discriminate].
    destruct (parse_json_exponent r2) as [[e r3]|]; [|discriminate].
    injection H as <- <-. apply make_number_wf; [assumption|].
    unfold parse_fraction in Ef. destruct r1 as [|c r1']; [injection Ef as <- <-; constructor|].
    destruct (c =? chr ".")%N; [|injection Ef as <- <-; constructor].
    pose proof (span_digits_lt r1') as Hfp.
    destruct (span_digits r1') as [fp' r2']. destruct fp'; [discriminate|].
    injection Ef as <- <-. exact Hfp. }
  unfold parse_json_number. destruct s as [|c s']; [discriminate|].
  destruct (c =? chr "-")%N; apply Hu.
Qed.

Lemma parseFloat_wf s : wf_number (parseFloat s).
Proof.
  unfold parseFloat. destruct (parse_sign (trim_start s)) as [neg r].
  destruct (strip_prefix (str "Infinity") r); [exact I|].
  destruct (parse_decimal_prefix r) as [[[[ip fp] e] r']|] eqn:E; [|exact I].
  unfold parse_decimal_prefix in E.
  pose proof (span_digits_lt r) as Hip.
  destruct (span_digits r) as [ip0 r1]. simpl in Hip.
  assert (Hfp : forall fp0 r2,
    match r1 with
    | c :: r0 => if (c =? chr ".")%N then span_digits r0 else ([], r1)
    | [] => ([], r1)
    end = (fp0, r2) -> Forall (fun d => (d < 10)%N) fp0).
  { intros fp0 r2 H. destruct r1 as [|c r0]; [injection H as <- <-; constructor|].
    destruct (c =? chr ".")%N; [|injection H as <- <-; constructor].
    pose proof (span_digits_lt r0) as Hx. rewrite H in Hx. exact Hx. }
  destruct (match r1 with [] => _ | _ => _ end) as [fp0 r2] eqn:Ef.
  specialize (Hfp fp0 r2 eq_refl).
  assert (ip = ip0 /\ fp = fp0) as [-> ->].
  { destruct ip0, fp0; try discriminate;
      destruct (parse_exponent r2) as [[? ?]|]; injection E; intros; subst; auto. }
  now apply make_number_wf.
Qed.

Lemma Forall_obj_replace (P : value -> Prop) k v o :
  P v -> Forall (fun e => P (snd e)) o -> Forall (fun e => P (snd e)) (obj_replace k v o).
Proof.
  intros Hv. induction 1 as [|[k' v'] r Hh Hr IH]; simpl; [constructor|].
  destruct (bool_decide (k' = k)); constructor; auto.
Qed.

Lemma Forall_obj_insert (P : value -> Prop) k v o :
  P v -> Forall (fun e => P (snd e)) o -> Forall (fun e => P (snd e)) (obj_insert k v o).
Proof.
  intros Hv. induction 1 as [|[k' v'] r Hh Hr IH]; simpl; [repeat constructor; auto|].
  destruct (precedes k' k); constructor; auto.
Qed.

Lemma object_wf_define k v o : value_wf v -> object_wf o -> object_wf (obj_define k v o).
Proof.
  intros Hv [Ho Hall]. split; [now apply obj_define_ordered|].
  unfold obj_define. destruct (obj_lookup k o).
  - now apply Forall_obj_replace.
  - now apply Forall_obj_insert.
Qed.

Lemma parse_wf fuel :
  (forall s v r, parse_value fuel s = Some (v, r) ->
     value_wf v /\ forall o, v = VObj o -> object_wf o)
  /\ (forall acc s v r, parse_members fuel acc s = Some (v, r) ->
        object_wf acc -> exists o, v = VObj o /\ object_wf o)
  /\ (forall acc s v r, parse_elements fuel acc s = Some (v, r) ->
        exists a, v = VArr a).
Proof.
  induction fuel as [|fuel (IHv & IHm & IHe)].
  - repeat split; intros; discriminate.
  - split; [|split].
    + intros s v r H. cbn [parse_value] in H.
      destruct (skip_ws s) as [|c t]; [discriminate|].
      repeat (break_match H; try discriminate);
        try (injection H as <- <-; split; [exact I | intros; try discriminate]).
      * injection H as <-. split; [exact I | constructor].
      * apply IHm in H; [|split; [exact I | constructor]].
        destruct H as (o & -> & Ho). split; [exact I|]. now intros ? [= <-].
      * apply IHe in H as (a & ->). split; [exact I | discriminate].
      * injection H as <- <-. split; [|discriminate].
        eapply parse_json_number_wf; eassumption.
    + intros acc s v r H Hacc. cbn [parse_members] in H.
      repeat (break_match H; try discriminate).
      * eapply IHm; [eassumption|]. apply object_wf_define; [|assumption].
        eapply IHv; eassumption.
      * injection H as <- <-. eexists; split; [reflexivity|].
        apply object_wf_define; [|assumption]. eapply IHv; eassumption.
    + intros acc s v r H. cbn [parse_elements] in H.
      repeat (break_match H; try discriminate).
      * eapply IHe; eassumption.
      * injection H as <- <-. eexists; reflexivity.
Qed.

Lemma JSON_parse_object_wf s o : JSON_parse s = Some (VObj o) -> object_wf o.
Proof.
  unfold JSON_parse. intros H.
  destruct (parse_value _ s) as [[v r]|] eqn:E; [|discriminate].
  destruct (skip_ws r); [|discriminate]. injection H as ->.
  destruct (parse_wf (2 + 2 * length s)) as (Hv & _). now apply (Hv _ _ _ E).
Qed.

(** ** The parser has fuel enough *)

Lemma length_skip_ws s : length (skip_ws s) <= length s.
Proof.
  induction s as [|c r IH]; simpl; [lia|].
  destruct (is_json_whitespace c); simpl; lia.
Qed.

Lemma skip_ws_cons s c r : skip_ws s = c :: r -> length r < length s.
Proof. intros H. pose proof (length_skip_ws s) as L. rewrite H in L. simpl in L. lia. Qed.

Lemma length_parse_string_body s : forall t r,
  parse_string_body s = Some (t, r) -> length r < length s.
Proof.
  remember (length s) as n eqn:Hn. revert s Hn.
  induction n as [n IH] using lt_wf_ind. intros s Hn t r H.
  destruct s as [|c s']; [discriminate|]. cbn [parse_string_body] in H.
  simpl in Hn.
  destruct (c =? ch_quote)%N; [injection H as <- <-; lia|].
  destruct (c =? ch_backslash)%N.
  - destruct s' as [|e s'']; [discriminate|]. simpl in Hn.
    destruct (e =? chr "u")%N.
    + destruct s'' as [|h1 [|h2 [|h3 [|h4 s4]]]]; try discriminate. simpl in Hn.
      destruct (hex4 h1 h2 h3 h4); [|discriminate].
      destruct (parse_string_body s4) as [[t' r']|] eqn:E; [|discriminate].
      injection H as <- <-.
      apply (IH (length s4) ltac:(lia) s4 eq_refl) in E. lia.
    + destruct (simple_escape e); [|discriminate].
      destruct (parse_string_body s'') as [[t' r']|] eqn:E; [|discriminate].
      injection H as <- <-.
      apply (IH (length s'') ltac:(lia) s'' eq_refl) in E. lia.
  - destruct (c <? 32)%N; [discriminate|].
    destruct (parse_string_body s') as [[t' r']|] eqn:E; [|discriminate].
    injection H as <- <-.
    apply (IH (length s') ltac:(lia) s' eq_refl) in E. lia.
Qed.

Lemma length_span_digits s :
  length (fst (span_digits s)) + length (snd (span_digits s)) = length s.
Proof.
  induction s as [|c r IH]; simpl; [reflexivity|].
  destruct (is_digit c); [|reflexivity].
  destruct (span_digits r) as [ds r']. simpl in *. lia.
Qed.

Lemma length_parse_sign s : length (snd (parse_sign s)) <= length s.
Proof.
  destruct s as [|c r]; simpl; [lia|].
  destruct (c =? chr "+")%N; [simpl; lia|]. destruct (c =? chr "-")%N; simpl; lia.
Qed.

Lemma length_parse_exponent s e r : parse_exponent s = Some (e, r) -> length r < length s.
Proof.
  destruct s as [|c s']; [discriminate|]. simpl.
  destruct ((c =? chr "e")%N || (c =? chr "E")%N); [|discriminate].
  pose proof (length_parse_sign s') as L1.
  destruct (parse_sign s') as [neg r1]. simpl in L1.
  pose proof (length_span_digits r1) as L2.
  destruct (span_digits r1) as [ds r2]. simpl in L2.
  destruct ds; [discriminate|]. intros [= _ <-]. lia.
Qed.

Lemma length_parse_json_number s x r : parse_json_number s = Some (x, r) -> length r < length s.
Proof.
  assert (Hu : forall neg s0, parse_json_unsigned neg s0 = Some (x, r) -> length r < length s0).
  { intros neg s0 H. unfold parse_json_unsigned in H.
    pose proof (length_span_digits s0) as L1.
    destruct (span_digits s0) as [ip r1]. simpl in L1.
    destruct ip as [|d ip]; [discriminate|].
    destruct (valid_int_part (d :: ip)); [|discriminate].
    assert (L2 : forall fp r2, parse_fraction r1 = Some (fp, r2) -> length r2 <= length r1).
    { intros fp r2 Hf. unfold parse_fraction in Hf.
      destruct r1 as [|c r1']; [injection Hf as <- <-; lia|].
      destruct (c =? chr ".")%N; [|injection Hf as <- <-; lia].
      pose proof (length_span_digits r1') as L.
      destruct (span_digits r1') as [fp' r2']. simpl in L.
      destruct fp'; [discriminate|]. injection Hf as <- <-. simpl in *. lia. }
    destruct (parse_fraction r1) as [[fp r2]|]; [|discriminate].
    specialize (L2 fp r2 eq_refl).
    assert (L3 : forall e r3, parse_json_exponent r2 = Some (e, r3) -> length r3 <= length r2).
    { intros e r3 He. unfold parse_json_exponent in He.
      destruct r2 as [|c r2']; [injection He as <- <-; lia|].
      destruct ((c =? chr "e")%N || (c =? chr "E")%N); [|injection He as <- <-; lia].
      apply length_parse_exponent in He. lia. }
    destruct (parse_json_exponent r2) as [[e r3]|]; [|discriminate].
    specialize (L3 e r3 eq_refl). injection H as <- <-. simpl in *. lia. }
  unfold parse_json_number. destruct s as [|c s']; [discriminate|].
  destruct (c =? chr "-")%N; intros H; apply Hu in H; simpl in *; lia.
Qed.

Lemma length_strip_prefix p : forall s r, strip_prefix p s = Some r -> length r <= length s.
Proof.
  induction p as [|a p IH]; intros s r; simpl.
  - intros [= ->]. lia.
  - destruct s as [|b s']; [discriminate|]. destruct (a =? b)%N; [|discriminate].
    intros H. apply IH in H. simpl. lia.
Qed.

Lemma length_parse fuel :
  (forall s v r, parse_value fuel s = Some (v, r) -> length r < length s)
  /\ (forall acc s v r, parse_members fuel acc s = Some (v, r) -> length r < length s)
  /\ (forall acc s v r, parse_elements fuel acc s = Some (v, r) -> length r < length s).
Proof.
  induction fuel as [|fuel (IHv & IHm & IHe)].
  - repeat split; intros; discriminate.
  - split; [|split].
    + intros s v r H. cbn [parse_value] in H.
      destruct (skip_ws s) as [|c t] eqn:Es; [discriminate|].
      apply skip_ws_cons in Es.
      destruct (c =? chr "{")%N.
      { destruct (skip_ws t) as [|c2 r2] eqn:E2; [discriminate|]. apply skip_ws_cons in E2.
        destruct (c2 =? chr "}")%N; [injection H as <- <-; lia|]. apply IHm in H. lia. }
      destruct (c =? chr "[")%N.
      { destruct (skip_ws t) as [|c2 r2] eqn:E2; [discriminate|]. apply skip_ws_cons in E2.
        destruct (c2 =? chr "]")%N; [injection H as <- <-; lia|]. apply IHe in H. lia. }
      destruct (c =? ch_quote)%N.
      { destruct (parse_string_body t) as [[t' r']|] eqn:E; [|discriminate].
        apply length_parse_string_body in E. injection H as <- <-. lia. }
      destruct (c =? chr "t")%N.
      { destruct (strip_prefix (str "rue") t) as [r'|] eqn:E; [|discriminate].
        apply length_strip_prefix in E. injection H as <- <-. lia. }
      destruct (c =? chr "f")%N.
      { destruct (strip_prefix (str "alse") t) as [r'|] eqn:E; [|discriminate].
        apply length_strip_prefix in E. injection H as <- <-. lia. }
      destruct (c =? chr "n")%N.
      { destruct (strip_prefix (str "ull") t) as [r'|] eqn:E; [|discriminate].
        apply length_strip_prefix in E. injection H as <- <-. lia. }
      destruct (parse_json_number (c :: t)) as [[x r']|] eqn:E; [|discriminate].
      apply length_parse_json_number in E. injection H as <- <-. simpl in E. lia.
    + intros acc s v r H. cbn [parse_members] in H.
      destruct (skip_ws s) as [|c t] eqn:Es; [discriminate|]. apply skip_ws_cons in Es.
      destruct (c =? ch_quote)%N; [|discriminate].
      destruct (parse_string_body t) as [[k r1]|] eqn:E1; [|discriminate].
      apply length_parse_string_body in E1.
      destruct (skip_ws r1) as [|c1 r2] eqn:E2; [discriminate|]. apply skip_ws_cons in E2.
      destruct (c1 =? chr ":")%N; [|discriminate].
      destruct (parse_value fuel r2) as [[v' r3]|] eqn:E3; [|discriminate]. apply IHv in E3.
      destruct (skip_ws r3) as [|c3 r4] eqn:E4; [discriminate|]. apply skip_ws_cons in E4.
      destruct (c3 =? chr ",")%N; [apply IHm in H; lia|].
      destruct (c3 =? chr "}")%N; [|discriminate]. injection H as <- <-. lia.
    + intros acc s v r H. cbn [parse_elements] in H.
      destruct (parse_value fuel s) as [[v' r1]|] eqn:E1; [|discriminate]. apply IHv in E1.
      destruct (skip_ws r1) as [|c r2] eqn:E2; [discriminate|]. apply skip_ws_cons in E2.
      destruct (c =? chr ",")%N; [apply IHe in H; lia|].
      destruct (c =? chr "]")%N; [|discriminate]. injection H as <- <-. lia.
Qed.

Lemma parse_fuel f :
  (forall f' s, 2 * length s + 2 <= f -> 2 * length s + 2 <= f' ->
     parse_value f s = parse_value f' s)
  /\ (forall f' acc s, 2 * length s + 3 <= f -> 2 * length s + 3 <= f' ->
        parse_members f acc s = parse_members f' acc s)
  /\ (forall f' acc s, 2 * length s + 3 <= f -> 2 * length s + 3 <= f' ->
        parse_elements f acc s = parse_elements f' acc s).
Proof.
  induction f as [|f (IHv & IHm & IHe)].
  - repeat split; intros; lia.
  - split; [|split].
    + intros [|f'] s Hf Hf'; [lia|]. cbn [parse_value].
      destruct (skip_ws s) as [|c t] eqn:Es; [reflexivity|]. apply skip_ws_cons in Es.
      destruct (c =? chr "{")%N.
      { destruct (skip_ws t) as [|c2 r2]; [reflexivity|].
        destruct (c2 =? chr "}")%N; [reflexivity|]. apply IHm; lia. }
      destruct (c =? chr "[")%N.
      { destruct (skip_ws t) as [|c2 r2]; [reflexivity|].
        destruct (c2 =? chr "]")%N; [reflexivity|]. apply IHe; lia. }
      reflexivity.
    + intros [|f'] acc s Hf Hf'; [lia|]. cbn [parse_members].
      destruct (skip_ws s) as [|c t] eqn:Es; [reflexivity|]. apply skip_ws_cons in Es.
      destruct (c =? ch_quote)%N; [|reflexivity].
      destruct (parse_string_body t) as [[k r1]|] eqn:E1; [|reflexivity].
      apply length_parse_string_body in E1.
      destruct (skip_ws r1) as [|c1 r2] eqn:E2; [reflexivity|]. apply skip_ws_cons in E2.
      destruct (c1 =? chr ":")%N; [|reflexivity].
      rewrite (IHv f' r2) by lia.
      destruct (parse_value f' r2) as [[v' r3]|] eqn:E3; [|reflexivity].
      apply (proj1 (length_parse f')) in E3.
      destruct (skip_ws r3) as [|c3 r4] eqn:E4; [reflexivity|]. apply skip_ws_cons in E4.
      destruct (c3 =? chr ",")%N; [apply IHm; lia | reflexivity].
    + intros [|f'] acc s Hf Hf'; [lia|]. cbn [parse_elements].
      rewrite (IHv f' s) by lia.
      destruct (parse_value f' s) as [[v' r1]|] eqn:E1; [|reflexivity].
      apply (proj1 (length_parse f')) in E1.
      destruct (skip_ws r1) as [|c r2] eqn:E2; [reflexivity|]. apply skip_ws_cons in E2.
      destruct (c =? chr ",")%N; [apply IHe; lia | reflexivity].
Qed.

(** More fuel than [JSON_parse] gives changes nothing. *)
Theorem parse_value_fuel s f :
  2 + 2 * length s <= f -> parse_value f s = parse_value (2 + 2 * length s) s.
Proof. intros H. apply (proj1 (parse_fuel f)); lia. Qed.

(** ** loadPrices and the click handler, unfolded *)

Lemma loadPrices_unfold st :
  loadPrices st =
  match persisted st with
  | None => Throw SyntaxError st
  | Some data =>
      match Object_keys data with
      | inl e => Throw e (set_pricesList [] st)
      | inr keys =>
          forEach keys (fun code =>
            let* text := lift (call_toFixed2 (get_own data code)) in
            appendChild (row code text)) (set_pricesList [] st)
      end
  end.
Proof.
  unfold loadPrices, persisted, bind, getItem, gets, JSON_parse_or_throw, modify.
  destruct (JSON_parse _) as [data|]; [|reflexivity].
  unfold ret. cbv beta iota.
  destruct (Object_keys data); reflexivity.
Qed.

Lemma forEach_rows data keys : forall st,
  Forall (fun k => exists x, get_own data k = Some (VNum x)) keys ->
  forEach keys (fun code =>
    let* text := lift (call_toFixed2 (get_own data code)) in
    appendChild (row code text)) st
  = Return tt (set_pricesList
      (pricesList st ++ List.map (fun k => row k (price_text (get_own data k))) keys) st).
Proof.
  induction keys as [|k r IH]; intros st Hall.
  - simpl. rewrite app_nil_r. destruct st; reflexivity.
  - inversion Hall as [|? ? (x & Hx) Hr]; subst.
    cbn [forEach]. unfold bind at 1. unfold bind at 1. rewrite Hx. simpl lift.
    unfold ret, appendChild, modify. rewrite IH by assumption.
    cbn [List.map]. rewrite Hx. simpl. rewrite <- app_assoc. reflexivity.
Qed.

Lemma keys_ordered_lookup {V} (o : list (jsstring * V)) k v :
  own_key_order o -> In (k, v) o -> obj_lookup k o = Some v.
Proof.
  unfold own_key_order. induction o as [|[k' v'] r IH]; simpl; [tauto|].
  intros [Hall Hr] [E|Hin].
  - injection E as -> ->. now rewrite bool_decide_eq_true_2.
  - rewrite bool_decide_eq_false_2; [auto|].
    intros ->. rewrite List.Forall_forall in Hall.
    destruct (Hall k) as [_ Hne]; [|congruence].
    apply in_map_iff. now exists (k, v).
Qed.

Lemma prices_only_spec o :
  prices_only o = true <->
  Forall (fun e => exists x, snd e = VNum x /\ isFinite x = true) o.
Proof.
  unfold prices_only. rewrite forallb_forall, List.Forall_forall.
  split; intros H e He; specialize (H e He).
  - destruct (snd e); try discriminate. eauto.
  - destruct H as (x & -> & Hx). exact Hx.
Qed.

Lemma loadPrices_ledger st o :
  persisted st = Some (VObj o) -> own_key_order o ->
  Forall (fun e => exists x, snd e = VNum x) o ->
  loadPrices st = Return tt (set_pricesList (price_rows o) st).
Proof.
  intros Hp Hord Hall. rewrite loadPrices_unfold, Hp. cbn [Object_keys].
  rewrite (forEach_rows (VObj o)).
  - unfold set_pricesList. simpl. f_equal. f_equal. unfold price_rows. rewrite List.map_map.
    apply List.map_ext_in. intros [k v] Hin. simpl.
    now rewrite (keys_ordered_lookup o k v Hord Hin).
  - apply List.Forall_map. rewrite List.Forall_forall in *. intros [k v] Hin.
    destruct (Hall _ Hin) as [x Hx]. simpl in Hx. subst v. exists x. simpl.
    now apply keys_ordered_lookup.
Qed.

Lemma savePrice_click_unfold st :
  savePrice_click st =
  if negb (truthy (currentCode st)) || isNaN (parseFloat (priceInput st))
  then Return tt st
  else
    match persisted st with
    | None => Throw SyntaxError st
    | Some data =>
        match assign data (default [] (currentCode st)) (parseFloat (priceInput st)) with
        | inl e => Throw e st
        | inr data' =>
            match loadPrices (set_localStorage
                                (<[prices_key := JSON_stringify data']> (localStorage st)) st) with
            | Return _ st2 => Return tt (set_currentCode None (set_priceEntry_hidden true st2))
            | Throw e st2 => Throw e st2
            end
        end
    end.
Proof.
  unfold persisted.
  cbv [savePrice_click bind gets getItem JSON_parse_or_throw ret throw setItem modify].
  destruct (negb _ || _); [reflexivity|].
  destruct (JSON_parse _) as [data|]; [|reflexivity].
  destruct (assign _ _ _) as [e|data']; [reflexivity|]. cbv [lift ret].
  destruct (loadPrices _); reflexivity.
Qed.

(** ** What a save leaves in the storage *)

Lemma persisted_after_write st text :
  text <> [] ->
  persisted (set_localStorage (<[prices_key := text]> (localStorage st)) st) = JSON_parse text.
Proof.
  intros H. unfold persisted. simpl. rewrite lookup_insert_eq.
  destruct text; [congruence | reflexivity].
Qed.

(** ** Reading a property after a write *)

Section Lookup.
Context {V : Type}.
Implicit Types o : list (jsstring * V).

Lemma obj_lookup_replace c k v o :
  obj_lookup c (obj_replace k v o) =
  if bool_decide (c = k) then (match obj_lookup k o with Some _ => Some v | None => None end)
  else obj_lookup c o.
Proof.
  induction o as [|[k' v'] r IH]; simpl.
  - now destruct (bool_decide (c = k)).
  - destruct (bool_decide_reflect (k' = k)) as [->|Hne]; simpl.
    + destruct (bool_decide_reflect (c = k)) as [->|Hc].
      * now rewrite bool_decide_eq_true_2.
      * rewrite bool_decide_eq_false_2 by congruence. reflexivity.
    + destruct (bool_decide_reflect (k' = c)) as [->|Hc'].
      * rewrite bool_decide_eq_false_2 by congruence. reflexivity.
      * exact IH.
Qed.

Lemma obj_lookup_insert c k v o :
  obj_lookup k o = None ->
  obj_lookup c (obj_insert k v o) = if bool_decide (c = k) then Some v else obj_lookup c o.
Proof.
  induction o as [|[k' v'] r IH]; simpl; intros Hk.
  - destruct (bool_decide_reflect (k = c)) as [->|Hne].
    + now rewrite bool_decide_eq_true_2.
    + rewrite bool_decide_eq_false_2 by congruence. reflexivity.
  - destruct (bool_decide_reflect (k' = k)) as [->|Hne]; [discriminate|].
    destruct (precedes k' k); simpl.
    + destruct (bool_decide_reflect (k' = c)) as [->|Hc'].
      * rewrite bool_decide_eq_false_2 by congruence. reflexivity.
      * now apply IH.
    + destruct (bool_decide_reflect (k = c)) as [->|Hc].
      * now rewrite bool_decide_eq_true_2.
      * rewrite (bool_decide_eq_false_2 (c = k)) by congruence. reflexivity.
Qed.

End Lookup.

Lemma obj_lookup_assign c o k x :
  obj_lookup c (obj_assign o k x) =
  if bool_decide (c = k)
  then (match obj_lookup k o with
        | Some _ => Some (VNum x)
        | None => if bool_decide (k = str "__proto__") then None else Some (VNum x)
        end)
  else obj_lookup c o.
Proof.
  unfold obj_assign. destruct (obj_lookup k o) eqn:E.
  - rewrite obj_lookup_replace, E. reflexivity.
  - destruct (bool_decide (k = str "__proto__")).
    + destruct (bool_decide_reflect (c = k)) as [->|]; [exact E | reflexivity].
    + now rewrite obj_lookup_insert.
Qed.

Lemma obj_lookup_map_reload c o :
  obj_lookup c (List.map reload_member o) = reload_value <$> obj_lookup c o.
Proof.
  induction o as [|[k v] r IH]; simpl; [reflexivity|].
  destruct (bool_decide (k = c)); [reflexivity | exact IH].
Qed.

(** ** The object after an assignment *)

Lemma object_wf_assign o k x :
  wf_number x -> object_wf o -> object_wf (obj_assign o k x).
Proof.
  intros Hx Ho. unfold obj_assign.
  pose proof (object_wf_define k (VNum x) o Hx Ho) as Hd. unfold obj_define in Hd.
  destruct (obj_lookup k o); [exact Hd|].
  destruct (bool_decide _); [exact Ho | exact Hd].
Qed.

Lemma Forall_assign (P : value -> Prop) o k x :
  P (VNum x) -> Forall (fun e => P (snd e)) o ->
  Forall (fun e => P (snd e)) (obj_assign o k x).
Proof.
  intros Hx Ho. unfold obj_assign. destruct (obj_lookup k o).
  - now apply Forall_obj_replace.
  - destruct (bool_decide _); [exact Ho | now apply Forall_obj_insert].
Qed.

Lemma number_valued_intro o :
  object_wf o -> Forall (fun e => exists x, snd e = VNum x) o -> Forall number_valued o.
Proof.
  intros [_ Hwf] Hnum. rewrite List.Forall_forall in *. intros e He.
  destruct (Hnum e He) as [x Hx]. exists x. split; [assumption|].
  specialize (Hwf e He). now rewrite Hx in Hwf.
Qed.

Lemma prices_only_numbers o :
  prices_only o = true -> Forall (fun e => exists x, snd e = VNum x) o.
Proof.
  intros H. apply prices_only_spec in H. eapply List.Forall_impl; [|exact H].
  intros e (x & Hx & _). eauto.
Qed.

Lemma prices_only_assign o k x :
  isFinite x = true -> prices_only o = true -> prices_only (obj_assign o k x) = true.
Proof.
  intros Hx Ho. apply prices_only_spec. apply prices_only_spec in Ho.
  apply (Forall_assign (fun v => exists y, v = VNum y /\ isFinite y = true)); eauto.
Qed.

Lemma isFinite_positive_zero x : isFinite (positive_zero x) = isFinite x.
Proof. now destruct x. Qed.

Lemma prices_only_reload o :
  prices_only o = true -> prices_only (List.map reload_member o) = true.
Proof.
  unfold prices_only. rewrite !forallb_forall. intros H e He.
  apply in_map_iff in He as (e0 & <- & He0). specialize (H e0 He0).
  destruct e0 as [k v]. destruct v; try discriminate.
  cbn [snd is_price] in H. cbn [reload_member snd reload_value]. rewrite H.
  cbn [is_price]. now rewrite isFinite_positive_zero.
Qed.

(** ** One save on a ledger *)

Lemma persisted_after_save st o k x :
  wf_number x -> object_wf o -> Forall (fun e => exists y, snd e = VNum y) o ->
  persisted (set_localStorage
               (<[prices_key := JSON_stringify (VObj (obj_assign o k x))]> (localStorage st)) st)
  = Some (VObj (List.map reload_member (obj_assign o k x))).
Proof.
  intros Hx Ho Hnum. rewrite persisted_after_write by discriminate.
  pose proof (object_wf_assign o k x Hx Ho) as Ho'.
  apply JSON_parse_stringify_ledger; [apply Ho'|].
  apply number_valued_intro; [assumption|].
  apply (Forall_assign (fun v => exists y, v = VNum y)); eauto.
Qed.

Lemma savePrice_click_ledger st code o :
  currentCode st = Some code -> code <> [] ->
  isFinite (parseFloat (priceInput st)) = true ->
  persisted st = Some (VObj o) -> prices_only o = true ->
  let o' := List.map reload_member (obj_assign o code (parseFloat (priceInput st))) in
  let st1 := set_localStorage
               (<[prices_key := JSON_stringify (VObj (obj_assign o code (parseFloat (priceInput st))))]>
                  (localStorage st)) st in
  savePrice_click st =
    Return tt (set_currentCode None (set_priceEntry_hidden true (set_pricesList (price_rows o') st1)))
  /\ persisted st1 = Some (VObj o') /\ prices_only o' = true.
Proof.
  intros Hcode Hne Hfin Hp Hprices o' st1.
  pose proof (JSON_parse_object_wf _ _ Hp) as Ho.
  pose proof (parseFloat_wf (priceInput st)) as Hx.
  assert (Hp1 : persisted st1 = Some (VObj o')).
  { apply persisted_after_save; auto using prices_only_numbers. }
  assert (Ho' : prices_only o' = true).
  { now apply prices_only_reload, prices_only_assign. }
  split; [|split; assumption].
  rewrite savePrice_click_unfold, Hcode, Hp.
  assert (Ht : truthy (Some code) = true) by (destruct code; [congruence | reflexivity]).
  rewrite Ht. replace (isNaN (parseFloat (priceInput st))) with false
    by (destruct (parseFloat (priceInput st)); try reflexivity; discriminate).
  change (default [] (Some code)) with code.
  cbn [negb orb assign]. fold st1.
  rewrite (loadPrices_ledger st1 o' Hp1).
  - reflexivity.
  - apply own_key_order_reload. apply object_wf_assign; assumption.
  - now apply prices_only_numbers.
Qed.

(** ** parseFloat reads a prefix *)










(** ** Sequences of saves *)

Lemma save_on_ledger st c input o :
  c <> [] -> isFinite (parseFloat input) = true ->
  persisted st = Some (VObj o) -> prices_only o = true ->
  exists st',
    save c input st = Return tt st'
    /\ persisted st' = Some (VObj (List.map reload_member (obj_assign o c (parseFloat input))))
    /\ prices_only (List.map reload_member (obj_assign o c (parseFloat input))) = true.
Proof.
  intros Hc Hfin Hp Ho.
  destruct c as [|c0 c']; [congruence|].
  set (st0 := set_priceInput input
                (set_priceEntry_hidden false
                   (set_priceInput []
                      (set_scannedCodeSpan (c0 :: c')
                         (set_scannerContainer []
                            (set_currentCode (Some (c0 :: c'))
                               (set_quagga_running false (set_quagga_subscribers 0 st)))))))).
  assert (Hrun : save (c0 :: c') input st = savePrice_click st0) by reflexivity.
  destruct (savePrice_click_ledger st0 (c0 :: c') o) as (Hs & Hp1 & Ho1);
    [reflexivity | discriminate | exact Hfin | exact Hp | exact Ho |].
  rewrite Hrun. eexists. split; [exact Hs|]. split; [exact Hp1 | exact Ho1].
Qed.

Lemma save_all_ledger ops : forall st o,
  Forall valid_save ops -> persisted st = Some (VObj o) -> prices_only o = true ->
  exists st',
    save_all ops st = Return tt st'
    /\ persisted st' = Some (VObj (ledger_after ops o))
    /\ prices_only (ledger_after ops o) = true.
Proof.
  induction ops as [|[c input] ops IH]; intros st o Hall Hp Ho.
  - exists st. repeat split; assumption.
  - inversion Hall as [|? ? (Hc & _ & Hfin) Hrest]; subst. simpl in Hc, Hfin.
    destruct (save_on_ledger st c input o Hc Hfin Hp Ho) as (st1 & Hs & Hp1 & Ho1).
    destruct (IH st1 _ Hrest Hp1 Ho1) as (st' & Hs' & Hp' & Ho').
    exists st'. split; [|split; assumption].
    unfold save_all. cbn [forEach fst snd]. unfold bind at 1. rewrite Hs. exact Hs'.
Qed.

Lemma reload_value_idem v : reload_value (reload_value v) = reload_value v.
Proof.
  destruct v as [| | x | | |]; try reflexivity. simpl.
  destruct (isFinite x) eqn:E; [|reflexivity]. simpl.
  rewrite isFinite_positive_zero, E. now destruct x.
Qed.

Lemma last_write_cons c input ops k :
  last_write ((c, input) :: ops) k =
  match last_write ops k with
  | Some y => Some y
  | None => if bool_decide (c = k) then Some (parseFloat input) else None
  end.
Proof.
  unfold last_write. cbn [fold_left fst snd].
  assert (H : forall init,
    fold_left (fun acc op => if bool_decide (fst op = k) then Some (parseFloat (snd op)) else acc) ops init
    = match fold_left (fun acc op => if bool_decide (fst op = k) then Some (parseFloat (snd op)) else acc) ops None with
      | Some y => Some y
      | None => init
      end).
  { induction ops as [|[c1 i1] ops IH]; intros init; simpl; [reflexivity|].
    destruct (bool_decide (c1 = k)); [|apply IH].
    rewrite (IH (Some (parseFloat i1))).
    now destruct (fold_left _ ops None). }
  apply H.
Qed.

Lemma ledger_after_lookup ops : forall o k,
  Forall valid_save ops ->
  same_price (obj_lookup k (ledger_after ops o))
             (match last_write ops k with
              | Some x => Some (VNum x)
              | None => obj_lookup k o
              end).
Proof.
  unfold same_price.
  induction ops as [|[c input] ops IH]; intros o k Hall; [reflexivity|].
  inversion Hall as [|? ? (_ & Hproto & _) Hrest]; subst. simpl in Hproto.
  change (ledger_after ((c, input) :: ops) o)
    with (ledger_after ops (List.map reload_member (obj_assign o c (parseFloat input)))).
  rewrite IH by assumption. rewrite last_write_cons.
  destruct (last_write ops k) as [y|]; [reflexivity|].
  rewrite obj_lookup_map_reload, obj_lookup_assign.
  rewrite (bool_decide_eq_false_2 (c = str "__proto__")) by assumption.
  destruct (bool_decide_reflect (k = c)) as [->|Hne].
  - rewrite bool_decide_eq_true_2 by reflexivity.
    destruct (obj_lookup c o); cbn [fmap option_fmap option_map];
      now rewrite reload_value_idem.
  - rewrite bool_decide_eq_false_2 by congruence.
    destruct (obj_lookup k o); cbn [fmap option_fmap option_map];
      [now rewrite reload_value_idem | reflexivity].
Qed.

Lemma keys_ordered_NoDup ks : keys_ordered ks -> NoDup ks.
Proof.
  induction ks as [|k r IH]; simpl; [constructor|]. intros [Hall Hr].
  constructor; [|auto]. intros Hin. rewrite List.Forall_forall in Hall.
  apply list_elem_of_In in Hin. now destruct (Hall k Hin).
Qed.

(** After any sequence of saves of scanned codes other than [__proto__] with
    finite prices on a ledger of finite prices, every save completes, and
    the ledger read back holds each code once: a code that was saved has the
    price of its last save, up to the sign of a zero, and every other code
    has what it had before. *)
Theorem saves_last_write_wins ops st o :
  persisted st = Some (VObj o) -> prices_only o = true -> Forall valid_save ops ->
  exists st' o',
    save_all ops st = Return tt st'
    /\ persisted st' = Some (VObj o')
    /\ NoDup (List.map fst o')
    /\ forall c, same_price (obj_lookup c o')
                   (match last_write ops c with
                    | Some x => Some (VNum x)
                    | None => obj_lookup c o
                    end).
Proof.
  intros Hp Ho Hall.
  destruct (save_all_ledger ops st o Hall Hp Ho) as (st' & Hs & Hp' & _).
  exists st', (ledger_after ops o). repeat split; try assumption.
  - apply keys_ordered_NoDup. now destruct (JSON_parse_object_wf _ _ Hp').
  - intros c. now apply ledger_after_lookup.
Qed.

(** * Facts about the service worker *)

(** ** The deletions of the activate listener *)

Lemma caches_delete_skip kept n c r :
  Forall (fun e => fst e = CACHE_NAME) kept -> n <> CACHE_NAME ->
  caches_delete n (kept ++ (n, c) :: r) = kept ++ r.
Proof.
  intros Hk Hn. induction Hk as [|[n' c'] kept Hh Hk IH]; simpl.
  - now rewrite bool_decide_eq_true_2.
  - simpl in Hh. subst n'. rewrite bool_decide_eq_false_2 by congruence. now rewrite IH.
Qed.

Lemma activate_fold r : forall kept,
  Forall (fun e => fst e = CACHE_NAME) kept ->
  fold_left activate_step (caches_keys r) (kept ++ r) = kept ++ List.filter is_current r.
Proof.
  induction r as [|[n c] r IH]; intros kept Hk; simpl; [reflexivity|].
  unfold activate_step at 2. unfold is_current at 1. simpl fst.
  destruct (bool_decide_reflect (n = CACHE_NAME)) as [->|Hn]; simpl negb; cbv iota.
  - change (kept ++ (CACHE_NAME, c) :: r) with (kept ++ [(CACHE_NAME, c)] ++ r).
    rewrite app_assoc, IH.
    + now rewrite <- app_assoc.
    + apply Forall_app. split; [assumption | now constructor].
  - rewrite caches_delete_skip by assumption. now apply IH.
Qed.

Lemma on_activate_filter cs :
  on_activate cs = (Fulfilled tt, List.filter is_current cs).
Proof.
  unfold on_activate. f_equal. apply (activate_fold cs []). constructor.
Qed.

Lemma caches_lookup_filter_current cs :
  caches_lookup CACHE_NAME (List.filter is_current cs) = caches_lookup CACHE_NAME cs.
Proof.
  induction cs as [|[n c] r IH]; simpl; [reflexivity|].
  unfold is_current at 1. simpl fst.
  destruct (bool_decide (n = CACHE_NAME)) eqn:E; simpl; rewrite ?E; [reflexivity | exact IH].
Qed.

Lemma caches_keys_filter cs :
  caches_keys (List.filter is_current cs) =
  List.filter (fun n => bool_decide (n = CACHE_NAME)) (caches_keys cs).
Proof.
  unfold caches_keys. induction cs as [|[n c] r IH]; simpl; [reflexivity|].
  unfold is_current at 1. simpl fst.
  destruct (bool_decide (n = CACHE_NAME)); simpl; congruence.
Qed.

Lemma fetch_all_None net urls :
  Exists (fun u => fetch_fails net u = true) urls -> fetch_all net urls = None.
Proof.
  unfold fetch_fails. induction urls as [|u r IH]; intros H; inversion H; subst; simpl.
  - destruct (net (GET u)) as [resp|]; [|reflexivity].
    destruct (response_ok resp); [discriminate | reflexivity].
  - destruct (net (GET u)) as [resp|]; [|reflexivity].
    destruct (response_ok resp); [|reflexivity]. now rewrite IH.
Qed.

Lemma fetch_all_Some net urls :
  Forall (fun u => fetch_fails net u = false) urls ->
  exists entries, fetch_all net urls = Some entries
    /\ List.map fst entries = urls
    /\ Forall (fun e => net (GET (fst e)) = Some (snd e)) entries.
Proof.
  unfold fetch_fails. induction 1 as [|u r Hu Hr (entries & He & Hk & Hall)]; simpl.
  - exists []. repeat split; constructor.
  - destruct (net (GET u)) as [resp|] eqn:E; [|discriminate].
    destruct (response_ok resp); [|discriminate]. rewrite He.
    exists ((u, resp) :: entries). simpl. repeat split; [congruence|]. now constructor.
Qed.

Lemma cache_put_all_other entries : forall (c : gmap string response) u,
  ~ In u (List.map fst entries) -> cache_put_all entries c !! u = c !! u.
Proof.
  unfold cache_put_all. induction entries as [|[u0 r0] rest IH]; intros c u Hnin; simpl; [reflexivity|].
  rewrite IH by (intros H; apply Hnin; now right).
  apply lookup_insert_ne. intros ->. apply Hnin. now left.
Qed.

Lemma cache_put_all_stored (net : network) entries : forall (c : gmap string response) u,
  Forall (fun e => net (GET (fst e)) = Some (snd e)) entries ->
  In u (List.map fst entries) -> cache_put_all entries c !! u = net (GET u).
Proof.
  induction entries as [|[u0 r0] rest IH]; intros c u Hall Hin; [destruct Hin|].
  inversion Hall as [|? ? Hh Hr]; subst. simpl in Hh.
  change (cache_put_all ((u0, r0) :: rest) c) with (cache_put_all rest (<[u0 := r0]> c)).
  destruct (in_dec string_dec u (List.map fst rest)) as [Hrest|Hrest].
  - now apply IH.
  - rewrite cache_put_all_other by assumption.
    destruct Hin as [<-|Hin]; [|contradiction]. simpl.
    now rewrite lookup_insert_eq, Hh.
Qed.

Lemma caches_lookup_open name cs :
  exists c, caches_lookup name (caches_open name cs) = Some c
    /\ c = default ∅ (caches_lookup name cs).
Proof.
  unfold caches_open. destruct (caches_lookup name cs) as [c|] eqn:E.
  - exists c. now rewrite E.
  - exists ∅. split; [|reflexivity].
    induction cs as [|[n c] r IH]; simpl in *.
    + now rewrite bool_decide_eq_true_2.
    + destruct (bool_decide (n = name)); [discriminate | now apply IH].
Qed.

Lemma caches_lookup_update name c c0 cs :
  caches_lookup name cs = Some c0 ->
  caches_lookup name (caches_update name c cs) = Some c.
Proof.
  induction cs as [|[n c1] r IH]; simpl; [discriminate|].
  destruct (bool_decide_reflect (n = name)) as [->|Hn]; simpl.
  - now rewrite bool_decide_eq_true_2.
  - rewrite bool_decide_eq_false_2 by assumption. exact IH.
Qed.

(** ** caches.match *)

Lemma caches_match_Some req cs resp :
  caches_match req cs = Some resp ->
  exists name c, In (name, c) cs /\ cache_match req c = Some resp.
Proof.
  induction cs as [|[n c] r IH]; simpl; [discriminate|].
  destruct (cache_match req c) as [resp'|] eqn:E.
  - intros [= ->]. exists n, c. split; [now left | assumption].
  - intros H. destruct (IH H) as (n' & c' & Hin & Hm). exists n', c'. split; [now right | assumption].
Qed.

Lemma caches_match_None req cs :
  caches_match req cs = None <->
  forall name c, In (name, c) cs -> cache_match req c = None.
Proof.
  induction cs as [|[n c] r IH]; simpl.
  - split; [intros _ ? ? [] | reflexivity].
  - destruct (cache_match req c) as [resp'|] eqn:E.
    + split; [discriminate|]. intros H. rewrite <- E. apply (H n c). now left.
    + rewrite IH. split.
      * intros H n' c' [[= <- <-]|Hin]; [assumption | eauto].
      * intros H n' c' Hin. apply (H n' c'). now right.
Qed.

(** ** loadPrices writes the list and nothing else *)

Lemma set_pricesList_same st : set_pricesList (pricesList st) st = st.
Proof. now destruct st. Qed.

Lemma forEach_rows_final data keys : forall st,
  exists l, final (forEach keys (fun code =>
              let* text := lift (call_toFixed2 (get_own data code)) in
              appendChild (row code text)) st) = set_pricesList l st.
Proof.
  induction keys as [|k r IH]; intros st.
  - exists (pricesList st). simpl. now rewrite set_pricesList_same.
  - cbn [forEach]. unfold bind at 1. unfold bind at 1.
    destruct (call_toFixed2 (get_own data k)) as [e|text]; simpl lift.
    + exists (pricesList st). simpl. now rewrite set_pricesList_same.
    + unfold ret, appendChild, modify. cbv beta iota.
      destruct (IH (set_pricesList (pricesList st ++ [row k text]) st)) as [l Hl].
      exists l. exact Hl.
Qed.

Lemma loadPrices_final st :
  exists l, final (loadPrices st) = set_pricesList l st.
Proof.
  rewrite loadPrices_unfold. destruct (persisted st) as [data|].
  - destruct (Object_keys data) as [e|keys].
    + now exists [].
    + destruct (forEach_rows_final data keys (set_pricesList [] st)) as [l Hl].
      exists l. now rewrite Hl.
  - exists (pricesList st). simpl. now rewrite set_pricesList_same.
Qed.

Lemma persisted_stored st s :
  localStorage st !! prices_key = Some s -> s <> [] -> persisted st = JSON_parse s.
Proof. unfold persisted. intros -> H. destruct s; [congruence | reflexivity]. Qed.

Lemma persisted_absent st :
  localStorage st !! prices_key = None \/ localStorage st !! prices_key = Some [] ->
  persisted st = Some (VObj []).
Proof. unfold persisted. now intros [-> | ->]. Qed.

Lemma loadPrices_string_throws st c t :
  persisted st = Some (VStr (c :: t)) ->
  loadPrices st = Throw TypeError (set_pricesList [] st).
Proof.
  intros Hp. rewrite loadPrices_unfold, Hp. cbn [Object_keys length].
  change (index_keys (S (length t)))
    with (str "0" :: List.map (fun i => digits_str (N_digits (N.of_nat i))) (seq 1 (length t))).
  cbn [forEach]. unfold bind at 1. unfold bind at 1.
  change (get_own (VStr (c :: t)) (str "0")) with (Some (VStr [c])).
  reflexivity.
Qed.

Lemma forEach_render data keys : forall st,
  forEach keys (fun code =>
    let* text := lift (call_toFixed2 (get_own data code)) in
    appendChild (row code text)) st
  = let r := render_rows data keys in
    finish (pricesList st ++ fst r, snd r) st.
Proof.
  induction keys as [|k r IH]; intros st.
  - simpl. unfold finish, ret. simpl. now rewrite app_nil_r, set_pricesList_same.
  - cbn [forEach render_rows]. unfold bind at 1. unfold bind at 1.
    destruct (call_toFixed2 (get_own data k)) as [e|text]; simpl lift.
    + unfold throw, finish. simpl. now rewrite app_nil_r, set_pricesList_same.
    + unfold ret, appendChild, modify. cbv beta iota. rewrite IH.
      destruct (render_rows data r) as [rows e]. unfold finish. simpl.
      rewrite <- app_assoc. reflexivity.
Qed.

Lemma loadPrices_render st :
  loadPrices st =
  match persisted st with
  | None => Throw SyntaxError st
  | Some data => finish (rendered data) st
  end.
Proof.
  rewrite loadPrices_unfold. destruct (persisted st) as [data|]; [|reflexivity].
  unfold rendered. destruct (Object_keys data) as [e|keys]; [reflexivity|].
  rewrite forEach_render. destruct (render_rows data keys) as [rows e].
  unfold finish. simpl. now destruct e.
Qed.

(** The list shown is the one a fresh [loadPrices] would show. *)
Lemma loadPrices_again st st2 s' :
  loadPrices st = Return tt st2 -> localStorage s' = localStorage st ->
  pricesList s' = pricesList st2 ->
  loadPrices s' = Return tt s'.
Proof.
  intros Hload Hsame Hrows. rewrite loadPrices_render in *.
  assert (Hp : persisted s' = persisted st) by (unfold persisted; now rewrite Hsame).
  rewrite Hp. destruct (persisted st) as [data|]; [|discriminate].
  unfold finish in *. destruct (snd (rendered data)); [discriminate|].
  injection Hload as <-. simpl in Hrows. rewrite <- Hrows. now rewrite set_pricesList_same.
Qed.

Lemma loadPrices_storage st : localStorage (final (loadPrices st)) = localStorage st.
Proof. destruct (loadPrices_final st) as [l ->]. reflexivity. Qed.

Lemma truthy_Some c : truthy c = true -> exists k, c = Some k /\ k <> [].
Proof. destruct c as [[|a k]|]; try discriminate. intros _. now eexists. Qed.


(** The test at the head of the handler. *)
Lemma savePrice_click_guard (st : state) :
  truthy (currentCode st) = false \/ isNaN (parseFloat (priceInput st)) = true ->
  savePrice_click st = Return tt st.
Proof.
  intros H. rewrite savePrice_click_unfold.
  destruct H as [-> | ->]; [reflexivity|]. now rewrite orb_true_r.
Qed.

(** * The two scenarios of the specification *)

(** The code 012345678905 is scanned, 3.99 is entered and saved: the ledger
    holds that price and the list shows 012345678905 and $3.99. *)
Example scenario_one_save :
  exists st',
    save (str "012345678905") (str "3.99") blank = Return tt st'
    /\ localStorage st' !! prices_key = Some one_price_text
    /\ persisted st' = Some (VObj one_price)
    /\ pricesList st' = [row (str "012345678905") (str "3.99")]
    /\ currentCode st' = None /\ priceEntry_hidden st' = true.
Proof.
  eexists. split; [vm_compute; reflexivity|].
  repeat (split; [vm_compute; reflexivity|]). vm_compute. reflexivity.
Qed.

(** Two saves of one code, 1.00 and then 2.50: one entry, shown as $2.50. *)
Example scenario_two_saves :
  exists st',
    save_all [(str "x", str "1.00"); (str "x", str "2.50")] blank = Return tt st'
    /\ persisted st' = Some (VObj [(str "x", VNum (Fin false [2; 5]%N 1))])
    /\ pricesList st' = [row (str "x") (str "2.50")].
Proof.
  eexists. split; [vm_compute; reflexivity|].
  split; vm_compute; reflexivity.
Qed.

(** * The claims *)

(** Claim C1, as amended.  What [loadPrices] does is decided by the value
    stored under [prices].  When it is absent or the empty string the list is
    emptied and nothing is thrown.  When it is a non-empty string that is not
    JSON, [JSON.parse] throws and the SyntaxError reaches the caller, the
    list being left as it was.  When it parses to an object whose values are
    numbers, the list gets one row per key.  And a list that is not empty
    comes only from a stored text that parses to an object or an array. *)
Theorem loadPrices_by_stored_value (st : state) :
  let item := localStorage st !! prices_key in
  ((item = None \/ item = Some []) ->
     loadPrices st = Return tt (set_pricesList [] st))
  /\ (forall s, item = Some s -> s <> [] -> JSON_parse s = None ->
        loadPrices st = Throw SyntaxError st)
  /\ (forall s o, item = Some s -> JSON_parse s = Some (VObj o) ->
        Forall (fun e => exists x, snd e = VNum x) o ->
        loadPrices st = Return tt (set_pricesList (price_rows o) st))
  /\ (forall st', loadPrices st = Return tt st' -> pricesList st' <> [] ->
        exists s v, item = Some s /\ JSON_parse s = Some v
                    /\ ((exists o, v = VObj o) \/ (exists a, v = VArr a))).
Proof.
  intros item. subst item. repeat split.
  - intros H. rewrite loadPrices_unfold, (persisted_absent st H). reflexivity.
  - intros s Hs Hne Hparse.
    now rewrite loadPrices_unfold, (persisted_stored st s Hs Hne), Hparse.
  - intros s o Hs Hparse Hnum.
    assert (Hne : s <> []) by (intros ->; discriminate).
    assert (Hp : persisted st = Some (VObj o)) by now rewrite (persisted_stored st s Hs Hne).
    apply loadPrices_ledger; [assumption | | assumption].
    now destruct (JSON_parse_object_wf s o Hparse).
  - intros st' Hload Hrows.
    destruct (localStorage st !! prices_key) as [[|c s]|] eqn:Hitem.
    + rewrite loadPrices_unfold, (persisted_absent st) in Hload by (now right).
      injection Hload as <-. now elim Hrows.
    + assert (Hp : persisted st = JSON_parse (c :: s)) by (now apply persisted_stored).
      exists (c :: s). destruct (JSON_parse (c :: s)) as [v|] eqn:Hparse.
      * exists v. repeat split.
        destruct v as [| b | x | [|c' t] | a | o]; eauto; exfalso.
        -- rewrite loadPrices_unfold, Hp in Hload. discriminate.
        -- rewrite loadPrices_unfold, Hp in Hload. injection Hload as <-. now apply Hrows.
        -- rewrite loadPrices_unfold, Hp in Hload. injection Hload as <-. now apply Hrows.
        -- rewrite loadPrices_unfold, Hp in Hload. injection Hload as <-. now apply Hrows.
        -- rewrite (loadPrices_string_throws st c' t Hp) in Hload. discriminate.
      * rewrite loadPrices_unfold, Hp in Hload. discriminate.
    + rewrite loadPrices_unfold, (persisted_absent st) in Hload by (now left).
      injection Hload as <-. now elim Hrows.
Qed.

(** The ledger of the end-to-end scenario, loaded. *)
Lemma loadPrices_by_stored_value_witness :
  loadPrices (with_stored one_price_text blank)
  = Return tt (set_pricesList (price_rows one_price) (with_stored one_price_text blank)).
Proof.
  apply (proj1 (proj2 (proj2 (loadPrices_by_stored_value (with_stored one_price_text blank))))
           one_price_text one_price).
  - reflexivity.
  - vm_compute. reflexivity.
  - repeat constructor. eexists. reflexivity.
Defined.

(** Claim C1 as stated fails.  With the text [{] stored, which is not JSON,
    [loadPrices] throws a SyntaxError; and with the array [[1]] stored, which
    is no mapping, the list is not empty. *)
Lemma loadPrices_corrupt_throws :
  JSON_parse (str "{") = None
  /\ loadPrices (with_stored (str "{") blank)
     = Throw SyntaxError (with_stored (str "{") blank)
  /\ JSON_parse (str "[1]") = Some (VArr [VNum (Fin false [1%N] 1)])
  /\ loadPrices (with_stored (str "[1]") blank)
     = Return tt (set_pricesList [row (str "0") (str "1.00")] (with_stored (str "[1]") blank)).
Proof. repeat split; vm_compute; reflexivity. Qed.

(** Claim C2, at the input where the code departs from it.  After a save of
    the scanned code [__proto__] with the price 3.99 on an empty ledger the
    handler completes, but the text persisted is [{}]: the ledger read back
    has no entry for the code and the list shows no row.  For every other
    sequence of saves the claim holds, see [saves_last_write_wins]. *)
Theorem save_of_proto_key_is_lost :
  last_write [(str "__proto__", str "3.99")] (str "__proto__")
  = Some (Fin false [3; 9; 9]%N 1)
  /\ exists st',
       save_all [(str "__proto__", str "3.99")] blank = Return tt st'
       /\ localStorage st' !! prices_key = Some (str "{}")
       /\ persisted st' = Some (VObj [])
       /\ pricesList st' = [].
Proof.
  split; [vm_compute; reflexivity|].
  eexists. split; [vm_compute; reflexivity|].
  split; [vm_compute; reflexivity|].
  split; [vm_compute; reflexivity | vm_compute; reflexivity].
Qed.




(** Claim C4.  When there is no scanned code ([currentCode] is [null] or
    empty) or the input does not parse as a number, the handler completes
    with the state exactly as it was: the storage is not written, and no
    alert or console message is added. *)
Theorem save_invalid_is_noop (st : state) :
  truthy (currentCode st) = false \/ isNaN (parseFloat (priceInput st)) = true ->
  savePrice_click st = Return tt st
  /\ localStorage (final (savePrice_click st)) = localStorage st
  /\ alerts (final (savePrice_click st)) = alerts st
  /\ console_errors (final (savePrice_click st)) = console_errors st.
Proof. intros H. now rewrite (savePrice_click_guard st H). Qed.

(** A scanned code and the input [abc]. *)
Lemma save_invalid_is_noop_witness :
  savePrice_click (entering (str "012345678905") (str "abc") (with_stored one_price_text blank))
  = Return tt (entering (str "012345678905") (str "abc") (with_stored one_price_text blank)).
Proof.
  apply (save_invalid_is_noop
           (entering (str "012345678905") (str "abc") (with_stored one_price_text blank))).
  right. reflexivity.
Defined.

(** Claim C5.  After the activate listener has run, the promise is
    fulfilled, the caches that remain are exactly the caches of before whose
    name is [CACHE_NAME], contents untouched, and the names that remain are
    computed from the names alone. *)
Theorem activate_keeps_only_the_current_cache (cs : list (string * gmap string response)) :
  fst (on_activate cs) = Fulfilled tt
  /\ (forall name c,
        In (name, c) (snd (on_activate cs)) <-> In (name, c) cs /\ name = CACHE_NAME)
  /\ caches_lookup CACHE_NAME (snd (on_activate cs)) = caches_lookup CACHE_NAME cs
  /\ caches_keys (snd (on_activate cs))
     = List.filter (fun name => bool_decide (name = CACHE_NAME)) (caches_keys cs).
Proof.
  rewrite on_activate_filter. cbn [fst snd]. split; [reflexivity|]. split; [|split].
  - intros name c. rewrite filter_In. unfold is_current. cbn [fst].
    now rewrite bool_decide_eq_true.
  - apply caches_lookup_filter_current.
  - apply caches_keys_filter.
Qed.

(** The cache of the earlier version goes, the current one stays. *)
Lemma activate_keeps_only_the_current_cache_witness :
  snd (on_activate two_generations) = [(CACHE_NAME, {[ "/"%string := page_v1 ]})]
  /\ ~ In ("price-scanner-cache-v0"%string, {[ "/"%string := page_v0 ]})
          (snd (on_activate two_generations)).
Proof.
  split; [vm_compute; reflexivity|].
  intros H.
  apply (proj1 (proj1 (proj2 (activate_keeps_only_the_current_cache two_generations)) _ _)) in H.
  destruct H as [_ H]. discriminate H.
Defined.

(** Claim C6.  If the fetch of one path of [URLS_TO_CACHE] fails (the
    request is rejected or the response is not ok) the promise of the install
    listener is rejected and no response is stored: the cache storage is the
    one [caches.open] left.  If no fetch fails the promise is fulfilled and
    the cache named [CACHE_NAME] answers a GET request of every path of the
    list with the response that was fetched. *)
Theorem install_is_all_or_nothing (net : network) (cs : list (string * gmap string response)) :
  (Exists (fun u => fetch_fails net u = true) URLS_TO_CACHE ->
     on_install net cs = (Rejected, caches_open CACHE_NAME cs))
  /\ (Forall (fun u => fetch_fails net u = false) URLS_TO_CACHE ->
        fst (on_install net cs) = Fulfilled tt
        /\ exists c,
             caches_lookup CACHE_NAME (snd (on_install net cs)) = Some c
             /\ forall u, In u URLS_TO_CACHE ->
                  exists resp, net (GET u) = Some resp /\ response_ok resp = true
                               /\ cache_match (GET u) c = Some resp).
Proof.
  unfold on_install.
  destruct (caches_lookup_open CACHE_NAME cs) as (c0 & Hopen & _). rewrite Hopen.
  unfold cache_addAll. split.
  - intros Hfail. now rewrite (fetch_all_None net _ Hfail).
  - intros Hok.
    destruct (fetch_all_Some net _ Hok) as (entries & He & Hkeys & Hall). rewrite He.
    cbn [fst snd]. split; [reflexivity|].
    exists (cache_put_all entries c0). split.
    + now apply (caches_lookup_update _ _ c0).
    + intros u Hu. rewrite List.Forall_forall in Hok. specialize (Hok u Hu).
      unfold fetch_fails in Hok. destruct (net (GET u)) as [resp|] eqn:Hnet; [|discriminate].
      exists resp. split; [reflexivity|]. split; [now destruct (response_ok resp)|].
      unfold cache_match. cbn [method url GET].
      rewrite bool_decide_eq_true_2 by reflexivity.
      rewrite (cache_put_all_stored net entries c0 u Hall); [assumption|].
      now rewrite Hkeys.
Qed.

(** One missing stylesheet fails the install; with every path served it succeeds. *)
Lemma install_is_all_or_nothing_witness :
  on_install stylesheet_missing two_generations
  = (Rejected, caches_open CACHE_NAME two_generations)
  /\ fst (on_install online two_generations) = Fulfilled tt.
Proof.
  split.
  - apply (proj1 (install_is_all_or_nothing stylesheet_missing two_generations)).
    apply Exists_cons_tl, Exists_cons_tl, Exists_cons_hd. reflexivity.
  - apply (proj2 (install_is_all_or_nothing online two_generations)).
    repeat constructor.
Defined.

(** Claim C7.  The fetch listener leaves the cache storage as it is.  When
    a cache holds a match for the request, the response is that of the first
    such cache; when none does, the response is what the network gives, or
    the rejection of the network. *)
Theorem fetch_is_cache_then_network
  (net : network) (req : request) (cs : list (string * gmap string response)) :
  snd (on_fetch net req cs) = cs
  /\ (forall resp, caches_match req cs = Some resp ->
        fst (on_fetch net req cs) = Fulfilled resp
        /\ exists name c, In (name, c) cs /\ cache_match req c = Some resp)
  /\ ((forall name c, In (name, c) cs -> cache_match req c = None) ->
        fst (on_fetch net req cs)
        = match net req with Some resp => Fulfilled resp | None => Rejected end)
  /\ ((exists name c, In (name, c) cs /\ cache_match req c <> None) ->
        exists resp, caches_match req cs = Some resp).
Proof.
  unfold on_fetch. split; [|split; [|split]].
  - destruct (caches_match req cs); [reflexivity|]. now destruct (net req).
  - intros resp H. rewrite H. split; [reflexivity|]. now apply caches_match_Some.
  - intros H. apply caches_match_None in H. rewrite H. now destruct (net req).
  - intros (name & c & Hin & Hm).
    destruct (caches_match req cs) as [resp|] eqn:E; [now exists resp|].
    exfalso. apply Hm. rewrite caches_match_None in E. now apply (E name c).
Qed.

(** A request that is cached, and one that is not. *)
Lemma fetch_is_cache_then_network_witness :
  fst (on_fetch online (GET "/") two_generations) = Fulfilled page_v0
  /\ fst (on_fetch online (GET "/other.js") two_generations)
     = Fulfilled {| status := 200; body := "/other.js" |}.
Proof.
  split.
  - apply (proj1 (proj2 (fetch_is_cache_then_network online (GET "/") two_generations))).
    vm_compute. reflexivity.
  - rewrite (proj1 (proj2 (proj2 (fetch_is_cache_then_network online (GET "/other.js") two_generations)))).
    + reflexivity.
    + intros name c [H|[H|[]]]; injection H as <- <-; vm_compute; reflexivity.
Defined.

(** Claim C8, at an input where the code departs from it.  Nothing is
    stored; the code [b] is scanned and the price [1e999] saved, which leaves
    [{"b":null}] in the storage.  Then the code [a] is scanned, the price
    [2.50] typed and the save button pressed.  That save is valid and it is
    written: the storage holds [{"b":null,"a":2.5}].  But [loadPrices] throws
    a TypeError at the entry of [b], so the handler ends before its last two
    statements: the scanned code is still [a], the entry form is still shown,
    and the list shows no row. *)
Theorem save_on_a_null_entry_keeps_the_form_open :
  let st0 := run save_of_1e999 blank in
  let st1 := run then_enter_a_price st0 in
  let st2 := run [EvClickSave] st1 in
  localStorage st0 !! prices_key = Some null_entry_text
  /\ currentCode st1 = Some (str "a")
  /\ parseFloat (priceInput st1) = Fin false [2; 5]%N 1
  /\ savePrice_click st1 = Throw TypeError st2
  /\ localStorage st2 !! prices_key = Some null_entry_and_price_text
  /\ persisted st2 = Some (VObj [(str "b", VNull); (str "a", VNum (Fin false [2; 5]%N 1))])
  /\ currentCode st2 = Some (str "a")
  /\ priceEntry_hidden st2 = false
  /\ pricesList st2 = [].
Proof.
  cbv zeta.
  repeat (split; [vm_compute; reflexivity|]). vm_compute. reflexivity.
Qed.

(** Claim C9.  When the detection result carries no code ([result],
    [result.codeResult] or [result.codeResult.code] is missing, or the code
    is the empty string), [onDetected] returns with the state as it was: the
    scanner keeps running, the subscription stays, [currentCode] and the
    entry form are untouched. *)
Theorem onDetected_without_code (result : option detection) (st : state) :
  result = None
  \/ (exists r, result = Some r /\ codeResult r = None)
  \/ (exists r cr, result = Some r /\ codeResult r = Some cr
                   /\ (code cr = None \/ code cr = Some [])) ->
  onDetected result st = Return tt st.
Proof.
  intros H. unfold onDetected.
  assert (Hc : truthy (decoded_code result) = false).
  { destruct H as [-> | [(r & -> & Hr) | (r & cr & -> & Hr & [Hc | Hc])]];
      simpl; rewrite ?Hr, ?Hc; reflexivity. }
  now rewrite Hc.
Qed.

(** A result whose code is the empty string, while the scanner runs. *)
Lemma onDetected_without_code_witness :
  onDetected (Some {| codeResult := Some {| code := Some [] |} |})
             (set_quagga_running true (set_quagga_subscribers 1 blank))
  = Return tt (set_quagga_running true (set_quagga_subscribers 1 blank)).
Proof.
  apply onDetected_without_code. right. right.
  exists {| codeResult := Some {| code := Some [] |} |}, {| code := Some [] |}.
  repeat split. now right.
Defined.



(** * Facts about runs of the handlers *)

(** ** The states a click on the save button can leave *)

Lemma savePrice_click_cases st :
  final (savePrice_click st) = st
  \/ exists k data data' l,
       currentCode st = Some k /\ k <> []
       /\ isNaN (parseFloat (priceInput st)) = false
       /\ persisted st = Some data
       /\ assign data k (parseFloat (priceInput st)) = inr data'
       /\ let st1 := set_pricesList l
                       (set_localStorage
                          (<[prices_key := JSON_stringify data']> (localStorage st)) st) in
          final (savePrice_click st) = st1
          \/ final (savePrice_click st) = set_currentCode None (set_priceEntry_hidden true st1).
Proof.
  destruct (truthy (currentCode st)) eqn:Ht.
  2:{ left. rewrite savePrice_click_guard by now left. reflexivity. }
  destruct (isNaN (parseFloat (priceInput st))) eqn:Hnan.
  { left. rewrite savePrice_click_guard by now right. reflexivity. }
  apply truthy_Some in Ht as (k & Hk & Hne).
  rewrite savePrice_click_unfold, Hk, Hnan.
  destruct k as [|c k]; [congruence|]. cbn [truthy negb orb].
  change (default [] (Some (c :: k))) with (c :: k).
  destruct (persisted st) as [data|] eqn:Hp; [|now left].
  destruct (assign data (c :: k) (parseFloat (priceInput st))) as [e|data'] eqn:Ha; [now left|].
  right. 
  match goal with |- context [loadPrices ?s] =>
    destruct (loadPrices_final s) as [l Hl]; exists (c :: k), data, data', l;
    destruct (loadPrices s) as [[] st2|e st2]; simpl in Hl; subst st2 end.
  - repeat (split; [reflexivity || assumption|]). right. reflexivity.
  - repeat (split; [reflexivity || assumption|]). left. reflexivity.
Qed.

Lemma handle_storage ev st :
  is_click ev = false -> localStorage (final (handle ev st)) = localStorage st.
Proof.
  destruct ev as [| init | result | input |]; intros H; try discriminate; simpl handle.
  - apply loadPrices_storage.
  - now destruct init.
  - unfold onDetected. now destruct (negb (truthy (decoded_code result))).
  - reflexivity.
Qed.

Lemma handle_storage_other ev st k :
  k <> prices_key -> localStorage (final (handle ev st)) !! k = localStorage st !! k.
Proof.
  intros Hk. destruct (is_click ev) eqn:E; [|now rewrite handle_storage].
  destruct ev; try discriminate. simpl handle.
  destruct (savePrice_click_cases st) as [-> | (c & data & data' & l & _ & _ & _ & _ & _ & [-> | ->])];
    [reflexivity | |]; simpl; now rewrite lookup_insert_ne by congruence.
Qed.

(** No handler repairs a stored text that does not parse. *)
Lemma handle_corrupt ev st :
  persisted st = None ->
  localStorage (final (handle ev st)) = localStorage st
  /\ pricesList (final (handle ev st)) = pricesList st.
Proof.
  intros Hp. destruct ev as [| init | result | input |]; simpl handle.
  - rewrite loadPrices_unfold, Hp. now split.
  - now destruct init.
  - unfold onDetected. now destruct (negb (truthy (decoded_code result))).
  - now split.
  - rewrite savePrice_click_unfold, Hp.
    now destruct (negb (truthy (currentCode st)) || isNaN (parseFloat (priceInput st))).
Qed.

Lemma persisted_same_storage st st' :
  localStorage st' = localStorage st -> persisted st' = persisted st.
Proof. unfold persisted. now intros ->. Qed.

Lemma handle_form_shows_code ev st :
  form_shows_code st -> form_shows_code (final (handle ev st)).
Proof.
  unfold form_shows_code. intros [Hshown Hcode].
  destruct ev as [| init | result | input |]; simpl handle.
  - destruct (loadPrices_final st) as [l ->]. now split.
  - destruct init; simpl; (split; [discriminate | assumption]).
  - unfold onDetected. destruct (truthy (decoded_code result)) eqn:Ht; [|now split].
    apply truthy_Some in Ht as (k & -> & Hk). simpl. split; [reflexivity | congruence].
  - now split.
  - destruct (savePrice_click_cases st) as [-> | (c & data & data' & l & _ & _ & _ & _ & _ & [-> | ->])];
      [now split | now split | simpl; split; discriminate].
Qed.

(** ** What loadPrices renders *)

Lemma finish_set_pricesList r l st : finish r (set_pricesList l st) = finish r st.
Proof. unfold finish. now destruct (snd r), st. Qed.

Lemma loadPrices_set_pricesList st l :
  persisted st <> None -> loadPrices (set_pricesList l st) = loadPrices st.
Proof.
  intros Hp. rewrite !loadPrices_render.
  change (persisted (set_pricesList l st)) with (persisted st).
  destruct (persisted st) as [data|]; [apply finish_set_pricesList | congruence].
Qed.

Lemma loadPrices_idem st : loadPrices (final (loadPrices st)) = loadPrices st.
Proof.
  destruct (persisted st) as [data|] eqn:Hp.
  - destruct (loadPrices_final st) as [l ->]. apply loadPrices_set_pricesList. congruence.
  - rewrite (loadPrices_render st), Hp. simpl. now rewrite loadPrices_render, Hp.
Qed.


Lemma render_rows_stop data keys1 k keys2 :
  Forall (fun k' => exists x, get_own data k' = Some (VNum x)) keys1 ->
  call_toFixed2 (get_own data k) = inl TypeError ->
  render_rows data (keys1 ++ k :: keys2)
  = (List.map (fun k' => row k' (price_text (get_own data k'))) keys1, Some TypeError).
Proof.
  intros Hall Hk. induction Hall as [|k1 r (x & Hx) Hr IH]; simpl.
  - now rewrite Hk.
  - rewrite Hx. simpl. now rewrite IH.
Qed.

Lemma call_toFixed2_non_number v :
  is_number v = false -> call_toFixed2 (Some v) = inl TypeError.
Proof. now destruct v. Qed.

Lemma loadPrices_stop st o1 k v o2 :
  persisted st = Some (VObj (o1 ++ (k, v) :: o2)) ->
  Forall (fun e => is_number (snd e) = true) o1 -> is_number v = false ->
  loadPrices st = Throw TypeError (set_pricesList (price_rows o1) st).
Proof.
  intros Hp Hnum Hv.
  destruct (JSON_parse_object_wf _ _ Hp) as [Hord _].
  rewrite loadPrices_render, Hp. unfold rendered. cbn [Object_keys].
  rewrite List.map_app. cbn [List.map fst].
  rewrite render_rows_stop.
  - unfold finish. cbn [fst snd]. f_equal. f_equal. unfold price_rows.
    rewrite List.map_map. apply List.map_ext_in. intros [k' v'] Hin. cbn [fst snd get_own].
    rewrite (keys_ordered_lookup _ k' v' Hord); [reflexivity|].
    apply in_or_app. now left.
  - apply List.Forall_map. rewrite List.Forall_forall in *. intros [k' v'] Hin.
    specialize (Hnum _ Hin). cbn [fst snd get_own] in *.
    rewrite (keys_ordered_lookup _ k' v' Hord) by (apply in_or_app; now left).
    destruct v'; try discriminate. eauto.
  - cbn [get_own]. rewrite (keys_ordered_lookup _ k v Hord).
    + now apply call_toFixed2_non_number.
    + apply in_or_app. right. now left.
Qed.

Lemma first_non_number (o : list (jsstring * value)) :
  Exists (fun e => is_number (snd e) = false) o ->
  exists o1 k v o2, o = o1 ++ (k, v) :: o2
    /\ Forall (fun e => is_number (snd e) = true) o1 /\ is_number v = false.
Proof.
  induction o as [|[k v] r IH]; intros H; [inversion H|].
  destruct (is_number v) eqn:Ev.
  - inversion H as [? ? Hh | ? ? Ht]; subst; [simpl in Hh; congruence|].
    destruct (IH Ht) as (o1 & k' & v' & o2 & -> & Hall & Hv').
    exists ((k, v) :: o1), k', v', o2. split; [reflexivity|]. split; [|assumption].
    now constructor.
  - exists [], k, v, r. now repeat split.
Qed.

Lemma obj_lookup_Some_In {V} k (v : V) o : obj_lookup k o = Some v -> In (k, v) o.
Proof.
  induction o as [|[k' v'] r IH]; simpl; [discriminate|].
  destruct (bool_decide_reflect (k' = k)) as [->|Hne].
  - intros [= ->]. now left.
  - intros H. right. auto.
Qed.

(** * Further properties of the page script *)

(** Two saves of one code on the empty ledger. *)
Lemma saves_last_write_wins_witness :
  exists st' o',
    save_all [(str "x", str "1.00"); (str "x", str "2.50")] blank = Return tt st'
    /\ persisted st' = Some (VObj o')
    /\ NoDup (List.map fst o')
    /\ forall c, same_price (obj_lookup c o')
                   (match last_write [(str "x", str "1.00"); (str "x", str "2.50")] c with
                    | Some x => Some (VNum x)
                    | None => obj_lookup c []
                    end).
Proof.
  apply (saves_last_write_wins [(str "x", str "1.00"); (str "x", str "2.50")] blank []).
  - vm_compute. reflexivity.
  - reflexivity.
  - repeat constructor; try (vm_compute; discriminate).
Defined.

Lemma toFixed2_positive_zero x : toFixed2 (positive_zero x) = toFixed2 x.
Proof. now destruct x. Qed.

Lemma price_rows_codes o : List.map codeSpan (price_rows o) = List.map fst o.
Proof. unfold price_rows. rewrite List.map_map. reflexivity. Qed.

Lemma price_rows_In k x o : In (k, VNum x) o -> In (row k (toFixed2 x)) (price_rows o).
Proof.
  intros H. unfold price_rows. apply in_map_iff. now exists (k, VNum x).
Qed.

(** After a save of a finite price under a scanned code other than
    [__proto__] on a ledger of finite prices, the handler completes, the
    scanned code is cleared and the form hidden; the list shows the row of
    the code, whose price text is [$] and [toFixed(2)] of the price just
    entered; every other code of the ledger keeps the row of its price; and
    no code has two rows. *)
Theorem save_shows_one_row_for_the_code st k o :
  currentCode st = Some k -> k <> [] -> k <> str "__proto__" ->
  isFinite (parseFloat (priceInput st)) = true ->
  persisted st = Some (VObj o) -> prices_only o = true ->
  exists st',
    savePrice_click st = Return tt st'
    /\ currentCode st' = None /\ priceEntry_hidden st' = true
    /\ In {| codeSpan := k;
             priceSpan := str "$" ++ toFixed2 (parseFloat (priceInput st)) |} (pricesList st')
    /\ (forall k' x, k' <> k -> obj_lookup k' o = Some (VNum x) ->
          In {| codeSpan := k'; priceSpan := str "$" ++ toFixed2 x |} (pricesList st'))
    /\ NoDup (List.map codeSpan (pricesList st')).
Proof.
  intros Hk Hne Hproto Hfin Hp Hprices.
  destruct (savePrice_click_ledger st k o Hk Hne Hfin Hp Hprices) as (Hs & Hp1 & _).
  set (x := parseFloat (priceInput st)) in *.
  set (o' := List.map reload_member (obj_assign o k x)) in *.
  eexists. split; [exact Hs|]. split; [reflexivity|]. split; [reflexivity|].
  cbn [pricesList set_currentCode set_priceEntry_hidden set_pricesList].
  split; [|split].
  - rewrite <- toFixed2_positive_zero.
    apply (price_rows_In k (positive_zero x)), obj_lookup_Some_In.
    unfold o'. rewrite obj_lookup_map_reload, obj_lookup_assign.
    rewrite bool_decide_eq_true_2 by reflexivity.
    rewrite (bool_decide_eq_false_2 _ Hproto).
    destruct (obj_lookup k o); simpl; now rewrite Hfin.
  - intros k' y Hk' Hy.
    assert (Hy' : isFinite y = true).
    { apply prices_only_spec in Hprices. rewrite List.Forall_forall in Hprices.
      destruct (Hprices _ (obj_lookup_Some_In _ _ _ Hy)) as (z & Hz & Hzf).
      simpl in Hz. now injection Hz as ->. }
    rewrite <- toFixed2_positive_zero.
    apply (price_rows_In k' (positive_zero y)), obj_lookup_Some_In.
    unfold o'. rewrite obj_lookup_map_reload, obj_lookup_assign.
    rewrite bool_decide_eq_false_2 by assumption. rewrite Hy. simpl. now rewrite Hy'.
  - rewrite price_rows_codes. apply keys_ordered_NoDup.
    now destruct (JSON_parse_object_wf _ _ Hp1).
Qed.

(** The price [1.005] for a second code, on the ledger of the end-to-end
    scenario: the binary64 value lies below 1.005, and the row shows
    [$1.00]. *)
Lemma save_shows_one_row_for_the_code_witness :
  exists st',
    savePrice_click (entering (str "4006381333931") (str "1.005") (with_stored one_price_text blank))
    = Return tt st'
    /\ currentCode st' = None /\ priceEntry_hidden st' = true
    /\ In {| codeSpan := str "4006381333931"; priceSpan := str "$1.00" |} (pricesList st')
    /\ (forall k' x, k' <> str "4006381333931" -> obj_lookup k' one_price = Some (VNum x) ->
          In {| codeSpan := k'; priceSpan := str "$" ++ toFixed2 x |} (pricesList st'))
    /\ NoDup (List.map codeSpan (pricesList st')).
Proof.
  apply (save_shows_one_row_for_the_code
           (entering (str "4006381333931") (str "1.005") (with_stored one_price_text blank))
           (str "4006381333931") one_price).
  - reflexivity.
  - discriminate.
  - vm_compute. discriminate.
  - vm_compute. reflexivity.
  - vm_compute. reflexivity.
  - reflexivity.
Defined.

(** [loadPrices] renders the entries in order and stops at the first whose
    value is not a number: [data[code].toFixed] throws a TypeError there, and
    the list is left with the rows of the entries before it. *)
Theorem loadPrices_stops_at_first_non_number st o1 k v o2 :
  persisted st = Some (VObj (o1 ++ (k, v) :: o2)) ->
  Forall (fun e => is_number (snd e) = true) o1 -> is_number v = false ->
  loadPrices st = Throw TypeError (set_pricesList (price_rows o1) st).
Proof. apply loadPrices_stop. Qed.

(** The stored text [{"a":1,"b":null,"c":2}]: the row of [a] is shown, the
    row of [c] is not. *)
Lemma loadPrices_stops_at_first_non_number_witness :
  loadPrices (with_stored null_price_text blank)
  = Throw TypeError (set_pricesList [row (str "a") (str "1.00")]
                                    (with_stored null_price_text blank)).
Proof.
  apply (loadPrices_stops_at_first_non_number (with_stored null_price_text blank)
           [(str "a", VNum (Fin false [1%N] 1))] (str "b") VNull
           [(str "c", VNum (Fin false [2%N] 1))]).
  - vm_compute. reflexivity.
  - repeat constructor.
  - reflexivity.
Defined.

(** On a ledger of finite prices, a save of an infinite price under a
    scanned code other than [__proto__] does not complete.  The mapping is
    written with [null] under the code, [loadPrices] then throws a TypeError
    at that entry, and the handler ends there: the scanned code is kept and
    the form is not hidden.  A later [loadPrices] throws the same
    TypeError. *)
Theorem save_of_infinite_price_throws st k o neg :
  currentCode st = Some k -> k <> [] -> k <> str "__proto__" ->
  parseFloat (priceInput st) = Inf neg ->
  persisted st = Some (VObj o) -> prices_only o = true ->
  exists st' o',
    savePrice_click st = Throw TypeError st'
    /\ persisted st' = Some (VObj o') /\ obj_lookup k o' = Some VNull
    /\ currentCode st' = Some k /\ priceEntry_hidden st' = priceEntry_hidden st
    /\ loadPrices st' = Throw TypeError st'.
Proof.
  intros Hk Hne Hproto Hx Hp Hprices.
  pose proof (JSON_parse_object_wf _ _ Hp) as Ho.
  set (st1 := set_localStorage
                (<[prices_key := JSON_stringify (VObj (obj_assign o k (Inf neg)))]>
                   (localStorage st)) st).
  set (o' := List.map reload_member (obj_assign o k (Inf neg))).
  assert (Hp1 : persisted st1 = Some (VObj o')).
  { apply persisted_after_save; [exact I | assumption | now apply prices_only_numbers]. }
  assert (Hnull : obj_lookup k o' = Some VNull).
  { unfold o'. rewrite obj_lookup_map_reload, obj_lookup_assign.
    rewrite bool_decide_eq_true_2 by reflexivity.
    rewrite (bool_decide_eq_false_2 _ Hproto). now destruct (obj_lookup k o). }
  destruct (first_non_number o') as (o1 & k1 & v1 & o2 & Ho' & Hnum & Hv1).
  { apply List.Exists_exists. exists (k, VNull). split; [|reflexivity].
    now apply obj_lookup_Some_In. }
  rewrite Ho' in Hp1.
  pose proof (loadPrices_stop st1 o1 k1 v1 o2 Hp1 Hnum Hv1) as Hload.
  exists (set_pricesList (price_rows o1) st1), o'.
  split; [|split; [|split; [|split; [|split]]]].
  - rewrite savePrice_click_unfold, Hk, Hx, Hp.
    destruct k as [|c k]; [congruence|]. cbn [truthy negb orb isNaN assign].
    change (default [] (Some (c :: k))) with (c :: k). fold st1. now rewrite Hload.
  - rewrite Ho'. exact Hp1.
  - exact Hnull.
  - exact Hk.
  - reflexivity.
  - pose proof (loadPrices_idem st1) as Hi. rewrite Hload in Hi. exact Hi.
Qed.

(** The input [Infinity] for a scanned code on the ledger of the end-to-end
    scenario. *)
Lemma save_of_infinite_price_throws_witness :
  exists st' o',
    savePrice_click (entering (str "4006381333931") (str "Infinity")
                              (with_stored one_price_text blank))
    = Throw TypeError st'
    /\ persisted st' = Some (VObj o') /\ obj_lookup (str "4006381333931") o' = Some VNull
    /\ currentCode st' = Some (str "4006381333931") /\ priceEntry_hidden st' = false
    /\ loadPrices st' = Throw TypeError st'.
Proof.
  apply (save_of_infinite_price_throws
           (entering (str "4006381333931") (str "Infinity") (with_stored one_price_text blank))
           (str "4006381333931") one_price false).
  - reflexivity.
  - discriminate.
  - vm_compute. discriminate.
  - reflexivity.
  - vm_compute. reflexivity.
  - reflexivity.
Defined.

(** [loadPrices] replaces the list.  When the stored text parses, its
    outcome does not depend on the rows shown before; and a second call
    right after a first one, completed or not, changes nothing. *)
Theorem loadPrices_replaces_the_list st :
  (forall l, persisted st <> None -> loadPrices (set_pricesList l st) = loadPrices st)
  /\ loadPrices (final (loadPrices st)) = loadPrices st.
Proof.
  split; [intros l Hp; now apply loadPrices_set_pricesList | apply loadPrices_idem].
Qed.

(** A list with a stale row, over the ledger of the end-to-end scenario. *)
Lemma loadPrices_replaces_the_list_witness :
  loadPrices (set_pricesList [row (str "stale") (str "0.00")] (with_stored one_price_text blank))
  = loadPrices (with_stored one_price_text blank).
Proof.
  apply (proj1 (loadPrices_replaces_the_list (with_stored one_price_text blank))).
  vm_compute. discriminate.
Defined.



(** The storage is written by the click on the save button and by nothing
    else, and only under the key [prices]: over any sequence of events every
    other key keeps its value, and a sequence without a click leaves the
    storage as it was. *)
Theorem storage_is_written_only_by_the_save_click evs st :
  (forall k, k <> prices_key -> localStorage (run evs st) !! k = localStorage st !! k)
  /\ (Forall (fun ev => is_click ev = false) evs -> localStorage (run evs st) = localStorage st).
Proof.
  revert st. induction evs as [|ev r IH]; intros st; [now split|].
  destruct (IH (final (handle ev st))) as [IH1 IH2]. cbn [run]. split.
  - intros k Hk. rewrite IH1 by assumption. now apply handle_storage_other.
  - intros Hall. inversion Hall as [|? ? Hev Hr]; subst.
    rewrite IH2 by assumption. now apply handle_storage.
Qed.

(** A scan, a detection and a price typed, with the save button not pressed. *)
Lemma storage_is_written_only_by_the_save_click_witness :
  localStorage (run [EvStartScan (InitReady (str "video")); EvDetected (scan (str "4006381333931"));
                     EvType (str "2.49"); EvLoad] (with_stored one_price_text blank))
  = localStorage (with_stored one_price_text blank).
Proof.
  apply (proj2 (storage_is_written_only_by_the_save_click
                  [EvStartScan (InitReady (str "video")); EvDetected (scan (str "4006381333931"));
                   EvType (str "2.49"); EvLoad] (with_stored one_price_text blank))).
  repeat constructor.
Defined.

(** A stored text that does not parse is never repaired.  Whatever the
    events, the storage and the list stay as they were: every
    [loadPrices] throws before it empties the list, and every click that
    passes the test of the input throws before it writes. *)
Theorem corrupt_storage_is_never_repaired evs st :
  persisted st = None ->
  localStorage (run evs st) = localStorage st
  /\ pricesList (run evs st) = pricesList st
  /\ loadPrices (run evs st) = Throw SyntaxError (run evs st).
Proof.
  revert st. induction evs as [|ev r IH]; intros st Hp.
  - split; [reflexivity|]. split; [reflexivity|]. cbn [run]. now rewrite loadPrices_unfold, Hp.
  - destruct (handle_corrupt ev st Hp) as [Hs Hl].
    destruct (IH (final (handle ev st))) as (IH1 & IH2 & IH3).
    { now rewrite (persisted_same_storage st _ Hs). }
    cbn [run]. rewrite IH1, IH2. auto.
Qed.

(** The text [{] stored, and a whole visit. *)
Lemma corrupt_storage_is_never_repaired_witness :
  localStorage (run a_visit (with_stored (str "{") blank))
  = localStorage (with_stored (str "{") blank)
  /\ pricesList (run a_visit (with_stored (str "{") blank)) = []
  /\ loadPrices (run a_visit (with_stored (str "{") blank))
     = Throw SyntaxError (run a_visit (with_stored (str "{") blank)).
Proof.
  apply (corrupt_storage_is_never_repaired a_visit (with_stored (str "{") blank)).
  vm_compute. reflexivity.
Defined.

(** Whenever the entry form is shown, the code it shows is the code a click
    will save under, and the scanned code is never the empty string: the
    handlers keep this over any sequence of events. *)
Theorem form_shows_the_code_to_save evs st :
  form_shows_code st -> form_shows_code (run evs st).
Proof.
  revert st. induction evs as [|ev r IH]; intros st H; [exact H|].
  cbn [run]. now apply IH, handle_form_shows_code.
Qed.

(** The page as it is loaded, and a whole visit. *)
Lemma form_shows_the_code_to_save_witness : form_shows_code (run a_visit blank).
Proof.
  apply (form_shows_the_code_to_save a_visit blank).
  split; discriminate.
Defined.

Lemma run_starts inits : forall st,
  let st1 := run (List.map EvStartScan inits) st in
  quagga_subscribers st1 = quagga_subscribers st + length inits
  /\ length (alerts st1) = length (alerts st) + length (List.filter init_failed inits)
  /\ currentCode st1 = currentCode st.
Proof.
  induction inits as [|init r IH]; intros st; cbn zeta.
  - cbn [List.map run List.filter length]. repeat split; lia.
  - cbn [List.map run handle]. destruct (IH (final (startScanner init st))) as (H1 & H2 & H3).
    rewrite H1, H2, H3. destruct init; cbn; rewrite ?length_app; cbn; repeat split; lia.
Qed.

Lemma handle_scanner ev st :
  (quagga_subscribers (final (handle ev st)) < quagga_subscribers st)%nat
  \/ (quagga_running st = true /\ quagga_running (final (handle ev st)) = false) ->
  exists result, ev = EvDetected result /\ truthy (decoded_code result) = true.
Proof.
  destruct ev as [| init | result | input |]; simpl handle.
  - destruct (loadPrices_final st) as [l ->]. simpl. intros [H | [H1 H2]]; [lia | congruence].
  - destruct init; simpl; intros [H | [H1 H2]]; try lia; congruence.
  - unfold onDetected. destruct (truthy (decoded_code result)) eqn:Ht; [now exists result|].
    simpl. intros [H | [H1 H2]]; [lia | congruence].
  - simpl. intros [H | [H1 H2]]; [lia | congruence].
  - destruct (savePrice_click_cases st)
      as [-> | (c & data & data' & l & _ & _ & _ & _ & _ & [-> | ->])];
      simpl; intros [H | [H1 H2]]; try lia; congruence.
Qed.

(** Every call of [startScanner] subscribes [onDetected] once more, whether
    [Quagga.init] fails or not, and alerts once for each failure; it leaves
    the scanned code as it is.  A detection that carries a code removes the
    subscriptions and stops the scanner, and nothing else does: an event
    after which there are fewer subscriptions, or after which a running
    scanner has stopped, is such a detection. *)
Theorem subscriptions_accumulate_until_detection inits result st :
  let st1 := run (List.map EvStartScan inits) st in
  quagga_subscribers st1 = quagga_subscribers st + length inits
  /\ length (alerts st1) = length (alerts st) + length (List.filter init_failed inits)
  /\ currentCode st1 = currentCode st
  /\ (truthy (decoded_code result) = true ->
        quagga_subscribers (final (onDetected result st1)) = 0
        /\ quagga_running (final (onDetected result st1)) = false)
  /\ (forall ev,
        (quagga_subscribers (final (handle ev st)) < quagga_subscribers st)%nat
        \/ (quagga_running st = true /\ quagga_running (final (handle ev st)) = false) ->
        exists r, ev = EvDetected r /\ truthy (decoded_code r) = true).
Proof.
  cbn zeta. destruct (run_starts inits st) as (H1 & H2 & H3).
  split; [exact H1|]. split; [exact H2|]. split; [exact H3|]. split.
  - intros Ht. unfold onDetected. rewrite Ht. now split.
  - intros ev. apply handle_scanner.
Qed.

(** Two starts, one of them failed, and then a detection. *)
Lemma subscriptions_accumulate_until_detection_witness :
  quagga_subscribers
    (run (List.map EvStartScan [InitError (str "NotAllowedError"); InitReady (str "video")]) blank)
  = 2
  /\ quagga_subscribers
       (final (onDetected (scan (str "4006381333931"))
          (run (List.map EvStartScan [InitError (str "NotAllowedError"); InitReady (str "video")])
               blank))) = 0.
Proof.
  pose proof (subscriptions_accumulate_until_detection
                [InitError (str "NotAllowedError"); InitReady (str "video")]
                (scan (str "4006381333931")) blank) as (H1 & _ & _ & H4 & _).
  split; [exact H1 | apply H4; reflexivity].
Defined.

(** A detection with a code empties the price field, so a click on the save
    button right after it saves nothing: what was typed for an earlier code
    is never saved under the new one. *)
Theorem detection_clears_the_price_input result st :
  truthy (decoded_code result) = true ->
  (onDetected result ;;; savePrice_click) st = onDetected result st
  /\ priceInput (final (onDetected result st)) = []
  /\ currentCode (final (onDetected result st)) = decoded_code result.
Proof.
  intros Ht. unfold bind, onDetected. rewrite Ht. cbn [negb]. unfold modify. cbv beta iota.
  split; [|now split]. apply savePrice_click_guard. right. reflexivity.
Qed.

(** A detection while the price of an earlier code is still in the field. *)
Lemma detection_clears_the_price_input_witness :
  (onDetected (scan (str "4006381333931")) ;;; savePrice_click)
    (entering (str "012345678905") (str "3.99") blank)
  = onDetected (scan (str "4006381333931")) (entering (str "012345678905") (str "3.99") blank).
Proof.
  apply (detection_clears_the_price_input (scan (str "4006381333931"))
           (entering (str "012345678905") (str "3.99") blank)).
  reflexivity.
Defined.

(** The listener of [DOMContentLoaded] binds the two click listeners before
    it calls [loadPrices], and schedules the registration of the service
    worker after it.  So when [loadPrices] throws (as it does on a stored
    text that does not parse) the buttons work but the service worker is
    never registered; when it returns, the registration is scheduled if the
    browser has service workers.  The storage is not written. *)
Theorem DOMContentLoaded_registers_after_load sw p :
  let r := on_DOMContentLoaded sw p in
  startBtn_click (snd r) = S (startBtn_click p)
  /\ savePriceBtn_click (snd r) = S (savePriceBtn_click p)
  /\ localStorage (script (snd r)) = localStorage (script p)
  /\ (forall e, fst r = Some e -> window_load (snd r) = window_load p)
  /\ (fst r = None -> window_load (snd r) = if sw then S (window_load p) else window_load p)
  /\ (persisted (script p) = None ->
        r = (Some SyntaxError,
             {| script := set_currentCode None (script p);
                startBtn_click := S (startBtn_click p);
                savePriceBtn_click := S (savePriceBtn_click p);
                window_load := window_load p |})).
Proof.
  cbn zeta. unfold on_DOMContentLoaded.
  pose proof (loadPrices_storage (set_currentCode None (script p))) as Hs.
  pose proof (loadPrices_unfold (set_currentCode None (script p))) as Hu.
  change (persisted (set_currentCode None (script p))) with (persisted (script p)) in Hu.
  destruct (loadPrices (set_currentCode None (script p))) as [[] st'|e st']; cbn [fst snd script
    startBtn_click savePriceBtn_click window_load]; simpl in Hs.
  - split; [reflexivity|]. split; [reflexivity|]. split; [exact Hs|].
    split; [discriminate|]. split; [reflexivity|].
    intros Hp. rewrite Hp in Hu. discriminate.
  - split; [reflexivity|]. split; [reflexivity|]. split; [exact Hs|].
    split; [reflexivity|]. split; [discriminate|].
    intros Hp. rewrite Hp in Hu. now injection Hu as -> ->.
Qed.

(** The page loaded with the text [{] stored, in a browser with service
    workers. *)
Lemma DOMContentLoaded_registers_after_load_witness :
  on_DOMContentLoaded true (fresh_page (with_stored (str "{") blank))
  = (Some SyntaxError,
     {| script := with_stored (str "{") blank; startBtn_click := 1; savePriceBtn_click := 1;
        window_load := 0 |}).
Proof.
  apply (proj2 (proj2 (proj2 (proj2 (proj2
           (DOMContentLoaded_registers_after_load true
              (fresh_page (with_stored (str "{") blank)))))))).
  vm_compute. reflexivity.
Defined.

Lemma handle_null ev st :
  persisted st = Some VNull ->
  localStorage (final (handle ev st)) = localStorage st.
Proof.
  intros Hp. destruct ev as [| init | result | input |];
    try (apply handle_storage; reflexivity).
  simpl handle. rewrite savePrice_click_unfold, Hp. cbn [assign].
  now destruct (negb (truthy (currentCode st)) || isNaN (parseFloat (priceInput st))).
Qed.

(** A stored [null] is never repaired either.  Whatever the events, the
    storage stays as it was: a click that passes the test of the input
    throws a TypeError at the assignment, before it writes; and every
    [loadPrices] empties the list and throws a TypeError at [Object.keys]. *)
Theorem stored_null_is_never_repaired evs st :
  persisted st = Some VNull ->
  localStorage (run evs st) = localStorage st
  /\ loadPrices (run evs st) = Throw TypeError (set_pricesList [] (run evs st)).
Proof.
  revert st. induction evs as [|ev r IH]; intros st Hp.
  - split; [reflexivity|]. cbn [run]. now rewrite loadPrices_unfold, Hp.
  - pose proof (handle_null ev st Hp) as Hs.
    destruct (IH (final (handle ev st))) as (IH1 & IH2).
    { now rewrite (persisted_same_storage st _ Hs). }
    cbn [run]. rewrite IH1. auto.
Qed.

(** The text [null] stored, and a whole visit. *)
Lemma stored_null_is_never_repaired_witness :
  localStorage (run a_visit (with_stored (str "null") blank))
  = localStorage (with_stored (str "null") blank)
  /\ loadPrices (run a_visit (with_stored (str "null") blank))
     = Throw TypeError (set_pricesList [] (run a_visit (with_stored (str "null") blank))).
Proof.
  apply (stored_null_is_never_repaired a_visit (with_stored (str "null") blank)).
  vm_compute. reflexivity.
Defined.

Lemma JSON_parse_stringify_primitive data :
  is_plain_primitive data = true -> value_wf data ->
  JSON_parse (JSON_stringify data) = Some (reload_value data).
Proof.
  destruct data as [| [|] | x | | |]; try discriminate; intros Hfin Hwf;
    [vm_compute; reflexivity | vm_compute; reflexivity |].
  unfold JSON_parse.
  change (2 + 2 * ?n)%nat with (S (S (2 * n))).
  rewrite <- (app_nil_r (JSON_stringify (VNum x))) at 2.
  rewrite parse_value_stringify_number by (assumption || exact I). reflexivity.
Qed.

Lemma JSON_parse_value_wf s v : JSON_parse s = Some v -> value_wf v.
Proof.
  unfold JSON_parse. intros H.
  destruct (parse_value _ s) as [[v' r]|] eqn:E; [|discriminate].
  destruct (skip_ws r); [|discriminate]. injection H as ->.
  destruct (parse_wf (2 + 2 * length s)) as (Hv & _). now apply (Hv _ _ _ E).
Qed.

(** A save on a stored boolean or finite number is lost, in non-strict
    code.  The assignment [data[currentCode] = price] on a primitive is
    dropped, the same value is written back, [loadPrices] finds no key, and
    the handler completes as after a save: the list is empty, the form
    hidden and the scanned code forgotten. *)
Theorem save_on_a_stored_primitive_is_lost st k data :
  currentCode st = Some k -> k <> [] -> isNaN (parseFloat (priceInput st)) = false ->
  persisted st = Some data -> is_plain_primitive data = true ->
  exists st',
    savePrice_click st = Return tt st'
    /\ localStorage st' = <[prices_key := JSON_stringify data]> (localStorage st)
    /\ persisted st' = Some (reload_value data)
    /\ pricesList st' = [] /\ currentCode st' = None /\ priceEntry_hidden st' = true.
Proof.
  intros Hk Hne Hnan Hp Hprim.
  pose proof (JSON_parse_stringify_primitive data Hprim (JSON_parse_value_wf _ _ Hp)) as Hrt.
  assert (Ha : assign data k (parseFloat (priceInput st)) = inr data)
    by (destruct data; try discriminate; reflexivity).
  set (st1 := set_localStorage (<[prices_key := JSON_stringify data]> (localStorage st)) st).
  assert (Hp1 : persisted st1 = Some (reload_value data)).
  { unfold st1. rewrite persisted_after_write; [exact Hrt|].
    intros E. rewrite E in Hrt. vm_compute in Hrt. discriminate. }
  assert (Hload : loadPrices st1 = Return tt (set_pricesList [] st1)).
  { rewrite loadPrices_unfold, Hp1.
    destruct data as [| b | x | | |]; try discriminate; [reflexivity|].
    simpl in Hprim. simpl. now rewrite Hprim. }
  exists (set_currentCode None (set_priceEntry_hidden true (set_pricesList [] st1))).
  split; [|split; [reflexivity|]; split; [exact Hp1|]; now repeat split].
  rewrite savePrice_click_unfold, Hk, Hnan, Hp.
  destruct k as [|c k]; [congruence|]. cbn [truthy negb orb].
  change (default [] (Some (c :: k))) with (c :: k). rewrite Ha. fold st1. now rewrite Hload.
Qed.

(** The text [0] stored, a code scanned and the price 3.99 entered. *)
Lemma save_on_a_stored_primitive_is_lost_witness :
  exists st',
    savePrice_click (entering (str "012345678905") (str "3.99") (with_stored (str "0") blank))
    = Return tt st'
    /\ localStorage st' = <[prices_key := str "0"]> (localStorage (with_stored (str "0") blank))
    /\ persisted st' = Some (VNum (Zero false))
    /\ pricesList st' = [] /\ currentCode st' = None /\ priceEntry_hidden st' = true.
Proof.
  apply (save_on_a_stored_primitive_is_lost
           (entering (str "012345678905") (str "3.99") (with_stored (str "0") blank))
           (str "012345678905") (VNum (Zero false))).
  - reflexivity.
  - discriminate.
  - reflexivity.
  - vm_compute. reflexivity.
  - reflexivity.
Defined.

Lemma loadPrices_same_storage st st2 s :
  loadPrices st = Return tt st2 -> localStorage s = localStorage st ->
  loadPrices s = Return tt (set_pricesList (pricesList st2) s).
Proof.
  intros Hload Hsame. rewrite loadPrices_render in *.
  rewrite (persisted_same_storage st s Hsame).
  destruct (persisted st) as [data|]; [|discriminate].
  unfold finish in *. destruct (snd (rendered data)); [discriminate|].
  now injection Hload as <-.
Qed.

(** What a completed save shows is what the next visit shows.  After a
    click that passed the test of the input and completed, a page loaded
    over the storage it left completes its [loadPrices] and renders the same
    rows. *)
Theorem saved_prices_survive_a_reload st st' sw p :
  truthy (currentCode st) = true -> isNaN (parseFloat (priceInput st)) = false ->
  savePrice_click st = Return tt st' ->
  localStorage (script p) = localStorage st' ->
  fst (on_DOMContentLoaded sw p) = None
  /\ pricesList (script (snd (on_DOMContentLoaded sw p))) = pricesList st'
  /\ localStorage (script (snd (on_DOMContentLoaded sw p))) = localStorage st'.
Proof.
  intros Ht Hnan Hclick Hsame.
  apply truthy_Some in Ht as (k & Hk & Hne).
  rewrite savePrice_click_unfold, Hk, Hnan in Hclick.
  destruct k as [|c k]; [congruence|]. cbn [truthy negb orb] in Hclick.
  destruct (persisted st) as [data|]; [|discriminate].
  destruct (assign data _ _) as [e|data']; [discriminate|].
  match type of Hclick with context [loadPrices ?s] =>
    set (st1 := s) in *; destruct (loadPrices st1) as [[] st2|e st2] eqn:Hload end;
    [|discriminate].
  injection Hclick as <-. cbn [localStorage pricesList set_currentCode set_priceEntry_hidden] in *.
  pose proof (loadPrices_storage st1) as Hsto. rewrite Hload in Hsto. simpl in Hsto.
  unfold on_DOMContentLoaded.
  rewrite (loadPrices_same_storage st1 st2 (set_currentCode None (script p)) Hload).
  - cbn. now rewrite Hsame.
  - cbn. now rewrite Hsame.
Qed.

(** The end-to-end scenario, and then a new visit. *)
Lemma saved_prices_survive_a_reload_witness :
  fst (on_DOMContentLoaded true (fresh_page (with_stored one_price_text blank))) = None
  /\ pricesList (script (snd (on_DOMContentLoaded true
                                (fresh_page (with_stored one_price_text blank)))))
     = [row (str "012345678905") (str "3.99")]
  /\ localStorage (script (snd (on_DOMContentLoaded true
                                  (fresh_page (with_stored one_price_text blank)))))
     = <[prices_key := one_price_text]> ∅.
Proof.
  apply (saved_prices_survive_a_reload
           (entering (str "012345678905") (str "3.99") blank)
           (final (savePrice_click (entering (str "012345678905") (str "3.99") blank)))
           true (fresh_page (with_stored one_price_text blank))).
  - reflexivity.
  - reflexivity.
  - vm_compute. reflexivity.
  - vm_compute. reflexivity.
Defined.

(** * Facts about the listeners of the service worker, composed *)

Lemma on_install_unfold net cs :
  on_install net cs =
  match cache_addAll net URLS_TO_CACHE (default ∅ (caches_lookup CACHE_NAME cs)) with
  | Some c' => (Fulfilled tt, caches_update CACHE_NAME c' (caches_open CACHE_NAME cs))
  | None => (Rejected, caches_open CACHE_NAME cs)
  end.
Proof.
  unfold on_install. destruct (caches_lookup_open CACHE_NAME cs) as (c0 & H & ->).
  now rewrite H.
Qed.

Lemma caches_lookup_app name cs cs' :
  caches_lookup name (cs ++ cs') =
  match caches_lookup name cs with
  | Some c => Some c
  | None => caches_lookup name cs'
  end.
Proof.
  induction cs as [|[n c] r IH]; simpl; [reflexivity|].
  now destruct (bool_decide (n = name)).
Qed.

Lemma caches_lookup_open_ne name n cs :
  name <> n -> caches_lookup name (caches_open n cs) = caches_lookup name cs.
Proof.
  intros Hne. unfold caches_open. destruct (caches_lookup n cs); [reflexivity|].
  rewrite caches_lookup_app. simpl. rewrite bool_decide_eq_false_2 by congruence.
  now destruct (caches_lookup name cs).
Qed.

Lemma caches_lookup_update_ne name n c cs :
  name <> n -> caches_lookup name (caches_update n c cs) = caches_lookup name cs.
Proof.
  intros Hne. induction cs as [|[n' c'] r IH]; simpl; [reflexivity|].
  destruct (bool_decide_reflect (n' = n)) as [->|Hn]; simpl.
  - now rewrite bool_decide_eq_false_2 by congruence.
  - now rewrite IH.
Qed.

Lemma caches_keys_update name c cs : caches_keys (caches_update name c cs) = caches_keys cs.
Proof.
  unfold caches_keys. induction cs as [|[n' c'] r IH]; simpl; [reflexivity|].
  destruct (bool_decide (n' = name)); simpl; congruence.
Qed.

Lemma caches_update_last name c c0 cs :
  caches_lookup name cs = None ->
  caches_update name c (cs ++ [(name, c0)]) = cs ++ [(name, c)].
Proof.
  induction cs as [|[n' c'] r IH]; simpl.
  - now rewrite bool_decide_eq_true_2.
  - destruct (bool_decide (n' = name)); [discriminate|]. intros H. now rewrite IH.
Qed.

Lemma caches_match_app req cs cs' :
  caches_match req (cs ++ cs') =
  match caches_match req cs with
  | Some resp => Some resp
  | None => caches_match req cs'
  end.
Proof.
  induction cs as [|[n c] r IH]; simpl; [reflexivity|].
  now destruct (cache_match req c).
Qed.

Lemma fetch_all_keys net urls entries :
  fetch_all net urls = Some entries -> List.map fst entries = urls.
Proof.
  revert entries. induction urls as [|u r IH]; intros entries; simpl.
  - now intros [= <-].
  - destruct (net (GET u)) as [resp|]; [|discriminate].
    destruct (response_ok resp); [|discriminate].
    destruct (fetch_all net r) as [rest|]; [|discriminate].
    intros [= <-]. simpl. now rewrite (IH rest).
Qed.

Lemma filter_current_head cs c :
  caches_lookup CACHE_NAME cs = Some c ->
  exists r, List.filter is_current cs = (CACHE_NAME, c) :: r.
Proof.
  induction cs as [|[n c'] r IH]; simpl; [discriminate|].
  unfold is_current at 1. cbn [fst].
  destruct (bool_decide_reflect (n = CACHE_NAME)) as [->|Hn].
  - intros [= ->]. now eexists.
  - exact IH.
Qed.

Lemma filter_current_absent cs :
  ~ In CACHE_NAME (caches_keys cs) -> List.filter is_current cs = [].
Proof.
  unfold caches_keys. induction cs as [|[n c] r IH]; simpl; [reflexivity|].
  intros H. unfold is_current at 1. cbn [fst].
  rewrite bool_decide_eq_false_2 by (intros ->; apply H; now left).
  apply IH. intros Hin. apply H. now right.
Qed.

Lemma filter_current_NoDup cs :
  NoDup (caches_keys cs) ->
  List.filter is_current cs =
  match caches_lookup CACHE_NAME cs with
  | Some c => [(CACHE_NAME, c)]
  | None => []
  end.
Proof.
  unfold caches_keys. induction cs as [|[n c] r IH]; simpl; [reflexivity|].
  intros H. apply NoDup_cons in H as [Hn Hr].
  unfold is_current at 1. cbn [fst].
  destruct (bool_decide_reflect (n = CACHE_NAME)) as [->|Hne].
  - f_equal. apply filter_current_absent. intros Hin. apply Hn.
    now apply list_elem_of_In.
  - now apply IH.
Qed.

(** What the install listener leaves in the cache it fills. *)
Lemma on_install_ok net cs :
  Forall (fun u => fetch_fails net u = false) URLS_TO_CACHE ->
  exists c,
    on_install net cs = (Fulfilled tt, caches_update CACHE_NAME c (caches_open CACHE_NAME cs))
    /\ caches_lookup CACHE_NAME (caches_update CACHE_NAME c (caches_open CACHE_NAME cs)) = Some c
    /\ forall u, In u URLS_TO_CACHE -> c !! u = net (GET u).
Proof.
  intros Hok. rewrite on_install_unfold. unfold cache_addAll.
  destruct (fetch_all_Some net _ Hok) as (entries & He & Hkeys & Hall). rewrite He.
  eexists. split; [reflexivity|]. split.
  - destruct (caches_lookup_open CACHE_NAME cs) as (c0 & H & _).
    now apply (caches_lookup_update _ _ c0).
  - intros u Hu. apply cache_put_all_stored; [assumption | now rewrite Hkeys].
Qed.

(** * Further properties of the service worker *)

(** Once the install listener has succeeded and the activate listener has
    run, a GET request of any path of [URLS_TO_CACHE] is answered with the
    response that was fetched at install time, whatever the network does
    now, and whatever other caches there were. *)
Theorem installed_shell_is_served_offline net net' cs u :
  Forall (fun u => fetch_fails net u = false) URLS_TO_CACHE ->
  In u URLS_TO_CACHE ->
  let cs2 := snd (on_activate (snd (on_install net cs))) in
  exists resp,
    net (GET u) = Some resp /\ on_fetch net' (GET u) cs2 = (Fulfilled resp, cs2).
Proof.
  intros Hok Hu. cbn zeta.
  destruct (on_install_ok net cs Hok) as (c & -> & Hc & Hstored).
  rewrite on_activate_filter. cbn [snd].
  destruct (filter_current_head _ c Hc) as [r ->].
  rewrite List.Forall_forall in Hok. specialize (Hok u Hu). unfold fetch_fails in Hok.
  destruct (net (GET u)) as [resp|] eqn:Hnet; [|discriminate].
  exists resp. split; [reflexivity|].
  unfold on_fetch. cbn [caches_match]. unfold cache_match. cbn [method url GET].
  rewrite bool_decide_eq_true_2 by reflexivity.
  now rewrite (Hstored u Hu), Hnet.
Qed.

(** The stylesheet, installed on line and requested off line, with the cache
    of an earlier version around. *)
Lemma installed_shell_is_served_offline_witness :
  exists resp,
    online (GET "/styles.css") = Some resp
    /\ on_fetch (fun _ => None) (GET "/styles.css")
         (snd (on_activate (snd (on_install online two_generations))))
       = (Fulfilled resp, snd (on_activate (snd (on_install online two_generations)))).
Proof.
  apply (installed_shell_is_served_offline online (fun _ => None) two_generations "/styles.css").
  - repeat constructor.
  - right. right. now left.
Defined.

(** Until the activate listener runs, a cache of an earlier version answers
    first.  When the storage holds no cache named [CACHE_NAME] yet, the
    install listener puts the new cache after the others, and a request an
    older cache matches is answered from that older cache, whether the
    install succeeded or not. *)
Theorem older_cache_answers_until_activate net net' cs req old :
  caches_lookup CACHE_NAME cs = None -> caches_match req cs = Some old ->
  exists c,
    snd (on_install net cs) = cs ++ [(CACHE_NAME, c)]
    /\ on_fetch net' req (snd (on_install net cs)) = (Fulfilled old, snd (on_install net cs)).
Proof.
  intros Hnew Hold. rewrite on_install_unfold. unfold caches_open. rewrite Hnew.
  assert (H : forall c, on_fetch net' req (cs ++ [(CACHE_NAME, c)])
                        = (Fulfilled old, cs ++ [(CACHE_NAME, c)])).
  { intros c. unfold on_fetch. now rewrite caches_match_app, Hold. }
  destruct (cache_addAll _ _ _) as [c'|]; cbn [snd].
  - exists c'. rewrite caches_update_last by assumption. split; [reflexivity | apply H].
  - exists ∅. split; [reflexivity | apply H].
Qed.

(** The page of an earlier version is still served after the new version
    was installed. *)
Lemma older_cache_answers_until_activate_witness :
  exists c,
    snd (on_install online [("price-scanner-cache-v0"%string, {[ "/"%string := page_v0 ]})])
    = [("price-scanner-cache-v0"%string, {[ "/"%string := page_v0 ]})] ++ [(CACHE_NAME, c)]
    /\ on_fetch online (GET "/")
         (snd (on_install online [("price-scanner-cache-v0"%string, {[ "/"%string := page_v0 ]})]))
       = (Fulfilled page_v0,
          snd (on_install online [("price-scanner-cache-v0"%string, {[ "/"%string := page_v0 ]})])).
Proof.
  apply (older_cache_answers_until_activate online online
           [("price-scanner-cache-v0"%string, {[ "/"%string := page_v0 ]})] (GET "/") page_v0).
  - reflexivity.
  - vm_compute. reflexivity.
Defined.

(** The install listener touches the cache named [CACHE_NAME] and no other:
    the caches of other names keep their contents, the names keep their
    order (with [CACHE_NAME] added last when it was absent), and in the cache
    itself an entry for a URL outside [URLS_TO_CACHE] is left as it was. *)
Theorem install_touches_only_the_manifest net cs :
  (forall name, name <> CACHE_NAME ->
     caches_lookup name (snd (on_install net cs)) = caches_lookup name cs)
  /\ caches_keys (snd (on_install net cs))
     = match caches_lookup CACHE_NAME cs with
       | Some _ => caches_keys cs
       | None => caches_keys cs ++ [CACHE_NAME]
       end
  /\ (forall u, ~ In u URLS_TO_CACHE ->
        default ∅ (caches_lookup CACHE_NAME (snd (on_install net cs))) !! u
        = default ∅ (caches_lookup CACHE_NAME cs) !! u).
Proof.
  rewrite on_install_unfold. unfold cache_addAll.
  destruct (caches_lookup_open CACHE_NAME cs) as (c0 & Hopen & Hc0).
  assert (Hkeys : caches_keys (caches_open CACHE_NAME cs)
                  = match caches_lookup CACHE_NAME cs with
                    | Some _ => caches_keys cs
                    | None => caches_keys cs ++ [CACHE_NAME]
                    end).
  { unfold caches_open, caches_keys. destruct (caches_lookup CACHE_NAME cs); [reflexivity|].
    now rewrite List.map_app. }
  destruct (fetch_all net URLS_TO_CACHE) as [entries|] eqn:He; cbn [snd].
  - split; [|split].
    + intros name Hne. rewrite caches_lookup_update_ne by assumption.
      now apply caches_lookup_open_ne.
    + now rewrite caches_keys_update.
    + intros u Hu. rewrite (caches_lookup_update _ _ c0 _ Hopen). cbn [default].
      apply cache_put_all_other. now rewrite (fetch_all_keys _ _ _ He).
  - split; [|split].
    + intros name Hne. now apply caches_lookup_open_ne.
    + exact Hkeys.
    + intros u Hu. rewrite Hopen. now subst c0.
Qed.

(** The cache of the earlier version is untouched by an install. *)
Lemma install_touches_only_the_manifest_witness :
  caches_lookup "price-scanner-cache-v0" (snd (on_install online two_generations))
  = Some {[ "/"%string := page_v0 ]}.
Proof.
  apply (proj1 (install_touches_only_the_manifest online two_generations)
           "price-scanner-cache-v0"%string).
  discriminate.
Defined.

(** After the activate listener has run on a storage whose caches have
    distinct names, a request is answered from the cache named [CACHE_NAME]
    when that cache matches it, and from the network otherwise: what the
    caches of earlier versions held is no longer served. *)
Theorem fetch_after_activate_uses_the_current_cache net req cs :
  NoDup (caches_keys cs) ->
  fst (on_fetch net req (snd (on_activate cs)))
  = match caches_lookup CACHE_NAME cs ≫= cache_match req with
    | Some resp => Fulfilled resp
    | None => match net req with Some resp => Fulfilled resp | None => Rejected end
    end.
Proof.
  intros Hnd. rewrite on_activate_filter. cbn [snd].
  rewrite (filter_current_NoDup cs Hnd). unfold on_fetch.
  destruct (caches_lookup CACHE_NAME cs) as [c|]; cbn [caches_match mbind option_bind].
  - destruct (cache_match req c); [reflexivity|]. now destruct (net req).
  - now destruct (net req).
Qed.

(** With two generations of caches, the page served after the activation is
    the current one. *)
Lemma fetch_after_activate_uses_the_current_cache_witness :
  fst (on_fetch online (GET "/") (snd (on_activate two_generations))) = Fulfilled page_v1.
Proof.
  apply (fetch_after_activate_uses_the_current_cache online (GET "/") two_generations).
  apply (bool_decide_unpack _). vm_compute. exact I.
Defined.
